(** * control: the ring keyboard of kidandcat/control (src/main.go)

    A shallow embedding of the radial input decoder, the sentence buffer,
    the predictor's training paths and the start-up loading of [main.go],
    with the properties its specification states about them.

    Conventions of the embedding.
    - A Go [string] is a byte sequence: Rocq's [string].  [len], slicing and
      the backspace loop count bytes, as Go does.  [ToLower], [Fields] and
      [TrimSpace] are Go's on ASCII text, which is all the rings can type.
      On text with a byte from 0x80 on (the two files can hold any) Go
      works rune by rune through its Unicode tables: it lowers letters
      outside ASCII, which can change the byte length of a string, and it
      takes more characters for white space; the definitions here leave
      such bytes alone.  The one place of the program where the byte
      length of a lowered string matters, the slice taken when a
      prediction is accepted, is therefore also given with the lowering
      as a parameter ([acceptPredictionWith]).
    - Go's [int] is [Z]; indexing and slicing out of range panic, and a
      panic is [None] in the [option] monad.
    - [float64] is the kernel's binary64 [float]; comparisons, [+], [*], [/]
      and [math.Sqrt] are the IEEE operations Go uses on amd64.  Where a
      property speaks of the number a float stands for, that number is a
      real ([float64_real]) and π is the library's [PI].
    - [time.Time] is a count of nanoseconds; [time.Now()] is an input of the
      tick.
    - The calls that leave the program, to robotgo and to the two
      functions that write the files, are an output trace of [Effect]s;
      what the file system does with a write is not modelled.
    - The window (its position, its visibility and opacity) is a record of
      its own, [Window], with the statements of [Update] that concern it;
      [Draw] returns the list of what it draws.
    - Logging, vibration, gamepad enumeration and [lastInputTime] (written,
      never read) are left out. *)

From Stdlib Require Import Reals Lra Machin.
From Stdlib Require Import ZArith Ascii String List Bool Lia Floats.
From stdpp Require Import base option list gmap strings fin_maps.

Set Warnings "-inexact-float,-clear-no-such-hyp".
Local Open Scope string_scope.
Local Open Scope list_scope.
Local Open Scope Z_scope.

(** ** Go's built-in operations on slices and strings *)

Module Go.

(** [len(l)] *)
Definition len {A} (l : list A) : Z := Z.of_nat (length l).

(** [len(s)], in bytes *)
Definition strlen (s : string) : Z := Z.of_nat (String.length s).

(** [l[i]]: a run-time panic when [i] is out of range *)
Definition index {A} (l : list A) (i : Z) : option A :=
  if (0 <=? i) && (i <? len l) then l !! Z.to_nat i else None.

(** [l[i] = v] *)
Definition setIndex {A} (l : list A) (i : Z) (v : A) : option (list A) :=
  if (0 <=? i) && (i <? len l) then Some (<[Z.to_nat i := v]> l) else None.

(** [l[:n]]; the program only ever shrinks a slice, so the bound checked is
    the length *)
Definition sliceTo {A} (l : list A) (n : Z) : option (list A) :=
  if (0 <=? n) && (n <=? len l) then Some (take (Z.to_nat n) l) else None.

Fixpoint stake (n : nat) (s : string) : string :=
  match n, s with
  | S n', String c s' => String c (stake n' s')
  | _, _ => ""
  end.

Fixpoint sdrop (n : nat) (s : string) : string :=
  match n, s with
  | S n', String _ s' => sdrop n' s'
  | _, _ => s
  end.

(** [s[:n]] *)
Definition strSliceTo (s : string) (n : Z) : option string :=
  if (0 <=? n) && (n <=? strlen s) then Some (stake (Z.to_nat n) s) else None.

(** [s[n:]] *)
Definition strSliceFrom (s : string) (n : Z) : option string :=
  if (0 <=? n) && (n <=? strlen s) then Some (sdrop (Z.to_nat n) s) else None.

(** [s == t] *)
Definition streq (s t : string) : bool := String.eqb s t.

(** [int(f)] for a [float64]: truncation toward zero; outside [int64] (and
    for NaN) Go leaves the result to the implementation, and amd64's
    CVTTSD2SQ gives the smallest [int64]. *)
Definition int_of_float64 (f : float) : Z :=
  match Prim2SF f with
  | S754_zero _ => 0
  | S754_finite s m e =>
      let v := if 0 <=? e then Z.pos m * 2 ^ e else Z.pos m / 2 ^ (- e) in
      let t := if s then - v else v in
      if (- 2 ^ 63 <=? t) && (t <? 2 ^ 63) then t else - 2 ^ 63
  | _ => - 2 ^ 63
  end.

(** [float64(n)] for a small non-negative [int] *)
Definition float64_of_int (n : Z) : float := PrimFloat.of_uint63 (Uint63.of_Z n).

End Go.

(** ** Package strings *)

Module strings.

Definition lowerByte (c : ascii) : ascii :=
  let n := nat_of_ascii c in
  if ((65 <=? n) && (n <=? 90))%nat then ascii_of_nat (n + 32) else c.

(** [strings.ToLower] *)
Fixpoint ToLower (s : string) : string :=
  match s with
  | "" => ""
  | String c s' => String (lowerByte c) (ToLower s')
  end.

(** [strings.HasPrefix(s, prefix)] *)
Definition HasPrefix (s pre : string) : bool := String.prefix pre s.

(** membership of a byte in a cutset *)
Fixpoint inCutset (c : ascii) (cutset : string) : bool :=
  match cutset with
  | "" => false
  | String d cutset' => Ascii.eqb c d || inCutset c cutset'
  end.

(** [strings.TrimLeft(s, cutset)] *)
Fixpoint TrimLeft (s cutset : string) : string :=
  match s with
  | "" => ""
  | String c s' => if inCutset c cutset then TrimLeft s' cutset else s
  end.

(** [strings.TrimRight(s, cutset)] *)
Fixpoint TrimRight (s cutset : string) : string :=
  match s with
  | "" => ""
  | String c s' =>
      match TrimRight s' cutset with
      | "" => if inCutset c cutset then "" else String c ""
      | r => String c r
      end
  end.

(** [unicode.IsSpace] on a byte: tab, newline, vertical tab, form feed,
    carriage return, space *)
Definition isSpace (c : ascii) : bool :=
  let n := nat_of_ascii c in
  (((9 <=? n) && (n <=? 13)) || (n =? 32))%nat.

Fixpoint trimLeftFunc (f : ascii -> bool) (s : string) : string :=
  match s with
  | "" => ""
  | String c s' => if f c then trimLeftFunc f s' else s
  end.

Fixpoint trimRightFunc (f : ascii -> bool) (s : string) : string :=
  match s with
  | "" => ""
  | String c s' =>
      match trimRightFunc f s' with
      | "" => if f c then "" else String c ""
      | r => String c r
      end
  end.

(** [strings.TrimSpace] *)
Definition TrimSpace (s : string) : string :=
  trimRightFunc isSpace (trimLeftFunc isSpace s).

(** The scan of [strings.FieldsFunc]: [cur] is the field being read,
    reversed; a separator closes it when it is not empty. *)
Fixpoint fieldsFrom (f : ascii -> bool) (s : string) (cur : list ascii)
  : list string :=
  match s with
  | "" => match cur with [] => [] | _ => [string_of_list_ascii (rev cur)] end
  | String c s' =>
      if f c then
        match cur with
        | [] => fieldsFrom f s' []
        | _ => string_of_list_ascii (rev cur) :: fieldsFrom f s' []
        end
      else fieldsFrom f s' (c :: cur)
  end.

(** [strings.FieldsFunc(s, f)] *)
Definition FieldsFunc (s : string) (f : ascii -> bool) : list string :=
  fieldsFrom f s [].

(** [strings.Fields(s)] *)
Definition Fields (s : string) : list string := FieldsFunc s isSpace.

End strings.

(** ** Package gomarkov (github.com/mb-14/gomarkov), order 1

    The chain is the table its [Add] builds: for every context token, how
    often each next token followed it.  [Generate] draws from a row at
    random and stays a parameter of the program below. *)

Module gomarkov.

Abbreviation Chain := (gmap string (gmap string Z)).

Definition StartToken : string := "$".
Definition EndToken : string := "^".

(** [frequencyMat[current][next]++] *)
Definition addPair (c : Chain) (current next : string) : Chain :=
  let row := default ∅ (c !! current) in
  <[current := <[next := default 0 (row !! next) + 1]> row]> c.

(** the loop of [Add] over [MakePairs(tokens, 1)] *)
Fixpoint addPairs (c : Chain) (tokens : list string) : Chain :=
  match tokens with
  | current :: (next :: _) as rest => addPairs (addPair c current next) rest
  | _ => c
  end.

(** [chain.Add(input)] *)
Definition Add (c : Chain) (input : list string) : Chain :=
  addPairs c ([StartToken] ++ input ++ [EndToken])%list.


End gomarkov.

(** ** The program state and what it emits *)

(** The calls that leave the program: the keystrokes injected through
    robotgo and the calls of the two functions that write under
    [~/.config/control].  [WriteRawText text] is the call
    [g.appendToRawText(text)] and [WriteTrainingData data] the call
    [g.saveTrainingData()] made while [g.trainingData] is [data].  A trace
    records that the call is made and with what; whether the text reaches
    the file is decided inside the two functions (each returns before it
    writes when the home directory, the directory or the file cannot be
    had, and [Update] only logs that) and is not part of the trace. *)
Inductive Effect : Type :=
| KeyTap (key : string)
| TypeStr (s : string)
| WriteRawText (text : string)
| WriteTrainingData (data : list (list string)).

(** The fields of [Game] the keyboard logic reads. *)
Record Game : Type := mkGame {
  currentSet : Z;
  selectedRing : Z;
  selectedIndex : Z;
  joystickAngle : float;
  lastButtonTime : Z;
  uppercase : bool;
  markovChain : option gomarkov.Chain;
  currentSentence : list string;
  trainingData : list (list string);
  nextPrediction : string;
  wordFrequency : gmap string Z
}.

Definition set_currentSet (v : Z) (g : Game) : Game :=
  mkGame v (selectedRing g) (selectedIndex g) (joystickAngle g)
    (lastButtonTime g) (uppercase g) (markovChain g) (currentSentence g)
    (trainingData g) (nextPrediction g) (wordFrequency g).

Definition set_selectedRing (v : Z) (g : Game) : Game :=
  mkGame (currentSet g) v (selectedIndex g) (joystickAngle g)
    (lastButtonTime g) (uppercase g) (markovChain g) (currentSentence g)
    (trainingData g) (nextPrediction g) (wordFrequency g).

Definition set_selectedIndex (v : Z) (g : Game) : Game :=
  mkGame (currentSet g) (selectedRing g) v (joystickAngle g)
    (lastButtonTime g) (uppercase g) (markovChain g) (currentSentence g)
    (trainingData g) (nextPrediction g) (wordFrequency g).

Definition set_joystickAngle (v : float) (g : Game) : Game :=
  mkGame (currentSet g) (selectedRing g) (selectedIndex g) v
    (lastButtonTime g) (uppercase g) (markovChain g) (currentSentence g)
    (trainingData g) (nextPrediction g) (wordFrequency g).

Definition set_lastButtonTime (v : Z) (g : Game) : Game :=
  mkGame (currentSet g) (selectedRing g) (selectedIndex g) (joystickAngle g)
    v (uppercase g) (markovChain g) (currentSentence g)
    (trainingData g) (nextPrediction g) (wordFrequency g).

Definition set_uppercase (v : bool) (g : Game) : Game :=
  mkGame (currentSet g) (selectedRing g) (selectedIndex g) (joystickAngle g)
    (lastButtonTime g) v (markovChain g) (currentSentence g)
    (trainingData g) (nextPrediction g) (wordFrequency g).

Definition set_markovChain (v : option gomarkov.Chain) (g : Game) : Game :=
  mkGame (currentSet g) (selectedRing g) (selectedIndex g) (joystickAngle g)
    (lastButtonTime g) (uppercase g) v (currentSentence g)
    (trainingData g) (nextPrediction g) (wordFrequency g).

Definition set_currentSentence (v : list string) (g : Game) : Game :=
  mkGame (currentSet g) (selectedRing g) (selectedIndex g) (joystickAngle g)
    (lastButtonTime g) (uppercase g) (markovChain g) v
    (trainingData g) (nextPrediction g) (wordFrequency g).

Definition set_trainingData (v : list (list string)) (g : Game) : Game :=
  mkGame (currentSet g) (selectedRing g) (selectedIndex g) (joystickAngle g)
    (lastButtonTime g) (uppercase g) (markovChain g) (currentSentence g)
    v (nextPrediction g) (wordFrequency g).

Definition set_nextPrediction (v : string) (g : Game) : Game :=
  mkGame (currentSet g) (selectedRing g) (selectedIndex g) (joystickAngle g)
    (lastButtonTime g) (uppercase g) (markovChain g) (currentSentence g)
    (trainingData g) v (wordFrequency g).

Definition set_wordFrequency (v : gmap string Z) (g : Game) : Game :=
  mkGame (currentSet g) (selectedRing g) (selectedIndex g) (joystickAngle g)
    (lastButtonTime g) (uppercase g) (markovChain g) (currentSentence g)
    (trainingData g) (nextPrediction g) v.

(** [&Game{}] as [main] builds it: every field modelled here is zero. *)
Definition newGame : Game :=
  mkGame 0 0 0 0%float 0 false None [] [] "" ∅.

(** What one gamepad with the standard layout reports in one tick: the left
    stick, the clock, the buttons that were just pressed and the two held
    modifiers. *)
Record Input : Type := mkInput {
  LeftStickHorizontal : float;
  LeftStickVertical : float;
  now : Z;
  justRightBottom : bool;
  justRightRight : bool;
  justRightLeft : bool;
  justRightTop : bool;
  justLeftTop : bool;
  justLeftBottom : bool;
  justLeftLeft : bool;
  justLeftRight : bool;
  justButton7 : bool;
  pressedButton4 : bool;
  pressedButton5 : bool
}.

(** [g.rings], as the first [Update] fills it and nothing changes it:
    [rings set ring].  [⌫] and [↵] are the two control tokens. *)
Definition rings (set ring : Z) : option (list string) :=
  if (set =? 0) && (ring =? 0) then
    Some ["0"; "1"; "2"; "3"; "4"; "5"; "6"; "7"; "8"; "9";
          "."; ","; "-"; "_"; "⌫"; "↵"]
  else if (set =? 0) && (ring =? 1) then
    Some ["A"; "B"; "C"; "D"; "E"; "F"; "G"; "H"; "I"; "J";
          "K"; "L"; "M"; "N"; "O"; "P"; "Q"; "R"; "S"; "T";
          "U"; "V"; "W"; "X"; "Y"; "Z"]
  else if (set =? 1) && (ring =? 0) then
    Some ["("; ")"; "["; "]"; "{"; "}"; "<"; ">"; "'"; String "034" "";
          "`"; "~"; "!"; "?"; "⌫"; "↵"]
  else if (set =? 1) && (ring =? 1) then
    Some ["+"; "-"; "*"; "/"; "="; "!="; "=="; "&&"; "||"; "%";
          "&"; "|"; "^"; "<<"; ">>"; "@"; "#"; "$"; ":"; ";";
          "\"; "."; ","; "_"; "->"; "=>"]
  else None.

(** ** Time *)

Definition Millisecond : Z := 1000000.
Definition maxDuration : Z := 2 ^ 63 - 1.
Definition minDuration : Z := - 2 ^ 63.

(** [t.Sub(u)]: the difference, held within [time.Duration]. *)
Definition Sub (t u : Z) : Z :=
  let d := t - u in
  if maxDuration <? d then maxDuration
  else if d <? minDuration then minDuration
  else d.

(** ** The sentence buffer *)

Import Go.

(** The block that follows a backspace, at both places it stands (the ring's
    [⌫] token and the B button). *)
Definition backspaceWord (cs : list string) : option (list string) :=
  if 0 <? len cs then
    lastWord ← index cs (len cs - 1);
    if 0 <? strlen lastWord then
      shorter ← strSliceTo lastWord (strlen lastWord - 1);
      cs ← setIndex cs (len cs - 1) shorter;
      w ← index cs (len cs - 1);
      if streq w "" then sliceTo cs (len cs - 1) else Some cs
    else Some cs
  else Some cs.

(** The word tracking of the X button (space). *)
Definition wordBreak (cs : list string) : option (list string) :=
  if 0 <? len cs then
    w ← index cs (len cs - 1);
    if negb (streq w "") then Some (cs ++ [""])%list else Some cs
  else Some [""].

(** The word tracking of a typed glyph. *)
Definition appendChar (cs : list string) (outputChar : string)
  : option (list string) :=
  let cs := if len cs =? 0 then [""] else cs in
  w ← index cs (len cs - 1);
  setIndex cs (len cs - 1) (w ++ outputChar)%string.

(** Sequencing of two steps of a tick: the state is threaded, the effects
    are appended, a panic stops everything. *)
Definition andThen (r : option (Game * list Effect))
    (k : Game -> option (Game * list Effect)) : option (Game * list Effect) :=
  '(g, e1) ← r;
  '(g', e2) ← k g;
  Some (g', (e1 ++ e2)%list).

(** A [for ... range] loop whose body may panic. *)
Fixpoint forEach {A S} (body : S -> A -> option S) (l : list A) (s : S)
  : option S :=
  match l with
  | [] => Some s
  | a :: l' => s' ← body s a; forEach body l' s'
  end.

(** [g.wordFrequency[word]++] *)
Definition countWord (g : Game) (word : string) : Game :=
  set_wordFrequency
    (<[word := default 0 (wordFrequency g !! word) + 1]> (wordFrequency g)) g.

(** [g.markovChain.Add(words)]; a nil chain is a nil dereference. *)
Definition chainAdd (g : Game) (words : list string) : option Game :=
  chain ← markovChain g;
  Some (set_markovChain (Some (gomarkov.Add chain words)) g).

(** The phrases the chain starts from when nothing was saved. *)
Definition seedSentences : list (list string) :=
  [ ["hello"; "world"];
    ["how"; "are"; "you"];
    ["the"; "quick"; "brown"; "fox"];
    ["I"; "am"; "fine"];
    ["thank"; "you"; "very"; "much"];
    ["what"; "is"; "your"; "name"];
    ["nice"; "to"; "meet"; "you"];
    ["have"; "a"; "good"; "day"];
    ["see"; "you"; "later"];
    ["good"; "morning"];
    ["good"; "afternoon"];
    ["good"; "evening"];
    ["ok"; "thanks"];
    ["ok"; "I"; "will"];
    ["ok"; "let"; "me"; "check"];
    ["ok"; "sounds"; "good"];
    ["yes"; "I"; "agree"];
    ["no"; "thank"; "you"];
    ["please"; "help"; "me"];
    ["can"; "you"; "help"];
    ["this"; "is"; "great"];
    ["that"; "is"; "awesome"] ].

(** ** The files *)

(** What [os.ReadFile] can answer. *)
Inductive FileRead : Type :=
| NotExist
| ReadFailed
| Contents (data : string).

(** The user's configuration directory as the program finds it at start-up:
    whether [os.UserHomeDir] succeeds, and the two files. *)
Record Env : Type := mkEnv {
  homeDirOk : bool;
  trainingDataFile : FileRead;
  rawTextFile : FileRead
}.

Inductive error : Type :=
| ErrHomeDir
| ErrRead
| ErrUnmarshal.

Definition newline : string := String "010" "".
Definition dquote : string := String "034" "".

(** the separator test of [loadRawTextAndTrain]: [.], [!], [?], newline *)
Definition isSentenceEnd (r : ascii) : bool :=
  strings.inCutset r ("." ++ "!" ++ "?" ++ newline)%string.

(** the two trims applied to a word of the raw text *)
Definition cleanWord (word : string) : string :=
  let word := strings.TrimRight word (",.;:" ++ dquote ++ "'!?")%string in
  strings.TrimLeft word (dquote ++ "'")%string.

(** the loop that builds [cleanWords] *)
Definition cleanWords (words : list string) : list string :=
  fold_left
    (fun acc word =>
       let word := cleanWord word in
       if negb (streq word "") then (acc ++ [strings.ToLower word])%list
       else acc)
    words [].

(** the body of the loop over the sentences of the raw text *)
Definition trainRawSentence (g : Game) (sentence : string) : option Game :=
  let sentence := strings.TrimSpace sentence in
  if streq sentence "" then Some g
  else
    let words := strings.Fields sentence in
    if 1 <? len words then
      let cleanWords := cleanWords words in
      g ← (if 1 <? len cleanWords then chainAdd g cleanWords else Some g);
      Some (fold_left countWord cleanWords g)
    else Some g.

(** [loadRawTextAndTrain] *)
Definition loadRawTextAndTrain (env : Env) (g : Game)
  : option (Game * option error) :=
  if negb (homeDirOk env) then Some (g, Some ErrHomeDir)
  else
    match rawTextFile env with
    | NotExist => Some (g, None)
    | ReadFailed => Some (g, Some ErrRead)
    | Contents text =>
        if streq text "" then Some (g, None)
        else
          let sentences := strings.FieldsFunc text isSentenceEnd in
          g ← forEach trainRawSentence sentences g;
          Some (g, None)
    end.

(** the training of one saved sentence at start-up *)
Definition trainSentence (g : Game) (sentence : list string) : option Game :=
  g ← chainAdd g sentence;
  Some (fold_left (fun g word => countWord g (strings.ToLower word)) sentence g).

(** What Enter does to the tracked sentence, at both places it stands (the
    ring's [↵] token and the Y button). *)
Definition enterSentence (g : Game) : option (Game * list Effect) :=
  let cs := currentSentence g in
  '(g, saved) ←
    (if 1 <? len cs then
       g ← chainAdd g cs;
       let g := set_trainingData (trainingData g ++ [cs])%list g in
       let g :=
         fold_left
           (fun g word =>
              if negb (streq word "") then countWord g (strings.ToLower word)
              else g)
           cs g in
       Some (g, [WriteTrainingData (trainingData g)])
     else Some (g, []));
  Some (set_currentSentence [] g,
        ([KeyTap "enter"; WriteRawText newline] ++ saved)%list).

Definition Pi : float := 0x1.921fb54442d18p+1%float.

(** ** The window: where it is and whether it shows

    The fields of [Game] that place and show the window, and the statements
    of [Update] that read and write them, in the order [Update] runs them.
    The keyboard statements between them touch none of these fields, and
    these statements touch none of the keyboard's. *)

Definition screenWidth : Z := 460.
Definition screenHeight : Z := 460.

Record Window : Type := mkWindow {
  windowX : float;
  windowY : float;
  windowInitialized : bool;
  opacity : float;
  isVisible : bool
}.

(** the window as [main] builds it: at (100, 100), visible *)
Definition newWindow : Window := mkWindow 100 100 false 0 true.

(** What one gamepad with the standard layout reports to the window in one
    tick: the right stick, button 9, and the size of the monitor as
    [ebiten.Monitor().Size()] gives it then. *)
Record WindowInput : Type := mkWindowInput {
  RightStickHorizontal : float;
  RightStickVertical : float;
  justButton9 : bool;
  monitorSize : Z * Z
}.

(** [ebiten.SetWindowPosition(x, y)] *)
Inductive WindowEffect : Type :=
| SetWindowPosition (x y : Z).

(** [float64(n)] for an [int]: the nearest [float64], ties to even *)
Definition float64_of_Z (n : Z) : float :=
  if n <? 0 then
    if n =? - 2 ^ 63 then (- 0x1p63)%float
    else (- PrimFloat.of_uint63 (Uint63.of_Z (- n)))%float
  else PrimFloat.of_uint63 (Uint63.of_Z n).

(** the first frame places the window *)
Definition initWindow (w : Window) : Window * list WindowEffect :=
  if negb (windowInitialized w) then
    (mkWindow (windowX w) (windowY w) true (opacity w) (isVisible w),
     [SetWindowPosition (int_of_float64 (windowX w))
        (int_of_float64 (windowY w))])
  else (w, []).

(** the right stick moves the window, within the monitor *)
Definition moveWindow (inp : WindowInput) (w : Window)
  : Window * list WindowEffect :=
  let rightX := RightStickHorizontal inp in
  let rightY := RightStickVertical inp in
  if (0.1 <? PrimFloat.abs rightX)%float || (0.1 <? PrimFloat.abs rightY)%float
  then
    let moveSpeed := 25%float in
    let newX := (windowX w + rightX * moveSpeed)%float in
    let newY := (windowY w + rightY * moveSpeed)%float in
    let '(monitorX, monitorY) := monitorSize inp in
    let newX := if (newX <? 0)%float then 0%float else newX in
    let newY := if (newY <? 0)%float then 0%float else newY in
    let newX :=
      if (float64_of_Z (monitorX - screenWidth) <? newX)%float
      then float64_of_Z (monitorX - screenWidth) else newX in
    let newY :=
      if (float64_of_Z (monitorY - screenHeight) <? newY)%float
      then float64_of_Z (monitorY - screenHeight) else newY in
    (mkWindow newX newY (windowInitialized w) (opacity w) (isVisible w),
     [SetWindowPosition (int_of_float64 newX) (int_of_float64 newY)])
  else (w, []).

(** button 9 shows and hides the window *)
Definition toggleVisibility (inp : WindowInput) (w : Window) : Window :=
  if justButton9 inp then
    mkWindow (windowX w) (windowY w) (windowInitialized w) (opacity w)
      (negb (isVisible w))
  else w.

(** the opacity follows the visibility, at the end of [Update] *)
Definition updateOpacity (w : Window) : Window :=
  mkWindow (windowX w) (windowY w) (windowInitialized w)
    (if isVisible w then 1%float else 0%float) (isVisible w).

(** what [Update] does to the window for the gamepads with the standard
    layout, in the order it serves them *)
Definition UpdateWindow (pads : list WindowInput) (w : Window)
  : Window * list WindowEffect :=
  let '(w, out) := initWindow w in
  let '(w, out) :=
    fold_left
      (fun '(w, out) inp =>
         let '(w, e) := moveWindow inp w in
         (toggleVisibility inp w, (out ++ e)%list))
      pads (w, out) in
  (updateOpacity w, out).

(** ** Colours *)

(** [color.RGBA]: four [uint8] *)
Record RGBA : Type := mkRGBA {
  chanR : Z;
  chanG : Z;
  chanB : Z;
  chanA : Z
}.

(** [uint8(f)] for a [float64]: the value truncated toward zero when that
    is a [uint8]; Go leaves every other case to the implementation, and so
    does this *)
Definition uint8_of_float64 (f : float) : option Z :=
  let t := int_of_float64 f in
  if (0 <=? t) && (t <=? 255) then Some t else None.

(** [applyOpacity] *)
Definition applyOpacity (w : Window) (c : RGBA) : option RGBA :=
  a ← uint8_of_float64 (float64_of_Z (chanA c) * opacity w)%float;
  Some (mkRGBA (chanR c) (chanG c) (chanB c) a).

(** [c + 50] on a [uint8] *)
Definition brighten (c : Z) : Z := (c + 50) mod 256.

(** ** What [Draw] puts on the screen *)

Inductive DrawOp : Type :=
| Fill (c : RGBA)
| DrawCircle (x y r : float) (c : RGBA)
| DrawText (s : string) (x y : Z) (c : RGBA)
| SetPixel (x y : Z) (c : RGBA).

(** [radii] and [bgColors]: two-element arrays, indexed by the ring *)
Definition radii (ringIdx : Z) : option float :=
  if ringIdx =? 0 then Some 120%float
  else if ringIdx =? 1 then Some 200%float
  else None.

Definition bgColors (ringIdx : Z) : option RGBA :=
  if ringIdx =? 0 then Some (mkRGBA 80 40 40 255)
  else if ringIdx =? 1 then Some (mkRGBA 40 40 80 255)
  else None.

(** The stick magnitude [Draw] goes by.  [gamepads] lists the connected
    gamepads in the order the [range] over [g.gamepadIDs] visits them, each
    with its left stick when it has the standard layout: the first such
    stick counts, and the magnitude is 0 when there is none. *)
Fixpoint currentMagnitude (gamepads : list (option (float * float))) : float :=
  match gamepads with
  | [] => 0%float
  | Some (x, y) :: _ => PrimFloat.sqrt (x * x + y * y)%float
  | None :: rest => currentMagnitude rest
  end.

(** A [for i, a := range l] loop that draws. *)
Fixpoint forRange {A} (body : Z -> A -> option (list DrawOp)) (i : Z)
    (l : list A) : option (list DrawOp) :=
  match l with
  | [] => Some []
  | a :: l' =>
      ops ← body i a;
      rest ← forRange body (i + 1) l';
      Some (ops ++ rest)%list
  end.

Section Drawing.

(** [math.Cos] and [math.Sin] *)
Variable Cos : float -> float.
Variable Sin : float -> float.

(** [text.BoundString(g.font, s)]: the width [Dx()] and the height [Dy()] of
    the bounds of [s] *)
Variable boundDx : string -> Z.
Variable boundDy : string -> Z.

(** the character [Draw] shows for a token of a ring: a letter follows the
    case in force *)
Definition displayChar (g : Game) (char : string) : string :=
  if (strlen char =? 1) && String.leb "A" char && String.leb char "Z"
  then if negb (uppercase g) then strings.ToLower char else char
  else char.

(** the body of [Draw]'s loop over the tokens of a ring *)
Definition drawToken (w : Window) (g : Game) (currentMagnitude : float)
    (ringIdx : Z) (ring : list string) (radius : float) (i : Z) (char : string)
  : option (list DrawOp) :=
  let centerX := float64_of_Z (Z.quot screenWidth 2) in
  let centerY := float64_of_Z (Z.quot screenHeight 2) in
  let angle :=
    (((float64_of_Z i * (2 * Pi)) / float64_of_Z (len ring)) - Pi / 2)%float in
  let x := (centerX + radius * Cos angle)%float in
  let y := (centerY + radius * Sin angle)%float in
  textColor ← applyOpacity w (mkRGBA 150 150 150 255);
  '(textColor, indicator) ←
    (if (0.1 <? currentMagnitude)%float && (ringIdx =? selectedRing g) then
       textColor ← applyOpacity w (mkRGBA 255 255 255 255);
       if i =? selectedIndex g then
         textColor ← applyOpacity w (mkRGBA 0 255 255 255);
         c ← applyOpacity w (mkRGBA 0 255 255 64);
         Some (textColor, [DrawCircle x y 20 c])
       else Some (textColor, [])
     else Some (textColor, []));
  bgColor ← bgColors ringIdx;
  let bgColor :=
    if (0.1 <? currentMagnitude)%float && (ringIdx =? selectedRing g)
    then mkRGBA (brighten (chanR bgColor)) (brighten (chanG bgColor))
           (brighten (chanB bgColor)) (chanA bgColor)
    else bgColor in
  bgColor ← applyOpacity w bgColor;
  let displayChar := displayChar g char in
  let textX := int_of_float64 x - Z.quot (boundDx displayChar) 2 in
  let textY := int_of_float64 y + Z.quot (boundDy displayChar) 2 in
  Some (indicator
        ++ [DrawCircle x y 18 bgColor; DrawText displayChar textX textY textColor])%list.

(** one ring of the set in force *)
Definition drawRing (w : Window) (g : Game) (currentMagnitude : float)
    (ringIdx : Z) : option (list DrawOp) :=
  ring ← rings (currentSet g) ringIdx;
  radius ← radii ringIdx;
  forRange (drawToken w g currentMagnitude ringIdx ring radius) 0 ring.

(** the predicted word on its box, in the centre *)
Definition drawPrediction (w : Window) (g : Game) : option (list DrawOp) :=
  if negb (streq (nextPrediction g) "") then
    let centerX := float64_of_Z (Z.quot screenWidth 2) in
    let centerY := float64_of_Z (Z.quot screenHeight 2) in
    bgColor ← applyOpacity w (mkRGBA 40 40 40 200);
    let dx := boundDx (nextPrediction g) in
    let dy := boundDy (nextPrediction g) in
    let padding := 10 in
    let bgX := int_of_float64 centerX - Z.quot dx 2 - padding in
    let bgY := int_of_float64 centerY - Z.quot dy 2 - padding in
    let bgW := dx + padding * 2 in
    let bgH := dy + padding * 2 in
    let box :=
      flat_map (fun y => map (fun x => SetPixel x y bgColor) (seqZ bgX bgW))
        (seqZ bgY bgH) in
    let predX := int_of_float64 centerX - Z.quot dx 2 in
    let predY := int_of_float64 centerY + Z.quot dy 2 in
    c ← applyOpacity w (mkRGBA 0 255 0 255);
    Some (box ++ [DrawText (nextPrediction g) predX predY c])%list
  else Some [].

(** [Draw], once the first [Update] has filled the rings and the font *)
Definition Draw (w : Window) (g : Game)
    (gamepads : list (option (float * float))) : option (list DrawOp) :=
  let clear := Fill (mkRGBA 0 0 0 0) in
  if (opacity w <=? 0)%float then Some [clear]
  else if 0 <? len gamepads then
    let currentMagnitude := currentMagnitude gamepads in
    outer ← drawRing w g currentMagnitude 1;
    inner ← drawRing w g currentMagnitude 0;
    prediction ← drawPrediction w g;
    Some ([clear] ++ outer ++ inner ++ prediction)%list
  else
    let str := "Please connect your gamepad." in
    c ← applyOpacity w (mkRGBA 255 255 255 255);
    Some [clear;
          DrawText str (Z.quot (screenWidth - boundDx str) 2)
            (Z.quot screenHeight 2) c].

(** [Layout] *)
Definition Layout (outsideWidth outsideHeight : Z) : Z * Z :=
  (screenWidth, screenHeight).

End Drawing.

(** ** Stand-ins for the library functions

    The properties below hold for every [math.Atan2], [Generate], map order
    and JSON decoder.  The examples at the end of the file run the program,
    and for that they use these. *)

(** [math.Atan2] on the four axis directions (the only arguments the
    examples pass), as Go defines it there; zero elsewhere. *)
Definition atan2OnAxes (a b : float) : float :=
  if (a =? 0)%float then (if (b <? 0)%float then Pi else 0%float)
  else if (b =? 0)%float
       then (if (0 <? a)%float then (Pi / 2)%float else (- (Pi / 2))%float)
       else 0%float.

(** a [Generate] that draws the first next token of the context's row *)
Definition generateFirst (c : gomarkov.Chain) (ngram : list string)
  : option string :=
  match ngram with
  | [key] => row ← c !! key; fst <$> head (map_to_list row)
  | _ => None
  end.

(** a map order: the one of [map_to_list] *)
Definition rangeListed (m : gmap string Z) : list (string * Z) :=
  map_to_list m.

(** a decoder that reads the empty list and rejects everything else *)
Definition unmarshalEmpty (data : string) (v : list (list string))
  : list (list string) * bool :=
  if streq data "[]" then ([], false) else (v, true).

(** The Kelvin sign, U+212A, and the word "İstanbul" with the capital
    dotted I, U+0130, as their UTF-8 bytes. *)
Definition kelvinSign : string := String "226" (String "132" (String "170" "")).
Definition capitalIstanbul : string :=
  String "196" (String "176" "stanbul").

(** [strings.ToLower] on ASCII text and on the two words above (the only
    arguments the examples pass), as Go defines it there: Go lowers U+212A
    to [k] and U+0130 to [i]. *)
Definition toLowerOfExamples (s : string) : string :=
  if streq s kelvinSign then "k"
  else if streq s capitalIstanbul then "istanbul"
  else strings.ToLower s.

(** ** Inputs and states of the examples *)

(** a gamepad report with the stick at [(x, y)] and no button down *)
Definition idle (x y : float) (t : Z) : Input :=
  mkInput x y t false false false false false false false false false
    false false.

(** the same report with the confirm button (RightBottom) just pressed *)
Definition pressConfirm (inp : Input) : Input :=
  mkInput (LeftStickHorizontal inp) (LeftStickVertical inp) (now inp)
    true (justRightRight inp) (justRightLeft inp) (justRightTop inp)
    (justLeftTop inp) (justLeftBottom inp) (justLeftLeft inp)
    (justLeftRight inp) (justButton7 inp) (pressedButton4 inp)
    (pressedButton5 inp).

(** ... with the B button (RightRight) just pressed *)
Definition pressB (inp : Input) : Input :=
  mkInput (LeftStickHorizontal inp) (LeftStickVertical inp) (now inp)
    (justRightBottom inp) true (justRightLeft inp) (justRightTop inp)
    (justLeftTop inp) (justLeftBottom inp) (justLeftLeft inp)
    (justLeftRight inp) (justButton7 inp) (pressedButton4 inp)
    (pressedButton5 inp).

(** ... with R2 (button 7) just pressed *)
Definition pressR2 (inp : Input) : Input :=
  mkInput (LeftStickHorizontal inp) (LeftStickVertical inp) (now inp)
    (justRightBottom inp) (justRightRight inp) (justRightLeft inp)
    (justRightTop inp) (justLeftTop inp) (justLeftBottom inp)
    (justLeftLeft inp) (justLeftRight inp) true (pressedButton4 inp)
    (pressedButton5 inp).

(** a game whose chain exists and is empty *)
Definition started : Game := set_markovChain (Some ∅) newGame.

(** ... with a sentence in progress and a prediction on display *)
Definition typing (cs : list string) (prediction : string) : Game :=
  set_nextPrediction prediction (set_currentSentence cs started).

(** a first run: the home directory is there, neither file is *)
Definition firstRun : Env := mkEnv true NotExist NotExist.

(** a run that finds [text] in the raw text file *)
Definition withRawText (text : string) : Env :=
  mkEnv true NotExist (Contents text).

(** ... with the X button (RightLeft) just pressed *)
Definition pressX (inp : Input) : Input :=
  mkInput (LeftStickHorizontal inp) (LeftStickVertical inp) (now inp)
    (justRightBottom inp) (justRightRight inp) true (justRightTop inp)
    (justLeftTop inp) (justLeftBottom inp) (justLeftLeft inp)
    (justLeftRight inp) (justButton7 inp) (pressedButton4 inp)
    (pressedButton5 inp).

(** ... with the Y button (RightTop) just pressed *)
Definition pressY (inp : Input) : Input :=
  mkInput (LeftStickHorizontal inp) (LeftStickVertical inp) (now inp)
    (justRightBottom inp) (justRightRight inp) (justRightLeft inp) true
    (justLeftTop inp) (justLeftBottom inp) (justLeftLeft inp)
    (justLeftRight inp) (justButton7 inp) (pressedButton4 inp)
    (pressedButton5 inp).

(** ... with L1 (button 4) and R1 (button 5) held *)
Definition holdL1R1 (inp : Input) : Input :=
  mkInput (LeftStickHorizontal inp) (LeftStickVertical inp) (now inp)
    (justRightBottom inp) (justRightRight inp) (justRightLeft inp)
    (justRightTop inp) (justLeftTop inp) (justLeftBottom inp)
    (justLeftLeft inp) (justLeftRight inp) (justButton7 inp) true true.

(** a game that has learned one line and counted three words *)
Definition practised : Game :=
  set_wordFrequency (<["hello" := 2]> (<["help" := 1]> (<["world" := 5]> ∅)))
    (set_markovChain (Some (gomarkov.Add ∅ ["good"; "morning"])) newGame).

(** a [Cos] and a [Sin] for the examples: every angle is taken for the
    angle 0 *)
Definition cosOfZero (_ : float) : float := 1%float.
Definition sinOfZero (_ : float) : float := 0%float.

(** bounds for the examples: 7 by 13 for each byte, as a fixed-width face
    of that size gives *)
Definition boundDx7 (s : string) : Z := 7 * strlen s.
Definition boundDy13 (_ : string) : Z := 13.

(** a gamepad's report to the window: the right stick at [(x, y)], button 9
    as said, a monitor of 1920 by 1080 *)
Definition windowReport (x y : float) (button9 : bool) : WindowInput :=
  mkWindowInput x y button9 (1920, 1080).

Section Program.

(** [math.Atan2] *)
Variable Atan2 : float -> float -> float.

(** [chain.Generate(ngram)]: the token drawn, or [None] for its error. *)
Variable Generate : gomarkov.Chain -> list string -> option string.

(** the order in which a [range] visits the frequency map *)
Variable rangeMap : gmap string Z -> list (string * Z).

(** [json.Unmarshal] into a slice of sentences: the new value of the slice
    and whether it reported an error. *)
Variable jsonUnmarshal :
  string -> list (list string) -> list (list string) * bool.

(** [loadTrainingData] *)
Definition loadTrainingData (env : Env) (g : Game) : Game * option error :=
  if negb (homeDirOk env) then (g, Some ErrHomeDir)
  else
    match trainingDataFile env with
    | NotExist => (set_trainingData [] g, None)
    | ReadFailed => (g, Some ErrRead)
    | Contents data =>
        let '(v, failed) := jsonUnmarshal data (trainingData g) in
        (set_trainingData v g, if failed then Some ErrUnmarshal else None)
    end.

(** the search for a completion in [updatePrediction] *)
Definition autocomplete (g : Game) (currentWord : string) : string :=
  let lowerCurrent := strings.ToLower currentWord in
  fst
    (fold_left
       (fun '(bestMatch, maxFrequency) '(word, freq) =>
          if strings.HasPrefix word lowerCurrent && negb (streq word lowerCurrent)
          then
            if maxFrequency <? freq then (word, freq)
            else (bestMatch, maxFrequency)
          else (bestMatch, maxFrequency))
       (rangeMap (wordFrequency g)) ("", 0)).

(** the fallback when the chain does not know the context word *)
Definition fallbackPrediction (contextWord : string) : option string :=
  if strlen contextWord <=? 3 then
    let commonFollowUps :=
      ["the"; "a"; "is"; "are"; "and"; "to"; "in"; "it"; "that"; "of"] in
    if 0 <? len commonFollowUps then index commonFollowUps 0 else Some ""
  else Some "the".

(** [updatePrediction] *)
Definition updatePrediction (g : Game) : option Game :=
  match markovChain g with
  | None => Some (set_nextPrediction "" g)
  | Some chain =>
      let cs := currentSentence g in
      if len cs =? 0 then
        match Generate chain [""] with
        | Some next =>
            if negb (streq next "") then Some (set_nextPrediction next g)
            else Some (set_nextPrediction "" g)
        | None => Some (set_nextPrediction "" g)
        end
      else
        currentWord ← index cs (len cs - 1);
        '(contextWord, isPartialWord) ←
          (if streq currentWord "" && (1 <? len cs) then
             w ← index cs (len cs - 2); Some (w, false)
           else if negb (streq currentWord "") then
             if 1 <? len cs then w ← index cs (len cs - 2); Some (w, true)
             else Some (currentWord, true)
           else Some ("", false));
        if negb (streq contextWord "") || isPartialWord then
          if negb isPartialWord || (1 <? len cs) then
            match Generate chain [contextWord] with
            | Some next =>
                if negb (streq next "") then Some (set_nextPrediction next g)
                else p ← fallbackPrediction contextWord;
                     Some (set_nextPrediction p g)
            | None =>
                p ← fallbackPrediction contextWord;
                Some (set_nextPrediction p g)
            end
          else if isPartialWord && negb (streq currentWord "") then
            let bestMatch := autocomplete g currentWord in
            if negb (streq bestMatch "") then
              Some (set_nextPrediction bestMatch g)
            else Some (set_nextPrediction "" g)
          else Some g
        else Some (set_nextPrediction "" g)
  end.

(** The initialisation of the chain in [Update], run while
    [g.markovChain == nil]. *)
Definition initMarkov (env : Env) (g : Game) : option Game :=
  match markovChain g with
  | Some _ => Some g
  | None =>
      let g := set_wordFrequency ∅ (set_markovChain (Some ∅) g) in
      let g := fst (loadTrainingData env g) in
      let g :=
        if len (trainingData g) =? 0 then set_trainingData seedSentences g
        else g in
      g ← forEach trainSentence (trainingData g) g;
      '(g, _) ← loadRawTextAndTrain env g;
      updatePrediction g
  end.

(** [a % b] on [int]: the remainder has the sign of [a]; a zero divisor
    panics. *)
Definition goRem (a b : Z) : option Z :=
  if b =? 0 then None else Some (Z.rem a b).

(** The left stick: ring and index from the stick's position, or nothing
    inside the dead zone. *)
Definition updateSelection (x y magnitude : float) (g : Game) : option Game :=
  if (0.1 <? magnitude)%float then
    let g :=
      if (magnitude <? 0.9)%float then set_selectedRing 0 g
      else set_selectedRing 1 g in
    let angle := Atan2 x (- y)%float in
    let angle := if (angle <? 0)%float then (angle + 2 * Pi)%float else angle in
    let g := set_joystickAngle angle g in
    currentRing ← rings (currentSet g) (selectedRing g);
    let segmentAngle := (2 * Pi / float64_of_int (len currentRing))%float in
    i ← goRem (int_of_float64 (angle / segmentAngle)%float) (len currentRing);
    Some (set_selectedIndex i g)
  else Some g.

(** A glyph of the ring that is neither [⌫] nor [↵]. *)
Definition typeGlyph (selectedChar : string) (g : Game)
  : option (Game * list Effect) :=
  let outputChar :=
    if (strlen selectedChar =? 1) && String.leb "A" selectedChar
       && String.leb selectedChar "Z"
    then if uppercase g then selectedChar else strings.ToLower selectedChar
    else selectedChar in
  cs ← appendChar (currentSentence g) outputChar;
  g ← updatePrediction (set_currentSentence cs g);
  Some (g, [TypeStr outputChar; WriteRawText outputChar]).

(** The confirm button (RightBottom): debounce, dead zone, then the token
    under the stick. *)
Definition handleConfirm (inp : Input) (magnitude : float) (g : Game)
  : option (Game * list Effect) :=
  if justRightBottom inp then
    if 200 * Millisecond <? Sub (now inp) (lastButtonTime g) then
      if (0.1 <? magnitude)%float then
        currentRing ← rings (currentSet g) (selectedRing g);
        if selectedIndex g <? len currentRing then
          selectedChar ← index currentRing (selectedIndex g);
          '(g, out) ←
            (if streq selectedChar "⌫" then
               cs ← backspaceWord (currentSentence g);
               g ← updatePrediction (set_currentSentence cs g);
               Some (g, [KeyTap "backspace"])
             else if streq selectedChar "↵" then enterSentence g
             else typeGlyph selectedChar g);
          Some (set_lastButtonTime (now inp) g, out)
        else Some (g, [])
      else Some (g, [])
    else Some (g, [])
  else Some (g, []).

(** The B button (RightRight): delete one character. *)
Definition handleBackspace (inp : Input) (g : Game)
  : option (Game * list Effect) :=
  if justRightRight inp then
    cs ← backspaceWord (currentSentence g);
    g ← updatePrediction (set_currentSentence cs g);
    Some (g, [KeyTap "backspace"])
  else Some (g, []).

(** The X button (RightLeft): a space. *)
Definition handleSpace (inp : Input) (g : Game)
  : option (Game * list Effect) :=
  if justRightLeft inp then
    cs ← wordBreak (currentSentence g);
    g ← updatePrediction (set_currentSentence cs g);
    Some (g, [TypeStr " "; WriteRawText " "])
  else Some (g, []).

(** The Y button (RightTop): a new line. *)
Definition handleEnter (inp : Input) (g : Game)
  : option (Game * list Effect) :=
  if justRightTop inp then enterSentence g else Some (g, []).

(** The D-pad: arrow keys. *)
Definition handleArrows (inp : Input) (g : Game)
  : option (Game * list Effect) :=
  Some (g,
        ((if justLeftTop inp then [KeyTap "up"] else [])
         ++ (if justLeftBottom inp then [KeyTap "down"] else [])
         ++ (if justLeftLeft inp then [KeyTap "left"] else [])
         ++ (if justLeftRight inp then [KeyTap "right"] else []))%list).

(** L1 (button 4) and R1 (button 5), while held. *)
Definition handleModifiers (inp : Input) (g : Game)
  : option (Game * list Effect) :=
  let g := if pressedButton4 inp then set_currentSet 1 g else set_currentSet 0 g in
  let g := if pressedButton5 inp then set_uppercase true g else set_uppercase false g in
  Some (g, []).

(** R2 (button 7): accept the predicted word.  [toLower] is
    [strings.ToLower]; it is a parameter here because the slice of line 694
    counts the bytes of the word in progress against the prediction, after
    a prefix test on the lowered strings, and so depends on whether
    lowering keeps the byte length. *)
Definition acceptPredictionWith (toLower : string -> string) (inp : Input)
    (g : Game) : option (Game * list Effect) :=
  if justButton7 inp then
    if negb (streq (nextPrediction g) "") then
      let cs := currentSentence g in
      '(taps, toType) ←
        (if 0 <? len cs then
           w ← index cs (len cs - 1);
           if negb (streq w "") then
             let currentWord := w in
             if strings.HasPrefix (toLower (nextPrediction g))
                  (toLower currentWord)
             then
               rest ← strSliceFrom (nextPrediction g) (strlen currentWord);
               Some ([], (rest ++ " ")%string)
             else
               Some (repeat (KeyTap "backspace") (Z.to_nat (strlen currentWord)),
                     (nextPrediction g ++ " ")%string)
           else Some ([], (nextPrediction g ++ " ")%string)
         else Some ([], (nextPrediction g ++ " ")%string));
      cs ←
        (if len cs =? 0 then Some [nextPrediction g; ""]
         else
           w ← index cs (len cs - 1);
           if streq w "" then
             cs ← setIndex cs (len cs - 1) (nextPrediction g);
             Some (cs ++ [""])%list
           else
             cs ← setIndex cs (len cs - 1) (nextPrediction g);
             Some (cs ++ [""])%list);
      g ← updatePrediction (set_currentSentence cs g);
      Some (g, (taps ++ [TypeStr toType; WriteRawText toType])%list)
    else Some (g, [])
  else Some (g, []).

(** ... with [strings.ToLower] as this file has it. *)
Definition acceptPrediction (inp : Input) (g : Game)
  : option (Game * list Effect) :=
  acceptPredictionWith strings.ToLower inp g.

(** The body of [Update]'s loop for one gamepad with the standard layout. *)
Definition updateGamepad (inp : Input) (g : Game)
  : option (Game * list Effect) :=
  let x := LeftStickHorizontal inp in
  let y := LeftStickVertical inp in
  let magnitude := PrimFloat.sqrt (x * x + y * y)%float in
  g ← updateSelection x y magnitude g;
  andThen (andThen (andThen (andThen (andThen (andThen
    (handleConfirm inp magnitude g)
    (handleBackspace inp))
    (handleSpace inp))
    (handleEnter inp))
    (handleArrows inp))
    (handleModifiers inp))
    (acceptPrediction inp).

(** [Update]: the chain is initialised on the first call, then every
    gamepad is served in turn. *)
Definition Update (env : Env) (pads : list Input) (g : Game)
  : option (Game * list Effect) :=
  g ← initMarkov env g;
  forEach
    (fun '(g, out) inp =>
       '(g, e) ← updateGamepad inp g; Some (g, (out ++ e)%list))
    pads (g, []).



(** ** The vocabulary of the properties *)

(** [s] without its last byte *)
Definition dropLastByte (s : string) : string :=
  stake (String.length s - 1) s.

(** The buffer a backspace leaves behind when the buffer was [cs ++ [w]]:
    an empty [w] stays; otherwise [w] loses its last byte and, when that
    empties it, is dropped. *)
Definition afterBackspace (cs : list string) (w : string) : list string :=
  if streq w "" then cs ++ [""]
  else if streq (dropLastByte w) "" then cs
  else cs ++ [dropLastByte w].

(** the conditions under which the confirm button reaches the token [tok]
    of the ring under the stick *)
Definition confirmReaches (inp : Input) (magnitude : float) (g : Game)
    (tok : string) : Prop :=
  justRightBottom inp = true
  /\ 200 * Millisecond < Sub (now inp) (lastButtonTime g)
  /\ (0.1 <? magnitude)%float = true
  /\ exists ring, rings (currentSet g) (selectedRing g) = Some ring
                  /\ index ring (selectedIndex g) = Some tok.

(** the word being typed: the last word of the buffer, if any *)
Definition inProgress (cs : list string) : string := default "" (last cs).

(** [g'] has the selection, the debounce clock and a chain wherever [g]
    had them. *)
Definition keepsSelection (g g' : Game) : Prop :=
  selectedIndex g' = selectedIndex g
  /\ selectedRing g' = selectedRing g
  /\ lastButtonTime g' = lastButtonTime g
  /\ (is_Some (markovChain g) -> is_Some (markovChain g')).

(** the stick's magnitude as [Update] computes it *)
Definition stickMagnitude (inp : Input) : float :=
  let x := LeftStickHorizontal inp in
  let y := LeftStickVertical inp in
  PrimFloat.sqrt (x * x + y * y)%float.

(** Successive calls of [Update], one per frame, each with the files as
    they are then and the gamepads' reports. *)
Fixpoint runFrames (frames : list (Env * list Input)) (g : Game)
  : option (Game * list Effect) :=
  match frames with
  | [] => Some (g, [])
  | (env, pads) :: rest =>
      '(g, out) ← Update env pads g;
      '(g', out') ← runFrames rest g;
      Some (g', out ++ out')
  end.

(** the stick rests within the dead zone *)
Definition inDeadZone (inp : Input) : Prop :=
  (stickMagnitude inp <=? 0.1)%float = true.

Definition isKeystroke (e : Effect) : bool :=
  match e with
  | KeyTap _ | TypeStr _ => true
  | _ => false
  end.

(** the keystrokes a trace injects into the operating system *)
Definition keystrokes (out : list Effect) : nat :=
  length (List.filter isKeystroke out).

Definition nonEmpty (w : string) : bool := negb (streq w "").

(** how often the frequency model has seen [w] *)
Definition frequency (m : gmap string Z) (w : string) : Z :=
  default 0 (m !! w).

(** how often the chain has seen [next] follow [current] *)
Definition transitions (c : gomarkov.Chain) (current next : string) : Z :=
  default 0 (default ∅ (c !! current) !! next).

(** one more occurrence of [w] *)
Definition bump (m : gmap string Z) (w : string) : gmap string Z :=
  <[w := frequency m w + 1]> m.

(** The words one piece of the raw text contributes: none unless the piece
    has at least two whitespace-separated tokens; otherwise its tokens,
    trimmed, the empty ones dropped, lower-cased. *)
Definition sentenceWords (sentence : string) : list string :=
  let words := strings.Fields sentence in
  if 1 <? len words
  then map strings.ToLower (List.filter nonEmpty (map cleanWord words))
  else [].

(** the raw text cut at [.], [!], [?] and newline, each piece read as above *)
Definition rawSentences (text : string) : list (list string) :=
  map sentenceWords (strings.FieldsFunc text isSentenceEnd).

(** A word sequence enters the chain when it has at least two words ... *)
Definition learnChain (c : gomarkov.Chain) (ws : list string)
  : gomarkov.Chain :=
  if 1 <? len ws then gomarkov.Add c ws else c.

(** ... and each of its words is counted. *)
Definition learnFrequency (m : gmap string Z) (ws : list string)
  : gmap string Z :=
  fold_left bump ws m.









(** [a] is directly followed by [b] in [tokens] *)
Definition adjacent (a b : string) (tokens : list string) : Prop :=
  exists l1 l2, tokens = l1 ++ a :: b :: l2.

(** [w] is its own lower-case form *)
Definition caseFolded (w : string) : Prop := strings.ToLower w = w.


(** the angle brought into a full turn: 2π is added when it is negative *)
Definition normalizeAngle (a : float) : float :=
  if (a <? 0)%float then (a + 2 * Pi)%float else a.

(** the greatest integer not above a finite [float64]; none for an infinity
    or a NaN *)
Definition floor_float64 (f : float) : option Z :=
  match Prim2SF f with
  | S754_zero _ => Some 0
  | S754_finite s m e =>
      let n := if s then Z.neg m else Z.pos m in
      Some (if 0 <=? e then n * 2 ^ e else n / 2 ^ (- e))
  | _ => None
  end.

(** the real number a finite float64 stands for *)
Definition float64_real (f : float) : option R :=
  match Prim2SF f with
  | S754_zero _ => Some 0%R
  | S754_finite s m e => Some (IZR (cond_Zopp s (Z.pos m)) * powerRZ 2 e)%R
  | _ => None
  end.

(** a float that is zero, or positive and below [2 ^ B] *)
Definition smallNonneg (B : Z) (f : spec_float) : Prop :=
  match f with
  | S754_zero _ => True
  | S754_finite false m e => Z.pos (digits2_pos m) + e <= B
  | _ => False
  end.

(** ** The vocabulary of the further properties *)

(** [word] can complete [lowerCurrent]: it starts with it and is not it
    (the test of the search in [updatePrediction]) *)
Definition completes (lowerCurrent word : string) : bool :=
  strings.HasPrefix word lowerCurrent && negb (streq word lowerCurrent).

(** the [range] over the frequency map visits the entries of the map *)
Definition listsEntries : Prop :=
  forall (m : gmap string Z) k f, (k, f) ∈ rangeMap m <-> m !! k = Some f.

(** what the prediction falls back on when [Generate] has no word *)
Definition generatedOrThe (c : gomarkov.Chain) (contextWord : string) : string :=
  match Generate c [contextWord] with
  | Some next => if streq next "" then "the" else next
  | None => "the"
  end.

(** only the last word of the buffer may be empty *)
Definition wellFormed (cs : list string) : Prop :=
  Forall (fun w => w <> "") (removelast cs).

(** the set in force is one of the two *)
Definition validSet (g : Game) : Prop := currentSet g = 0 \/ currentSet g = 1.

(** the selection points at a token of a ring of the set in force *)
Definition validSelection (g : Game) : Prop :=
  exists ring tok,
    rings (currentSet g) (selectedRing g) = Some ring
    /\ index ring (selectedIndex g) = Some tok.

(** [math.Atan2] answers within [-π, π] wherever the stick is outside the
    dead zone (the only place [Update] calls it) *)
Definition atan2InRange : Prop :=
  forall x y : float,
    (0.1 <? PrimFloat.sqrt (x * x + y * y))%float = true ->
    (- Pi <=? Atan2 x (- y))%float = true
    /\ (Atan2 x (- y) <=? Pi)%float = true.

(** the text an effect puts on the screen: what [TypeStr] types, and a new
    line for the enter key *)
Definition typedBy (e : Effect) : string :=
  match e with
  | TypeStr s => s
  | KeyTap key => if streq key "enter" then newline else ""
  | _ => ""
  end.

(** the text an effect hands to [appendToRawText] *)
Definition loggedBy (e : Effect) : string :=
  match e with
  | WriteRawText text => text
  | _ => ""
  end.

Definition typedText (out : list Effect) : string :=
  fold_right (fun e acc => (typedBy e ++ acc)%string) "" out.

Definition loggedText (out : list Effect) : string :=
  fold_right (fun e acc => (loggedBy e ++ acc)%string) "" out.

(** every key of the frequency map is lower-cased and counted at least
    once *)
Definition goodFrequency (m : gmap string Z) : Prop :=
  forall k f, m !! k = Some f -> caseFolded k /\ 1 <= f.

(** what Enter learns from a buffer of two words or more: the chain gets
    the words as they are, the training data the sentence, and the
    frequency map the lower-cased non-empty words *)
Definition learnSentence (c : gomarkov.Chain) (g : Game) : Game :=
  let cs := currentSentence g in
  set_wordFrequency
    (learnFrequency (wordFrequency g)
       (map strings.ToLower (List.filter nonEmpty cs)))
    (set_trainingData (trainingData g ++ [cs])
       (set_markovChain (Some (gomarkov.Add c cs)) g)).

(** what holds of the state before a handler holds after it, and what it
    emits is of the kind [Q] *)
Definition keeps (P : Game -> Prop) (Q : list Effect -> Prop)
    (h : Game -> option (Game * list Effect)) : Prop :=
  forall g g' e, P g -> h g = Some (g', e) -> P g' /\ Q e.

(** [g'] has the set in force and the selection of [g], and a chain if [g]
    had one *)
Definition sameSelection (g g' : Game) : Prop :=
  currentSet g' = currentSet g
  /\ selectedRing g' = selectedRing g
  /\ selectedIndex g' = selectedIndex g
  /\ (is_Some (markovChain g) -> is_Some (markovChain g')).

(** the right stick rests within the dead zone of the window *)
Definition restingWindow (inp : WindowInput) : Prop :=
  (0.1 <? PrimFloat.abs (RightStickHorizontal inp))%float = false
  /\ (0.1 <? PrimFloat.abs (RightStickVertical inp))%float = false.

(** the strings a list of drawing operations writes, in order *)
Definition textsOf (ops : list DrawOp) : list string :=
  flat_map (fun op => match op with DrawText s _ _ _ => [s] | _ => [] end) ops.

Definition rgbaEqb (c d : RGBA) : bool :=
  (chanR c =? chanR d) && (chanG c =? chanG d) && (chanB c =? chanB d)
  && (chanA c =? chanA d).

(** the colour of the selected token *)
Definition cyan : RGBA := mkRGBA 0 255 255 255.

(** the strings written in the colour of the selected token *)
Definition highlighted (ops : list DrawOp) : list string :=
  flat_map
    (fun op =>
       match op with
       | DrawText s _ _ c => if rgbaEqb c cyan then [s] else []
       | _ => []
       end) ops.

(** the selection indicators drawn: the circles of radius 20 *)
Definition indicators (ops : list DrawOp) : nat :=
  length
    (List.filter
       (fun op =>
          match op with
          | DrawCircle _ _ r _ => (r =? 20)%float
          | _ => false
          end) ops).

(** R2 (button 7) is not just pressed *)
Definition restingR2 (inp : Input) : Prop := justButton7 inp = false.

(** no button the keyboard listens to was just pressed *)
Definition noButton (inp : Input) : Prop :=
  justRightBottom inp = false /\ justRightRight inp = false
  /\ justRightLeft inp = false /\ justRightTop inp = false
  /\ justLeftTop inp = false /\ justLeftBottom inp = false
  /\ justLeftLeft inp = false /\ justLeftRight inp = false
  /\ justButton7 inp = false.

(** [g'] has the text, the prediction, the models and the debounce clock
    of [g] *)
Definition sameText (g g' : Game) : Prop :=
  currentSentence g' = currentSentence g
  /\ nextPrediction g' = nextPrediction g
  /\ markovChain g' = markovChain g
  /\ wordFrequency g' = wordFrequency g
  /\ trainingData g' = trainingData g
  /\ lastButtonTime g' = lastButtonTime g.

(** [g'] knows all that [g] knew: the training data of [g] starts that of
    [g'], and no count of the chain or of the frequency map is lower *)
Definition learnedMore (g g' : Game) : Prop :=
  (exists more, trainingData g' = trainingData g ++ more)
  /\ (forall c, markovChain g = Some c ->
        exists c', markovChain g' = Some c'
                   /\ forall a b, transitions c a b <= transitions c' a b)
  /\ (forall v, frequency (wordFrequency g) v <= frequency (wordFrequency g') v).

(** every byte of [s] is below 0x80: on such text [strings.ToLower],
    [strings.Fields] and [strings.TrimSpace] of this file are Go's *)
Fixpoint isASCII (s : string) : bool :=
  match s with
  | "" => true
  | String c s' => (nat_of_ascii c <? 128)%nat && isASCII s'
  end.

(** The slice [g.nextPrediction[len(currentWord):]] of line 694 is out of
    range: a word is in progress, its lowered form starts the lowered
    prediction, and it has more bytes than the prediction. *)
Definition sliceFails (toLower : string -> string) (g : Game) : bool :=
  let pred := nextPrediction g in
  let cur := inProgress (currentSentence g) in
  nonEmpty cur && strings.HasPrefix (toLower pred) (toLower cur)
  && (strlen pred <? strlen cur).

(** What accepting the prediction sends out: the rest of the prediction
    when the word in progress starts it, else one backspace for each byte
    of that word and the whole prediction; a space after either. *)
Definition acceptTrace (toLower : string -> string) (g : Game)
  : list Effect :=
  let pred := nextPrediction g in
  let cur := inProgress (currentSentence g) in
  if nonEmpty cur && strings.HasPrefix (toLower pred) (toLower cur)
  then [TypeStr (sdrop (String.length cur) pred ++ " ");
        WriteRawText (sdrop (String.length cur) pred ++ " ")]
  else repeat (KeyTap "backspace") (String.length cur)
       ++ [TypeStr (pred ++ " "); WriteRawText (pred ++ " ")].

(** * Properties *)

Set Default Proof Using "Type".


(** ** Slices and strings *)

Lemma len_nonneg {A} (l : list A) : 0 <= len l.
Proof. unfold len. lia. Qed.

Lemma len_app {A} (l k : list A) : len (l ++ k) = len l + len k.
Proof. unfold len. rewrite length_app. lia. Qed.

Lemma len_snoc {A} (l : list A) (x : A) : len (l ++ [x]) = len l + 1.
Proof. rewrite len_app. reflexivity. Qed.

Lemma len_nil_inv {A} (l : list A) : len l = 0 -> l = [].
Proof. destruct l; [reflexivity | unfold len; simpl; lia]. Qed.

Lemma index_last {A} (l : list A) (x : A) :
  index (l ++ [x]) (len (l ++ [x]) - 1) = Some x.
Proof.
  unfold index. rewrite len_snoc.
  replace (len l + 1 - 1) with (len l) by lia.
  pose proof (len_nonneg l).
  replace (0 <=? len l) with true by (symmetry; apply Z.leb_le; lia).
  replace (len l <? len l + 1) with true by (symmetry; apply Z.ltb_lt; lia).
  simpl. unfold len. rewrite Nat2Z.id.
  rewrite lookup_app_r by lia. rewrite Nat.sub_diag. reflexivity.
Qed.

Lemma index_before_last {A} (l : list A) (x y : A) :
  index (l ++ [x; y]) (len (l ++ [x; y]) - 2) = Some x.
Proof.
  unfold index. rewrite len_app.
  replace (len l + len [x; y] - 2) with (len l) by (unfold len; simpl; lia).
  pose proof (len_nonneg l).
  replace (0 <=? len l) with true by (symmetry; apply Z.leb_le; lia).
  replace (len l <? len l + len [x; y]) with true
    by (symmetry; apply Z.ltb_lt; unfold len; simpl; lia).
  simpl. unfold len. rewrite Nat2Z.id.
  rewrite lookup_app_r by lia. rewrite Nat.sub_diag. reflexivity.
Qed.

Lemma setIndex_last {A} (l : list A) (x v : A) :
  setIndex (l ++ [x]) (len (l ++ [x]) - 1) v = Some (l ++ [v]).
Proof.
  unfold setIndex. rewrite len_snoc.
  replace (len l + 1 - 1) with (len l) by lia.
  pose proof (len_nonneg l).
  replace (0 <=? len l) with true by (symmetry; apply Z.leb_le; lia).
  replace (len l <? len l + 1) with true by (symmetry; apply Z.ltb_lt; lia).
  simpl. unfold len. rewrite Nat2Z.id.
  rewrite insert_app_r_alt by lia. rewrite Nat.sub_diag. reflexivity.
Qed.

Lemma sliceTo_last {A} (l : list A) (x : A) :
  sliceTo (l ++ [x]) (len (l ++ [x]) - 1) = Some l.
Proof.
  unfold sliceTo. rewrite len_snoc.
  replace (len l + 1 - 1) with (len l) by lia.
  pose proof (len_nonneg l).
  replace (0 <=? len l) with true by (symmetry; apply Z.leb_le; lia).
  replace (len l <=? len l + 1) with true by (symmetry; apply Z.leb_le; lia).
  simpl. unfold len. rewrite Nat2Z.id.
  rewrite take_app_length. reflexivity.
Qed.

Lemma snoc_cases {A} (l : list A) : l = [] \/ exists l' x, l = l' ++ [x].
Proof.
  induction l as [|x l' _] using rev_ind; [left | right]; eauto.
Qed.

Lemma len_pos_snoc {A} (l : list A) (x : A) : (0 <? len (l ++ [x])) = true.
Proof. apply Z.ltb_lt. rewrite len_snoc. pose proof (len_nonneg l). lia. Qed.

Lemma strlen_nonneg (s : string) : 0 <= strlen s.
Proof. unfold strlen. lia. Qed.

Lemma append_cons (c : ascii) (s t : string) :
  (String c s ++ t)%string = String c (s ++ t)%string.
Proof. reflexivity. Qed.

Lemma append_nil_l (t : string) : ("" ++ t)%string = t.
Proof. reflexivity. Qed.

Lemma strlen_cons (c : ascii) (s : string) : strlen (String c s) = strlen s + 1.
Proof. unfold strlen. cbn [String.length]. lia. Qed.

Lemma strlen_app (s t : string) : strlen (s ++ t) = strlen s + strlen t.
Proof.
  induction s as [|c s IH]; [reflexivity|].
  rewrite append_cons, !strlen_cons, IH. lia.
Qed.

Lemma strlen_zero_inv (s : string) : strlen s = 0 -> s = "".
Proof.
  destruct s; [reflexivity | rewrite strlen_cons].
  pose proof (strlen_nonneg s). lia.
Qed.

Lemma streq_true (s t : string) : streq s t = true <-> s = t.
Proof. apply String.eqb_eq. Qed.

Lemma streq_false (s t : string) : streq s t = false <-> s <> t.
Proof. apply String.eqb_neq. Qed.

Lemma streq_refl (s : string) : streq s s = true.
Proof. apply String.eqb_refl. Qed.

Lemma stake_app (s t : string) : stake (String.length s) (s ++ t) = s.
Proof.
  induction s as [|c s IH]; [destruct t; reflexivity|].
  rewrite append_cons. cbn [String.length stake]. now rewrite IH.
Qed.

Lemma sdrop_app (s t : string) : sdrop (String.length s) (s ++ t) = t.
Proof.
  induction s as [|c s IH]; [destruct t; reflexivity|].
  rewrite append_cons. cbn [String.length sdrop]. exact IH.
Qed.

(** every non-empty string ends with a byte *)
Lemma string_snoc_cases (s : string) :
  s = "" \/ exists s' c, s = (s' ++ String c "")%string.
Proof.
  induction s as [|c s IH]; [now left | right].
  destruct IH as [-> | (s' & d & ->)].
  - exists "", c. reflexivity.
  - exists (String c s'), d. reflexivity.
Qed.

Lemma strSliceTo_last (s : string) (c : ascii) :
  strSliceTo (s ++ String c "") (strlen (s ++ String c "") - 1) = Some s.
Proof.
  unfold strSliceTo. rewrite strlen_app, strlen_cons.
  replace (strlen s + (strlen "" + 1) - 1) with (strlen s)
    by (unfold strlen; simpl; lia).
  pose proof (strlen_nonneg s).
  replace (0 <=? strlen s) with true by (symmetry; apply Z.leb_le; lia).
  replace (strlen s <=? strlen s + (strlen "" + 1)) with true
    by (symmetry; apply Z.leb_le; unfold strlen; simpl; lia).
  simpl. unfold strlen. rewrite Nat2Z.id. now rewrite stake_app.
Qed.

Lemma strlen_snoc_pos (s : string) (c : ascii) :
  (0 <? strlen (s ++ String c "")) = true.
Proof.
  apply Z.ltb_lt. rewrite strlen_app, strlen_cons.
  pose proof (strlen_nonneg s). pose proof (strlen_nonneg ""). lia.
Qed.

(** ** The sentence buffer under backspace *)

Lemma backspaceWord_nil : backspaceWord [] = Some [].
Proof. reflexivity. Qed.

Lemma backspaceWord_empty_last (cs : list string) :
  backspaceWord (cs ++ [""]) = Some (cs ++ [""]).
Proof.
  unfold backspaceWord. rewrite len_pos_snoc, index_last. reflexivity.
Qed.

Lemma backspaceWord_char (cs : list string) (w : string) (c : ascii) :
  backspaceWord (cs ++ [(w ++ String c "")%string])
  = Some (if streq w "" then cs else cs ++ [w]).
Proof.
  unfold backspaceWord. rewrite len_pos_snoc, index_last. simpl.
  rewrite strlen_snoc_pos, strSliceTo_last. simpl.
  rewrite setIndex_last. simpl. rewrite index_last. simpl.
  destruct (streq w "") eqn:E; [apply sliceTo_last | reflexivity].
Qed.

Lemma backspaceWord_total (cs : list string) :
  exists cs', backspaceWord cs = Some cs'.
Proof.
  destruct (snoc_cases cs) as [-> | (l & w & ->)]; [eexists; reflexivity|].
  destruct (string_snoc_cases w) as [-> | (w' & c & ->)].
  - eexists. apply backspaceWord_empty_last.
  - eexists. apply backspaceWord_char.
Qed.

(** ** The prediction never panics and writes [nextPrediction] only *)

Lemma set_nextPrediction_same (g : Game) :
  set_nextPrediction (nextPrediction g) g = g.
Proof. destruct g; reflexivity. Qed.

Lemma fallbackPrediction_total (w : string) :
  exists p, fallbackPrediction w = Some p.
Proof.
  unfold fallbackPrediction. destruct (strlen w <=? 3); eexists; reflexivity.
Qed.

Lemma index_last_of_len {A} (l : list A) :
  len l <> 0 -> exists l' x, l = l' ++ [x] /\ index l (len l - 1) = Some x.
Proof.
  intros Hn. destruct (snoc_cases l) as [-> | (l' & x & ->)]; [easy|].
  exists l', x. split; [reflexivity | apply index_last].
Qed.

Lemma index_before_last_of_len {A} (l : list A) :
  1 < len l -> exists x, index l (len l - 2) = Some x.
Proof.
  intros Hn. destruct (snoc_cases l) as [-> | (l' & y & ->)].
  - unfold len in Hn; simpl in Hn; lia.
  - destruct (snoc_cases l') as [-> | (l'' & x & ->)].
    + unfold len in Hn; simpl in Hn; lia.
    + exists x. rewrite <- app_assoc. apply index_before_last.
Qed.

Lemma updatePrediction_total (g : Game) :
  exists p, updatePrediction g = Some (set_nextPrediction p g).
Proof.
  unfold updatePrediction.
  destruct (markovChain g) as [chain|]; [|eexists; reflexivity].
  destruct (len (currentSentence g) =? 0) eqn:E0.
  { destruct (Generate chain [""]) as [next|]; [|eexists; reflexivity].
    destruct (negb (streq next "")); eexists; reflexivity. }
  apply Z.eqb_neq in E0.
  destruct (index_last_of_len _ E0) as (l & w & Hcs & Hw).
  rewrite Hw. cbn [mbind option_bind].
  destruct (1 <? len (currentSentence g)) eqn:E1.
  - apply Z.ltb_lt in E1.
    destruct (index_before_last_of_len _ E1) as (x & Hx). rewrite Hx.
    destruct (fallbackPrediction_total x) as (p & Hp).
    destruct (streq w ""); cbn; rewrite ?Hp;
      repeat match goal with
             | |- context [match ?e with _ => _ end] => destruct e; cbn; rewrite ?Hp
             end;
      try (eexists; reflexivity);
      try (exists (nextPrediction g); now rewrite set_nextPrediction_same).
  - destruct (fallbackPrediction_total w) as (p & Hp).
    destruct (streq w ""); cbn; rewrite ?Hp;
      repeat match goal with
             | |- context [match ?e with _ => _ end] => destruct e; cbn; rewrite ?Hp
             end;
      try (eexists; reflexivity);
      try (exists (nextPrediction g); now rewrite set_nextPrediction_same).
Qed.

(** what a step may change besides the prediction *)
Lemma updatePrediction_frame (g g' : Game) :
  updatePrediction g = Some g' ->
  currentSentence g' = currentSentence g
  /\ selectedRing g' = selectedRing g
  /\ selectedIndex g' = selectedIndex g
  /\ currentSet g' = currentSet g
  /\ lastButtonTime g' = lastButtonTime g
  /\ markovChain g' = markovChain g
  /\ wordFrequency g' = wordFrequency g
  /\ trainingData g' = trainingData g
  /\ uppercase g' = uppercase g
  /\ joystickAngle g' = joystickAngle g.
Proof.
  intros H. destruct (updatePrediction_total g) as (p & Hp).
  rewrite Hp in H. injection H as <-. repeat split.
Qed.

(** ** Backspace at the two places it can be pressed *)

Lemma dropLastByte_snoc (w : string) (c : ascii) :
  dropLastByte (w ++ String c "") = w.
Proof.
  unfold dropLastByte.
  replace (String.length (w ++ String c "") - 1)%nat with (String.length w).
  - apply stake_app.
  - pose proof (strlen_app w (String c "")) as H. unfold strlen in H.
    cbn [String.length] in H. lia.
Qed.

Lemma backspaceWord_snoc (cs : list string) (w : string) :
  backspaceWord (cs ++ [w]) = Some (afterBackspace cs w).
Proof.
  unfold afterBackspace.
  destruct (string_snoc_cases w) as [-> | (w' & c & ->)].
  - apply backspaceWord_empty_last.
  - rewrite backspaceWord_char, dropLastByte_snoc.
    replace (streq (w' ++ String c "") "") with false; [reflexivity|].
    symmetry. apply streq_false. destruct w'; discriminate.
Qed.

Lemma handleBackspace_tracks (inp : Input) (g : Game) (cs' : list string) :
  justRightRight inp = true ->
  backspaceWord (currentSentence g) = Some cs' ->
  exists p, handleBackspace inp g
            = Some (set_nextPrediction p (set_currentSentence cs' g),
                    [KeyTap "backspace"]).
Proof.
  intros Hb Hcs. unfold handleBackspace. rewrite Hb, Hcs. cbn.
  destruct (updatePrediction_total (set_currentSentence cs' g)) as (p & Hp).
  rewrite Hp. cbn. eexists. reflexivity.
Qed.

Lemma index_Some_lt {A} (l : list A) (i : Z) (x : A) :
  index l i = Some x -> (i <? len l) = true.
Proof.
  unfold index. destruct (0 <=? i); cbn; [|discriminate].
  destruct (i <? len l); [reflexivity | discriminate].
Qed.

Lemma handleConfirm_backspace (inp : Input) (magnitude : float) (g : Game)
    (cs' : list string) :
  confirmReaches inp magnitude g "⌫" ->
  backspaceWord (currentSentence g) = Some cs' ->
  exists p, handleConfirm inp magnitude g
            = Some (set_lastButtonTime (now inp)
                      (set_nextPrediction p (set_currentSentence cs' g)),
                    [KeyTap "backspace"]).
Proof.
  intros (Hj & Hd & Hm & ring & Hr & Hi) Hcs. unfold handleConfirm.
  rewrite Hj. apply Z.ltb_lt in Hd. rewrite Hd, Hm, Hr. cbn.
  rewrite (index_Some_lt _ _ _ Hi), Hi. cbn. rewrite Hcs. cbn.
  destruct (updatePrediction_total (set_currentSentence cs' g)) as (p & Hp).
  rewrite Hp. cbn. eexists. reflexivity.
Qed.

(** C1 (as the code has it).  Backspace removes the last byte of the last
    word when that word is not empty, and a word emptied this way is dropped
    however many words the buffer holds, so emptying the only word leaves no
    word at all; when the last word is already empty the buffer stays as it
    is (["a"; ""] stays ["a"; ""]).  This holds for the tracking block
    itself, for the B button and for the ring's delete token, none of which
    panics. *)
Theorem C1_backspace_drops_emptied_word
    (inp : Input) (g : Game) (cs : list string) (w : string) :
  currentSentence g = cs ++ [w] ->
  backspaceWord (currentSentence g) = Some (afterBackspace cs w)
  /\ (justRightRight inp = true ->
      exists g', handleBackspace inp g = Some (g', [KeyTap "backspace"])
                 /\ currentSentence g' = afterBackspace cs w)
  /\ (forall magnitude, confirmReaches inp magnitude g "⌫" ->
      exists g', handleConfirm inp magnitude g
                 = Some (g', [KeyTap "backspace"])
                 /\ currentSentence g' = afterBackspace cs w)
  /\ afterBackspace [] "a" = []
  /\ afterBackspace ["a"] "" = ["a"; ""]
  /\ afterBackspace ["a"] "b" = ["a"]
  /\ afterBackspace ["a"] "bc" = ["a"; "b"].
Proof.
  intros Hcs. pose proof (backspaceWord_snoc cs w) as Hb. rewrite <- Hcs in Hb.
  split; [exact Hb|]. split; [|split].
  - intros Hj. destruct (handleBackspace_tracks inp g _ Hj Hb) as (p & Hh).
    eexists. split; [exact Hh | reflexivity].
  - intros magnitude Hc.
    destruct (handleConfirm_backspace inp magnitude g _ Hc Hb) as (p & Hh).
    eexists. split; [exact Hh | reflexivity].
  - repeat split.
Qed.

(** C10.  Backspace on a buffer with no word, or whose last word is already
    empty, does not panic and leaves the buffer as it was, on the B button
    and on the ring's delete token alike; the key tap still goes out. *)
Theorem C10_backspace_noop_on_empty (inp : Input) (g : Game) :
  currentSentence g = [] \/ last (currentSentence g) = Some "" ->
  backspaceWord (currentSentence g) = Some (currentSentence g)
  /\ (justRightRight inp = true ->
      exists g', handleBackspace inp g = Some (g', [KeyTap "backspace"])
                 /\ currentSentence g' = currentSentence g)
  /\ (forall magnitude, confirmReaches inp magnitude g "⌫" ->
      exists g', handleConfirm inp magnitude g
                 = Some (g', [KeyTap "backspace"])
                 /\ currentSentence g' = currentSentence g).
Proof.
  intros H.
  assert (Hb : backspaceWord (currentSentence g) = Some (currentSentence g)).
  { destruct H as [-> | H]; [reflexivity|].
    apply last_Some in H as (l & ->). apply backspaceWord_empty_last. }
  split; [exact Hb|]. split.
  - intros Hj. destruct (handleBackspace_tracks inp g _ Hj Hb) as (p & Hh).
    eexists. split; [exact Hh | reflexivity].
  - intros magnitude Hc.
    destruct (handleConfirm_backspace inp magnitude g _ Hc Hb) as (p & Hh).
    eexists. split; [exact Hh | reflexivity].
Qed.

(** ** Accepting the predicted word *)

Lemma prefix_nil (s : string) : String.prefix "" s = true.
Proof. destruct s; reflexivity. Qed.

Lemma prefix_split (p s : string) :
  String.prefix p s = true ->
  s = (p ++ sdrop (String.length p) s)%string.
Proof.
  revert s; induction p as [|c p IH]; intros s H; [reflexivity|].
  destruct s as [|d s]; [discriminate|]. cbn in H.
  destruct (ascii_dec c d) as [->|]; [|discriminate].
  rewrite append_cons. cbn [String.length sdrop]. f_equal. now apply IH.
Qed.

Lemma prefix_length (p s : string) :
  String.prefix p s = true -> (String.length p <= String.length s)%nat.
Proof.
  revert s; induction p as [|c p IH]; intros s H; cbn; [lia|].
  destruct s as [|d s]; [discriminate|]. cbn in H.
  destruct (ascii_dec c d); [|discriminate]. apply IH in H. cbn. lia.
Qed.

Lemma strSliceFrom_ok (s : string) (n : nat) :
  (n <= String.length s)%nat ->
  strSliceFrom s (Z.of_nat n) = Some (sdrop n s).
Proof.
  intros H. unfold strSliceFrom, strlen.
  replace (0 <=? Z.of_nat n) with true by (symmetry; apply Z.leb_le; lia).
  replace (Z.of_nat n <=? Z.of_nat (String.length s)) with true
    by (symmetry; apply Z.leb_le; lia).
  cbn. now rewrite Nat2Z.id.
Qed.

Lemma strSliceFrom_out (s : string) (n : nat) :
  (String.length s < n)%nat -> strSliceFrom s (Z.of_nat n) = None.
Proof.
  intros H. unfold strSliceFrom, strlen.
  replace (Z.of_nat n <=? Z.of_nat (String.length s)) with false
    by (symmetry; apply Z.leb_gt; lia).
  now rewrite andb_false_r.
Qed.

(** R2 where there is nothing to accept *)
Lemma acceptPredictionWith_idle (toLower : string -> string) (inp : Input)
    (g : Game) :
  justButton7 inp = false \/ nextPrediction g = "" ->
  acceptPredictionWith toLower inp g = Some (g, []).
Proof.
  intros H. unfold acceptPredictionWith.
  destruct (justButton7 inp); [|reflexivity].
  destruct H as [H | H]; [discriminate|]. now rewrite H.
Qed.

(** R2 on a prediction: the slice decides whether the call returns; when
    it does the buffer ends with the prediction and a new empty word, and
    the prediction is renewed. *)
Lemma acceptPredictionWith_accept (toLower : string -> string) (inp : Input)
    (g : Game) :
  justButton7 inp = true ->
  nextPrediction g <> "" ->
  acceptPredictionWith toLower inp g
  = if sliceFails toLower g then None
    else
      g' ← updatePrediction
             (set_currentSentence
                (removelast (currentSentence g) ++ [nextPrediction g; ""]) g);
      Some (g', acceptTrace toLower g).
Proof.
  intros Hj Hp. unfold acceptPredictionWith, sliceFails, acceptTrace.
  rewrite Hj. apply streq_false in Hp. rewrite Hp. cbn [negb].
  destruct (snoc_cases (currentSentence g)) as [E | (l & w & E)]; rewrite E.
  - change (len (@nil string)) with 0. reflexivity.
  - rewrite len_pos_snoc, index_last. cbn [mbind option_bind].
    replace (len (l ++ [w]) =? 0) with false
      by (symmetry; apply Z.eqb_neq; rewrite len_snoc;
          pose proof (len_nonneg l); lia).
    rewrite setIndex_last. cbn [mbind option_bind].
    rewrite removelast_last.
    unfold inProgress. rewrite last_snoc.
    change (default "" (Some w)) with w.
    replace ((l ++ [nextPrediction g]) ++ [""])
      with (l ++ [nextPrediction g; ""]) by (now rewrite <- app_assoc).
    unfold nonEmpty. destruct (streq w "") eqn:Ew.
    + apply streq_true in Ew. subst w. reflexivity.
    + cbn [negb andb].
      destruct (strings.HasPrefix (toLower (nextPrediction g)) (toLower w))
        eqn:Epre; cbn [andb].
      * unfold strlen.
        destruct (Z.of_nat (String.length (nextPrediction g))
                  <? Z.of_nat (String.length w)) eqn:El.
        -- apply Z.ltb_lt in El. rewrite strSliceFrom_out by lia. reflexivity.
        -- apply Z.ltb_ge in El. rewrite strSliceFrom_ok by lia. reflexivity.
      * unfold strlen. rewrite Nat2Z.id. reflexivity.
Qed.

(** on ASCII text lowering is byte for byte *)
Lemma ToLower_length (s : string) :
  isASCII s = true -> String.length (strings.ToLower s) = String.length s.
Proof.
  intros _. induction s as [|c s IH]; cbn; [reflexivity | now rewrite IH].
Qed.

Lemma ToLower_sdrop (n : nat) (s : string) :
  isASCII s = true ->
  strings.ToLower (sdrop n s) = sdrop n (strings.ToLower s).
Proof.
  intros _. revert s; induction n as [|n IH]; intros [|c s]; cbn;
    try reflexivity.
  apply IH.
Qed.

Lemma isASCII_sdrop (n : nat) (s : string) :
  isASCII s = true -> isASCII (sdrop n s) = true.
Proof.
  revert s; induction n as [|n IH]; intros [|c s] H; cbn; try exact H.
  cbn in H. apply andb_true_iff in H as [_ H]. now apply IH.
Qed.

(** when lowering keeps the byte length of both strings the slice is in
    range, and what is sent is decided by the prefix test alone *)
Lemma accept_returns_when_length_kept (toLower : string -> string)
    (inp : Input) (g : Game) :
  String.length (toLower (nextPrediction g))
  = String.length (nextPrediction g) ->
  String.length (toLower (inProgress (currentSentence g)))
  = String.length (inProgress (currentSentence g)) ->
  justButton7 inp = true ->
  nextPrediction g <> "" ->
  let pred := nextPrediction g in
  let cur := inProgress (currentSentence g) in
  exists p,
    acceptPredictionWith toLower inp g
    = Some (set_nextPrediction p
              (set_currentSentence
                 (removelast (currentSentence g) ++ [pred; ""]) g),
            if strings.HasPrefix (toLower pred) (toLower cur)
            then [TypeStr (sdrop (String.length cur) pred ++ " ");
                  WriteRawText (sdrop (String.length cur) pred ++ " ")]
            else repeat (KeyTap "backspace") (String.length cur)
                 ++ [TypeStr (pred ++ " "); WriteRawText (pred ++ " ")]).
Proof.
  intros Lp Lc Hj Hp pred cur.
  rewrite (acceptPredictionWith_accept toLower inp g Hj Hp).
  fold pred cur in Lp, Lc |- *.
  assert (Hs : sliceFails toLower g = false).
  { unfold sliceFails. fold pred cur.
    destruct (strings.HasPrefix (toLower pred) (toLower cur)) eqn:Epre;
      [|now rewrite andb_false_r].
    unfold strings.HasPrefix in Epre. apply prefix_length in Epre.
    replace (strlen pred <? strlen cur) with false;
      [now rewrite andb_false_r|].
    symmetry. apply Z.ltb_ge. unfold strlen. lia. }
  rewrite Hs.
  match goal with
  | |- context [updatePrediction ?g0] =>
      destruct (updatePrediction_total g0) as (p & ->)
  end.
  cbn [mbind option_bind]. exists p. f_equal. f_equal.
  unfold acceptTrace, nonEmpty. fold pred cur.
  destruct (streq cur "") eqn:Ec; [|reflexivity].
  apply streq_true in Ec. cbn [negb andb].
  destruct (strings.HasPrefix (toLower pred) (toLower cur)); [|reflexivity].
  now rewrite Ec.
Qed.

(** ** Order of [float64] values *)

Lemma SFcompare_swap (x y : spec_float) :
  SFcompare y x = option_map CompOpp (SFcompare x y).
Proof.
  destruct x as [sx|sx| |sx mx ex], y as [sy|sy| |sy my ey]; cbn;
    try reflexivity; try (destruct sx; reflexivity);
    try (destruct sy; reflexivity); try (destruct sx, sy; reflexivity).
  destruct sx, sy; cbn; try reflexivity;
    rewrite (Z.compare_antisym ex ey); destruct (ex ?= ey)%Z; cbn;
    try reflexivity;
    change (PosDef.Pos.compare_cont Eq my mx) with (Pos.compare_cont Eq my mx);
    change (PosDef.Pos.compare_cont Eq mx my) with (Pos.compare_cont Eq mx my);
    rewrite (Pos.compare_cont_antisym mx my Eq); reflexivity.
Qed.

(** [x <= y] excludes [y < x] *)
Lemma float_leb_not_ltb (x y : float) :
  (x <=? y)%float = true -> (y <? x)%float = false.
Proof.
  rewrite leb_spec, ltb_spec. unfold SFleb, SFltb.
  rewrite (SFcompare_swap (Prim2SF x) (Prim2SF y)).
  destruct (SFcompare (Prim2SF x) (Prim2SF y)) as [[]|]; cbn; congruence.
Qed.

(** ** What the handlers leave alone *)

Lemma keepsSelection_refl (g : Game) : keepsSelection g g.
Proof. repeat split; auto. Qed.

Lemma keepsSelection_trans (g1 g2 g3 : Game) :
  keepsSelection g1 g2 -> keepsSelection g2 g3 -> keepsSelection g1 g3.
Proof.
  intros (A1 & A2 & A3 & A4) (B1 & B2 & B3 & B4).
  repeat split; try congruence. auto.
Qed.

Lemma fold_frequency {A} (f : Game -> A -> Game) :
  (forall g a, exists m, f g a = set_wordFrequency m g) ->
  forall l g, exists m, fold_left f l g = set_wordFrequency m g.
Proof.
  intros Hf l. induction l as [|a l IH]; intros g; cbn.
  - exists (wordFrequency g). destruct g; reflexivity.
  - destruct (Hf g a) as (m & ->). destruct (IH (set_wordFrequency m g)) as (m' & ->).
    exists m'. reflexivity.
Qed.

Lemma countWord_frequency (g : Game) (w : string) :
  exists m, countWord g w = set_wordFrequency m g.
Proof. eexists. reflexivity. Qed.

Lemma set_wordFrequency_same (g : Game) :
  set_wordFrequency (wordFrequency g) g = g.
Proof. destruct g; reflexivity. Qed.

Lemma enterSentence_total (g : Game) :
  is_Some (markovChain g) ->
  exists g' saved,
    enterSentence g
    = Some (g', [KeyTap "enter"; WriteRawText newline] ++ saved)
    /\ keepsSelection g g'
    /\ currentSentence g' = []
    /\ (forall e, e ∈ saved -> exists d, e = WriteTrainingData d).
Proof.
  intros [chain Hc]. unfold enterSentence, chainAdd. rewrite Hc.
  destruct (1 <? len (currentSentence g)); cbn.
  - match goal with
    | |- context [fold_left ?f ?l ?g0] =>
        destruct (fold_frequency f
                    (fun g w =>
                       match negb (streq w "") as b
                             return exists m, (if b then _ else g) = _ with
                       | true => countWord_frequency g _
                       | false => ex_intro _ (wordFrequency g)
                                    (eq_sym (set_wordFrequency_same g))
                       end) l g0) as (m & ->)
    end.
    eexists. eexists. split; [reflexivity|].
    split; [repeat split; cbn; eauto|]. split; [reflexivity|].
    intros e He. apply list_elem_of_singleton in He. eauto.
  - exists (set_currentSentence [] g), []. split; [reflexivity|].
    split; [repeat split; cbn; rewrite ?Hc; eauto|]. split; [reflexivity|].
    intros e He. inversion He.
Qed.

Lemma wordBreak_total (cs : list string) : exists cs', wordBreak cs = Some cs'.
Proof.
  destruct (snoc_cases cs) as [-> | (l & w & ->)]; [eexists; reflexivity|].
  unfold wordBreak. rewrite len_pos_snoc, index_last. cbn.
  destruct (negb (streq w "")); eexists; reflexivity.
Qed.

Lemma handleBackspace_total (inp : Input) (g : Game) :
  exists g' out, handleBackspace inp g = Some (g', out) /\ keepsSelection g g'.
Proof.
  destruct (justRightRight inp) eqn:Hj.
  - destruct (backspaceWord_total (currentSentence g)) as (cs' & Hcs).
    destruct (handleBackspace_tracks inp g cs' Hj Hcs) as (p & ->).
    eexists. eexists. split; [reflexivity|]. repeat split; auto.
  - unfold handleBackspace. rewrite Hj. exists g, []. split; [reflexivity|].
    apply keepsSelection_refl.
Qed.

Lemma handleSpace_total (inp : Input) (g : Game) :
  exists g' out, handleSpace inp g = Some (g', out) /\ keepsSelection g g'.
Proof.
  unfold handleSpace. destruct (justRightLeft inp).
  - destruct (wordBreak_total (currentSentence g)) as (cs' & ->). cbn.
    destruct (updatePrediction_total (set_currentSentence cs' g)) as (p & ->).
    cbn. eexists. eexists. split; [reflexivity|]. repeat split; auto.
  - exists g, []. split; [reflexivity | apply keepsSelection_refl].
Qed.

Lemma handleEnter_total (inp : Input) (g : Game) :
  is_Some (markovChain g) ->
  exists g' out, handleEnter inp g = Some (g', out) /\ keepsSelection g g'.
Proof.
  intros Hc. unfold handleEnter. destruct (justRightTop inp).
  - destruct (enterSentence_total g Hc) as (g' & saved & -> & Hk & _).
    eauto.
  - exists g, []. split; [reflexivity | apply keepsSelection_refl].
Qed.

Lemma handleArrows_total (inp : Input) (g : Game) :
  exists g' out, handleArrows inp g = Some (g', out) /\ keepsSelection g g'.
Proof.
  eexists. eexists. split; [reflexivity | apply keepsSelection_refl].
Qed.

Lemma handleModifiers_total (inp : Input) (g : Game) :
  exists g' out, handleModifiers inp g = Some (g', out) /\ keepsSelection g g'.
Proof.
  unfold handleModifiers. eexists. eexists. split; [reflexivity|].
  destruct (pressedButton4 inp), (pressedButton5 inp); repeat split; auto.
Qed.

(** without R2 nothing is accepted *)
Lemma acceptPrediction_resting (inp : Input) (g : Game) :
  restingR2 inp ->
  exists g' out, acceptPrediction inp g = Some (g', out) /\ keepsSelection g g'.
Proof.
  intros Hj. exists g, []. split; [|apply keepsSelection_refl].
  apply acceptPredictionWith_idle. now left.
Qed.

Lemma andThen_total (r : option (Game * list Effect))
    (k : Game -> option (Game * list Effect)) (g : Game) :
  (exists g1 e1, r = Some (g1, e1) /\ keepsSelection g g1) ->
  (forall g1, is_Some (markovChain g1) ->
              exists g2 e2, k g1 = Some (g2, e2) /\ keepsSelection g1 g2) ->
  is_Some (markovChain g) ->
  exists g2 e, andThen r k = Some (g2, e) /\ keepsSelection g g2.
Proof.
  intros (g1 & e1 & -> & Hk1) Hk Hc.
  destruct (Hk g1) as (g2 & e2 & Hr & Hk2); [apply Hk1, Hc|].
  unfold andThen. cbn. rewrite Hr. cbn. eexists. eexists.
  split; [reflexivity|]. eapply keepsSelection_trans; eassumption.
Qed.

(** inside the dead zone the stick changes nothing *)
Lemma updateSelection_dead (x y magnitude : float) (g : Game) :
  (0.1 <? magnitude)%float = false ->
  updateSelection x y magnitude g = Some g.
Proof. intros H. unfold updateSelection. now rewrite H. Qed.

(** inside the dead zone the confirm button does nothing *)
Lemma handleConfirm_dead (inp : Input) (magnitude : float) (g : Game) :
  (0.1 <? magnitude)%float = false ->
  handleConfirm inp magnitude g = Some (g, []).
Proof.
  intros H. unfold handleConfirm. rewrite H.
  destruct (justRightBottom inp); [|reflexivity].
  destruct (200 * Millisecond <? Sub (now inp) (lastButtonTime g)); reflexivity.
Qed.

(** within the debounce window the confirm button does nothing *)
Lemma handleConfirm_debounced (inp : Input) (magnitude : float) (g : Game) :
  Sub (now inp) (lastButtonTime g) <= 200 * Millisecond ->
  handleConfirm inp magnitude g = Some (g, []).
Proof.
  intros H. unfold handleConfirm.
  replace (200 * Millisecond <? Sub (now inp) (lastButtonTime g)) with false
    by (symmetry; apply Z.ltb_ge; exact H).
  destruct (justRightBottom inp); reflexivity.
Qed.

Lemma updateGamepad_after_selection (inp : Input) (g : Game)
    (r : option (Game * list Effect)) :
  restingR2 inp ->
  (exists g1 e1, r = Some (g1, e1) /\ keepsSelection g g1) ->
  is_Some (markovChain g) ->
  exists g' out,
    andThen (andThen (andThen (andThen (andThen (andThen r
      (handleBackspace inp)) (handleSpace inp)) (handleEnter inp))
      (handleArrows inp)) (handleModifiers inp)) (acceptPrediction inp)
    = Some (g', out)
    /\ keepsSelection g g'.
Proof.
  intros Hj Hr Hc.
  apply andThen_total; [|intros; now apply acceptPrediction_resting|exact Hc].
  apply andThen_total; [|intros; apply handleModifiers_total|exact Hc].
  apply andThen_total; [|intros; apply handleArrows_total|exact Hc].
  apply andThen_total; [|intros; now apply handleEnter_total|exact Hc].
  apply andThen_total; [|intros; apply handleSpace_total|exact Hc].
  apply andThen_total; [|intros; apply handleBackspace_total|exact Hc].
  exact Hr.
Qed.

Lemma updateGamepad_dead (inp : Input) (g : Game) :
  (0.1 <? stickMagnitude inp)%float = false ->
  restingR2 inp ->
  is_Some (markovChain g) ->
  exists g' out, updateGamepad inp g = Some (g', out) /\ keepsSelection g g'.
Proof.
  intros Hd Hj Hc. unfold updateGamepad. unfold stickMagnitude in Hd.
  cbn zeta in *.
  rewrite (updateSelection_dead _ _ _ g Hd). cbn [mbind option_bind].
  apply (updateGamepad_after_selection inp); [exact Hj| |exact Hc].
  rewrite (handleConfirm_dead _ _ _ Hd). exists g, [].
  split; [reflexivity | apply keepsSelection_refl].
Qed.

(** ** Training never panics once the chain exists *)

Lemma chainAdd_Some (g : Game) (c : gomarkov.Chain) (ws : list string) :
  markovChain g = Some c ->
  chainAdd g ws = Some (set_markovChain (Some (gomarkov.Add c ws)) g).
Proof. intros H. unfold chainAdd. now rewrite H. Qed.

Lemma forEach_keeps {A} (body : Game -> A -> option Game) :
  (forall g a, is_Some (markovChain g) ->
               exists g', body g a = Some g' /\ keepsSelection g g') ->
  forall l g, is_Some (markovChain g) ->
              exists g', forEach body l g = Some g' /\ keepsSelection g g'.
Proof.
  intros Hb l. induction l as [|a l IH]; intros g Hc; cbn.
  - exists g. split; [reflexivity | apply keepsSelection_refl].
  - destruct (Hb g a Hc) as (g1 & -> & Hk1). cbn.
    destruct (IH g1) as (g2 & -> & Hk2); [apply Hk1, Hc|].
    exists g2. split; [reflexivity|].
    eapply keepsSelection_trans; eassumption.
Qed.

Lemma trainSentence_total (g : Game) (sentence : list string) :
  is_Some (markovChain g) ->
  exists g', trainSentence g sentence = Some g' /\ keepsSelection g g'.
Proof.
  intros [c Hc]. unfold trainSentence. rewrite (chainAdd_Some _ _ _ Hc). cbn.
  match goal with
  | |- context [fold_left ?f ?l ?g0] =>
      destruct (fold_frequency f (fun g w => countWord_frequency g _) l g0)
        as (m & ->)
  end.
  eexists. split; [reflexivity|]. repeat split; cbn; eauto.
Qed.

Lemma trainRawSentence_total (g : Game) (sentence : string) :
  is_Some (markovChain g) ->
  exists g', trainRawSentence g sentence = Some g' /\ keepsSelection g g'.
Proof.
  intros [c Hc]. unfold trainRawSentence.
  destruct (streq (strings.TrimSpace sentence) "");
    [exists g; split; [reflexivity | apply keepsSelection_refl]|].
  destruct (1 <? len (strings.Fields (strings.TrimSpace sentence)));
    [|exists g; split; [reflexivity | apply keepsSelection_refl]].
  destruct (1 <? len (cleanWords (strings.Fields (strings.TrimSpace sentence)))).
  - rewrite (chainAdd_Some _ _ _ Hc). cbn.
    match goal with
    | |- context [fold_left ?f ?l ?g0] =>
        destruct (fold_frequency f countWord_frequency l g0) as (m & ->)
    end.
    eexists. split; [reflexivity|]. repeat split; cbn; eauto.
  - cbn.
    match goal with
    | |- context [fold_left ?f ?l ?g0] =>
        destruct (fold_frequency f countWord_frequency l g0) as (m & ->)
    end.
    eexists. split; [reflexivity|]. repeat split; cbn; rewrite ?Hc; eauto.
Qed.

Lemma loadRawTextAndTrain_total (env : Env) (g : Game) :
  is_Some (markovChain g) ->
  exists g' err,
    loadRawTextAndTrain env g = Some (g', err) /\ keepsSelection g g'.
Proof.
  intros Hc. unfold loadRawTextAndTrain.
  destruct (negb (homeDirOk env));
    [exists g; eexists; split; [reflexivity | apply keepsSelection_refl]|].
  destruct (rawTextFile env) as [| |text];
    try (exists g; eexists; split; [reflexivity | apply keepsSelection_refl]).
  destruct (streq text "");
    [exists g; eexists; split; [reflexivity | apply keepsSelection_refl]|].
  destruct (forEach_keeps trainRawSentence trainRawSentence_total
              (strings.FieldsFunc text isSentenceEnd) g Hc) as (g' & -> & Hk).
  cbn. eauto.
Qed.

Lemma loadTrainingData_keeps (env : Env) (g : Game) :
  keepsSelection g (fst (loadTrainingData env g)).
Proof.
  unfold loadTrainingData. destruct (negb (homeDirOk env));
    [apply keepsSelection_refl|].
  destruct (trainingDataFile env) as [| |data].
  - repeat split; auto.
  - apply keepsSelection_refl.
  - destruct (jsonUnmarshal data (trainingData g)) as [v failed].
    repeat split; auto.
Qed.

Lemma initMarkov_total (env : Env) (g : Game) :
  exists g', initMarkov env g = Some g'
             /\ selectedIndex g' = selectedIndex g
             /\ selectedRing g' = selectedRing g
             /\ lastButtonTime g' = lastButtonTime g
             /\ is_Some (markovChain g').
Proof.
  unfold initMarkov. destruct (markovChain g) as [c|] eqn:Hc.
  { exists g. rewrite Hc. repeat split; eauto. }
  set (g1 := set_wordFrequency ∅ (set_markovChain (Some ∅) g)).
  assert (H1 : is_Some (markovChain g1)) by (cbn; eauto).
  pose proof (loadTrainingData_keeps env g1) as K2.
  set (g2 := fst (loadTrainingData env g1)) in *.
  set (g3 := if len (trainingData g2) =? 0
             then set_trainingData seedSentences g2 else g2).
  assert (K3 : keepsSelection g2 g3).
  { unfold g3. destruct (len (trainingData g2) =? 0);
      [repeat split; auto | apply keepsSelection_refl]. }
  assert (H3 : is_Some (markovChain g3)) by (apply K3, K2, H1).
  destruct (forEach_keeps trainSentence trainSentence_total
              (trainingData g3) g3 H3) as (g4 & -> & K4). cbn.
  destruct (loadRawTextAndTrain_total env g4) as (g5 & err & -> & K5);
    [apply K4, H3|]. cbn.
  destruct (updatePrediction_total g5) as (p & ->).
  eexists. split; [reflexivity|].
  destruct K2 as (A1 & A2 & A3 & A4), K3 as (B1 & B2 & B3 & B4),
    K4 as (C1 & C2 & C3 & C4), K5 as (D1 & D2 & D3 & D4).
  change (selectedIndex g1) with (selectedIndex g) in A1.
  change (selectedRing g1) with (selectedRing g) in A2.
  change (lastButtonTime g1) with (lastButtonTime g) in A3.
  cbn. repeat split; try congruence. auto.
Qed.

(** ** The dead zone *)

Lemma forEach_pads_dead (pads : list Input) (g : Game) (out : list Effect) :
  Forall inDeadZone pads ->
  Forall restingR2 pads ->
  is_Some (markovChain g) ->
  exists g' out',
    forEach
      (fun '(g, out) inp =>
         '(g, e) ← updateGamepad inp g; Some (g, out ++ e))
      pads (g, out) = Some (g', out')
    /\ keepsSelection g g'.
Proof.
  intros Hd. revert g out.
  induction Hd as [|inp pads Hi _ IH]; intros g out Hj Hc.
  - exists g, out. split; [reflexivity | apply keepsSelection_refl].
  - cbn [forEach]. apply Forall_cons_iff in Hj as [Hj Hjs].
    destruct (updateGamepad_dead inp g (float_leb_not_ltb _ _ Hi) Hj Hc)
      as (g1 & e & -> & K1). cbn.
    destruct (IH g1 (out ++ e)) as (g2 & out2 & -> & K2);
      [exact Hjs | apply K1, Hc |].
    exists g2, out2. split; [reflexivity|].
    eapply keepsSelection_trans; eassumption.
Qed.

Lemma Update_dead (env : Env) (pads : list Input) (g : Game) :
  Forall inDeadZone pads ->
  Forall restingR2 pads ->
  exists g' out,
    Update env pads g = Some (g', out)
    /\ selectedIndex g' = selectedIndex g
    /\ selectedRing g' = selectedRing g.
Proof.
  intros Hd Hj. unfold Update.
  destruct (initMarkov_total env g) as (g1 & -> & A1 & A2 & _ & Hc). cbn.
  destruct (forEach_pads_dead pads g1 [] Hd Hj Hc)
    as (g2 & out & -> & B1 & B2 & _).
  exists g2, out. split; [reflexivity|]. split; congruence.
Qed.

(** ** The ring boundary *)

Lemma rings_Some (set ring : Z) :
  (set = 0 \/ set = 1) -> (ring = 0 \/ ring = 1) ->
  exists l, rings set ring = Some l /\ (len l = 16 \/ len l = 26).
Proof.
  intros [-> | ->] [-> | ->]; eexists; (split; [reflexivity|]);
    unfold len; cbn; lia.
Qed.

Lemma updateSelection_live (x y magnitude : float) (g : Game) :
  (0.1 <? magnitude)%float = true ->
  currentSet g = 0 \/ currentSet g = 1 ->
  let ring := if (magnitude <? 0.9)%float then 0 else 1 in
  let angle := normalizeAngle (Atan2 x (- y)%float) in
  exists currentRing,
    rings (currentSet g) ring = Some currentRing
    /\ (len currentRing = 16 \/ len currentRing = 26)
    /\ updateSelection x y magnitude g
       = Some (set_selectedIndex
                 (Z.rem (int_of_float64
                           (angle / (2 * Pi / float64_of_int (len currentRing)))%float)
                    (len currentRing))
                 (set_joystickAngle angle (set_selectedRing ring g))).
Proof.
  intros Hm Hs ring angle. unfold updateSelection. rewrite Hm.
  change (if (Atan2 x (- y) <? 0)%float
          then (Atan2 x (- y) + 2 * Pi)%float else Atan2 x (- y)%float)
    with angle.
  destruct (rings_Some (currentSet g) ring Hs) as (l & Hl & Hlen).
  { unfold ring. destruct (magnitude <? 0.9)%float; auto. }
  exists l. split; [exact Hl|]. split; [exact Hlen|].
  replace (if (magnitude <? 0.9)%float then set_selectedRing 0 g
           else set_selectedRing 1 g) with (set_selectedRing ring g)
    by (unfold ring; destruct (magnitude <? 0.9)%float; reflexivity).
  cbn [currentSet selectedRing set_joystickAngle set_selectedRing].
  rewrite Hl. cbn [mbind option_bind]. unfold goRem.
  replace (len l =? 0) with false
    by (symmetry; apply Z.eqb_neq; lia).
  reflexivity.
Qed.

(** C2 (as the code has it).  Outside the dead zone, a magnitude strictly
    below the ring boundary 0.9 selects the inner ring and a magnitude at or
    above it selects the outer ring; a magnitude equal to the boundary
    selects the outer ring. *)
Theorem C2_ring_boundary (x y : float) (g : Game) :
  let magnitude := PrimFloat.sqrt (x * x + y * y)%float in
  (0.1 <? magnitude)%float = true ->
  currentSet g = 0 \/ currentSet g = 1 ->
  exists g',
    updateSelection x y magnitude g = Some g'
    /\ ((magnitude <? 0.9)%float = true -> selectedRing g' = 0)
    /\ ((0.9 <=? magnitude)%float = true -> selectedRing g' = 1)
    /\ ((magnitude =? 0.9)%float = true -> selectedRing g' = 1).
Proof.
  intros magnitude Hm Hs.
  destruct (updateSelection_live x y magnitude g Hm Hs) as (l & _ & _ & ->).
  eexists. split; [reflexivity|]. cbn [selectedRing set_selectedIndex
    set_joystickAngle set_selectedRing].
  split; [|split].
  - intros H. now rewrite H.
  - intros H. now rewrite (float_leb_not_ltb _ _ H).
  - intros H. rewrite FloatAxioms.eqb_spec in H. rewrite ltb_spec.
    unfold SFeqb in H. unfold SFltb.
    destruct (SFcompare (Prim2SF magnitude) (Prim2SF 0.9)) as [[]|];
      try discriminate. reflexivity.
Qed.

(** ** Debounce of the confirm button *)

Lemma enterSentence_keystrokes (g g' : Game) (out : list Effect) :
  enterSentence g = Some (g', out) -> keystrokes out = 1%nat.
Proof.
  unfold enterSentence.
  destruct (1 <? len (currentSentence g)).
  - destruct (chainAdd g (currentSentence g)) as [g1|]; [|discriminate].
    cbn. intros H. injection H as _ <-. reflexivity.
  - cbn. intros H. injection H as _ <-. reflexivity.
Qed.

Lemma typeGlyph_keystrokes (tok : string) (g g' : Game) (out : list Effect) :
  typeGlyph tok g = Some (g', out) -> keystrokes out = 1%nat.
Proof.
  unfold typeGlyph.
  destruct (appendChar (currentSentence g) _) as [cs|]; [|discriminate]. cbn.
  destruct (updatePrediction _) as [g1|]; [|discriminate]. cbn.
  intros H. injection H as _ <-. reflexivity.
Qed.

(** a confirm that changed or emitted anything restarted the debounce clock
    and injected one keystroke *)
Lemma handleConfirm_accepted (inp : Input) (magnitude : float)
    (g g' : Game) (out : list Effect) :
  handleConfirm inp magnitude g = Some (g', out) ->
  out <> [] ->
  lastButtonTime g' = now inp /\ keystrokes out = 1%nat.
Proof.
  unfold handleConfirm. intros H Hout.
  destruct (justRightBottom inp); [|injection H as _ <-; easy].
  destruct (200 * Millisecond <? Sub (now inp) (lastButtonTime g));
    [|injection H as _ <-; easy].
  destruct (0.1 <? magnitude)%float; [|injection H as _ <-; easy].
  destruct (rings (currentSet g) (selectedRing g)) as [ring|]; [|discriminate].
  cbn in H.
  destruct (selectedIndex g <? len ring); [|injection H as _ <-; easy].
  destruct (index ring (selectedIndex g)) as [tok|]; [|discriminate].
  cbn in H.
  destruct (streq tok "⌫").
  - destruct (backspaceWord (currentSentence g)) as [cs|]; [|discriminate].
    cbn in H. destruct (updatePrediction _) as [g1|]; [|discriminate].
    cbn in H. injection H as <- <-. split; reflexivity.
  - destruct (streq tok "↵").
    + destruct (enterSentence g) as [[g1 out1]|] eqn:E; [|discriminate].
      cbn in H. injection H as <- <-. split; [reflexivity|].
      eapply enterSentence_keystrokes; eassumption.
    + destruct (typeGlyph tok g) as [[g1 out1]|] eqn:E; [|discriminate].
      cbn in H. injection H as <- <-. split; [reflexivity|].
      eapply typeGlyph_keystrokes; eassumption.
Qed.

Lemma Sub_small (t u : Z) :
  0 <= t - u <= 200 * Millisecond -> Sub t u = t - u.
Proof.
  intros H. unfold Sub, maxDuration, minDuration, Millisecond in *.
  replace (2 ^ 63 - 1 <? t - u) with false by (symmetry; apply Z.ltb_ge; lia).
  replace (t - u <? - 2 ^ 63) with false by (symmetry; apply Z.ltb_ge; lia).
  reflexivity.
Qed.

(** C5.  Once a confirm has been accepted at time [now inp1] (it emitted
    something), a confirm that arrives at most 200 ms later is discarded:
    it returns without a panic, leaves the state as it is and emits
    nothing, so the two presses together inject exactly one keystroke. *)
Theorem C5_debounce_discards_second_commit
    (inp1 inp2 : Input) (m1 m2 : float) (g0 g1 g : Game)
    (out1 : list Effect) :
  handleConfirm inp1 m1 g0 = Some (g1, out1) ->
  out1 <> [] ->
  lastButtonTime g = lastButtonTime g1 ->
  now inp1 <= now inp2 <= now inp1 + 200 * Millisecond ->
  handleConfirm inp2 m2 g = Some (g, [])
  /\ keystrokes (out1 ++ []) = 1%nat.
Proof.
  intros H1 Hout Hg Ht.
  destruct (handleConfirm_accepted _ _ _ _ _ H1 Hout) as (Hl & Hk).
  split.
  - apply handleConfirm_debounced. rewrite Hg, Hl.
    rewrite Sub_small; lia.
  - now rewrite app_nil_r.
Qed.

(** ** Reading the raw text *)

Lemma fieldsFrom_trimLeft (f : ascii -> bool) (s : string) :
  strings.fieldsFrom f (strings.trimLeftFunc f s) []
  = strings.fieldsFrom f s [].
Proof.
  induction s as [|c s IH]; [reflexivity|]. cbn.
  destruct (f c) eqn:E; [exact IH|]. cbn. now rewrite E.
Qed.

Lemma fieldsFrom_trimRight (f : ascii -> bool) (s : string) (cur : list ascii) :
  strings.fieldsFrom f (strings.trimRightFunc f s) cur
  = strings.fieldsFrom f s cur.
Proof.
  revert cur. induction s as [|c s IH]; intros cur; [reflexivity|].
  cbn [strings.trimRightFunc].
  destruct (strings.trimRightFunc f s) as [|d r] eqn:Er.
  - destruct (f c) eqn:E; cbn; rewrite E.
    + rewrite <- (IH []). cbn. destruct cur; reflexivity.
    + rewrite <- (IH (c :: cur)). reflexivity.
  - cbn. destruct (f c) eqn:E.
    + rewrite <- (IH []). reflexivity.
    + rewrite <- (IH (c :: cur)). reflexivity.
Qed.

(** [Fields] does not see the space that [TrimSpace] removes *)
Lemma Fields_TrimSpace (s : string) :
  strings.Fields (strings.TrimSpace s) = strings.Fields s.
Proof.
  unfold strings.Fields, strings.FieldsFunc, strings.TrimSpace.
  now rewrite fieldsFrom_trimRight, fieldsFrom_trimLeft.
Qed.

Lemma Fields_blank (s : string) :
  strings.TrimSpace s = "" -> strings.Fields s = [].
Proof. intros H. rewrite <- Fields_TrimSpace, H. reflexivity. Qed.

(** the loop that builds [cleanWords], as a map and a filter *)
Lemma cleanWords_map (words : list string) :
  cleanWords words
  = map strings.ToLower (List.filter nonEmpty (map cleanWord words)).
Proof.
  unfold cleanWords.
  enough (H : forall acc,
             fold_left
               (fun acc word =>
                  let word := cleanWord word in
                  if negb (streq word "") then acc ++ [strings.ToLower word]
                  else acc) words acc
             = acc ++ map strings.ToLower
                        (List.filter nonEmpty (map cleanWord words)))
    by apply (H []).
  induction words as [|w words IH]; intros acc; cbn.
  - now rewrite app_nil_r.
  - rewrite IH. unfold nonEmpty at 2.
    destruct (negb (streq (cleanWord w) "")); [|reflexivity].
    cbn. now rewrite <- app_assoc.
Qed.

Lemma lowerByte_idem (c : ascii) :
  strings.lowerByte (strings.lowerByte c) = strings.lowerByte c.
Proof. destruct c as [[] [] [] [] [] [] [] []]; reflexivity. Qed.

Lemma ToLower_idem (s : string) :
  strings.ToLower (strings.ToLower s) = strings.ToLower s.
Proof.
  induction s as [|c s IH]; [reflexivity|]. cbn.
  now rewrite lowerByte_idem, IH.
Qed.

Lemma ToLower_nonempty (s : string) : s <> "" -> strings.ToLower s <> "".
Proof. destruct s; [easy | discriminate]. Qed.

(** every word that [cleanWords] keeps is a trimmed, lower-cased,
    non-empty token of its input *)
Lemma cleanWords_elem (words : list string) (w : string) :
  w ∈ cleanWords words ->
  w <> "" /\ strings.ToLower w = w
  /\ exists tok, tok ∈ words /\ w = strings.ToLower (cleanWord tok).
Proof.
  rewrite cleanWords_map. intros H.
  apply list_elem_of_In, in_map_iff in H as (v & <- & Hv).
  apply filter_In in Hv as (Hv & Hne).
  apply in_map_iff in Hv as (tok & <- & Htok).
  unfold nonEmpty in Hne. apply negb_true_iff, streq_false in Hne.
  split; [now apply ToLower_nonempty|]. split; [apply ToLower_idem|].
  exists tok. split; [now apply list_elem_of_In | reflexivity].
Qed.

Lemma fold_countWord (ws : list string) (g : Game) :
  fold_left countWord ws g
  = set_wordFrequency (learnFrequency (wordFrequency g) ws) g.
Proof.
  revert g. induction ws as [|w ws IH]; intros g; cbn.
  - now rewrite set_wordFrequency_same.
  - rewrite IH. reflexivity.
Qed.

Lemma set_chain_frequency_same (g : Game) (c : gomarkov.Chain) :
  markovChain g = Some c ->
  set_wordFrequency (wordFrequency g) (set_markovChain (Some c) g) = g.
Proof. destruct g; cbn. now intros ->. Qed.

Lemma learn_nothing (g : Game) (c : gomarkov.Chain) :
  markovChain g = Some c ->
  set_wordFrequency (learnFrequency (wordFrequency g) [])
    (set_markovChain (Some (learnChain c [])) g) = g.
Proof. apply set_chain_frequency_same. Qed.

Lemma trainRawSentence_spec (g : Game) (c : gomarkov.Chain) (s : string) :
  markovChain g = Some c ->
  trainRawSentence g s
  = Some (set_wordFrequency
            (learnFrequency (wordFrequency g) (sentenceWords s))
            (set_markovChain (Some (learnChain c (sentenceWords s))) g)).
Proof.
  intros Hc. unfold trainRawSentence, sentenceWords.
  destruct (streq (strings.TrimSpace s) "") eqn:E.
  - apply streq_true, Fields_blank in E. rewrite E.
    change (1 <? len (@nil string)) with false. cbv iota.
    now rewrite (learn_nothing g c Hc).
  - rewrite Fields_TrimSpace. cbv zeta.
    destruct (1 <? len (strings.Fields s)).
    + rewrite cleanWords_map. unfold learnChain.
      destruct (1 <? len _).
      * rewrite (chainAdd_Some _ _ _ Hc). cbn [mbind option_bind].
        now rewrite fold_countWord.
      * cbn [mbind option_bind]. rewrite fold_countWord.
        rewrite <- (set_chain_frequency_same g c Hc) at 1 2.
        reflexivity.
    + now rewrite (learn_nothing g c Hc).
Qed.

Lemma forEach_trainRawSentence (l : list string) (g : Game)
    (c : gomarkov.Chain) :
  markovChain g = Some c ->
  forEach trainRawSentence l g
  = Some (set_wordFrequency
            (fold_left learnFrequency (map sentenceWords l) (wordFrequency g))
            (set_markovChain
               (Some (fold_left learnChain (map sentenceWords l) c)) g)).
Proof.
  revert g c. induction l as [|s l IH]; intros g c Hc.
  - cbn [forEach map fold_left]. now rewrite (set_chain_frequency_same g c Hc).
  - cbn [forEach map fold_left].
    rewrite (trainRawSentence_spec g c s Hc). cbn [mbind option_bind].
    erewrite IH by reflexivity. reflexivity.
Qed.

Lemma loadRawTextAndTrain_spec (env : Env) (g : Game) (c : gomarkov.Chain)
    (text : string) :
  homeDirOk env = true ->
  rawTextFile env = Contents text ->
  markovChain g = Some c ->
  loadRawTextAndTrain env g
  = Some (set_wordFrequency
            (fold_left learnFrequency (rawSentences text) (wordFrequency g))
            (set_markovChain
               (Some (fold_left learnChain (rawSentences text) c)) g),
          None).
Proof.
  intros Hh Hf Hc. unfold loadRawTextAndTrain. rewrite Hh, Hf. cbn [negb].
  destruct (streq text "") eqn:E.
  - apply streq_true in E. subst text.
    change (rawSentences "") with (@nil (list string)). cbn [fold_left].
    now rewrite (set_chain_frequency_same g c Hc).
  - unfold rawSentences.
    rewrite (forEach_trainRawSentence _ g c Hc). reflexivity.
Qed.

Lemma rawSentences_words (text : string) (ws : list string) (w : string) :
  ws ∈ rawSentences text -> w ∈ ws ->
  w <> "" /\ strings.ToLower w = w
  /\ exists tok, w = strings.ToLower (cleanWord tok).
Proof.
  intros Hws Hw. unfold rawSentences in Hws.
  apply list_elem_of_In, in_map_iff in Hws as (s & <- & _).
  unfold sentenceWords in Hw.
  destruct (1 <? len (strings.Fields s)); [|inversion Hw].
  rewrite <- cleanWords_map in Hw.
  destruct (cleanWords_elem _ _ Hw) as (H1 & H2 & tok & _ & H3). eauto.
Qed.






(** ** What training puts into the chain and the frequency map *)

Lemma transitions_addPair_same (c : gomarkov.Chain) (a b : string) :
  transitions (gomarkov.addPair c a b) a b = transitions c a b + 1.
Proof.
  unfold transitions, gomarkov.addPair.
  rewrite lookup_insert_eq. cbn. now rewrite lookup_insert_eq.
Qed.

Lemma transitions_addPair_mono (c : gomarkov.Chain) (a b a' b' : string) :
  transitions c a' b' <= transitions (gomarkov.addPair c a b) a' b'.
Proof.
  destruct (decide (a = a')) as [<-|Ha].
  - destruct (decide (b = b')) as [<-|Hb].
    + rewrite transitions_addPair_same. lia.
    + unfold transitions, gomarkov.addPair.
      rewrite lookup_insert_eq. cbn. rewrite lookup_insert_ne by exact Hb. lia.
  - unfold transitions, gomarkov.addPair.
    rewrite lookup_insert_ne by exact Ha. lia.
Qed.

Lemma addPairs_cons (c : gomarkov.Chain) (a b : string) (l : list string) :
  gomarkov.addPairs c (a :: b :: l)
  = gomarkov.addPairs (gomarkov.addPair c a b) (b :: l).
Proof. reflexivity. Qed.

Lemma transitions_addPairs_mono (tokens : list string) (c : gomarkov.Chain)
    (a b : string) :
  transitions c a b <= transitions (gomarkov.addPairs c tokens) a b.
Proof.
  revert c. induction tokens as [|t1 tokens IH]; intros c; [cbn; lia|].
  destruct tokens as [|t2 tokens]; [cbn; lia|].
  rewrite addPairs_cons. etransitivity; [|apply IH].
  apply transitions_addPair_mono.
Qed.

Lemma transitions_addPairs_adjacent (tokens : list string)
    (c : gomarkov.Chain) (a b : string) :
  adjacent a b tokens ->
  transitions c a b + 1 <= transitions (gomarkov.addPairs c tokens) a b.
Proof.
  intros (l1 & l2 & ->). revert c.
  induction l1 as [|t l1 IH]; intros c.
  - cbn [app]. rewrite addPairs_cons.
    rewrite <- transitions_addPair_same. apply transitions_addPairs_mono.
  - destruct l1 as [|t' l1].
    + cbn [app] in *. rewrite addPairs_cons. etransitivity; [|apply IH].
      pose proof (transitions_addPair_mono c t a a b). lia.
    + cbn [app] in *. rewrite addPairs_cons. etransitivity; [|apply IH].
      pose proof (transitions_addPair_mono c t t' a b). lia.
Qed.

Lemma transitions_Add_mono (c : gomarkov.Chain) (ws : list string)
    (a b : string) :
  transitions c a b <= transitions (gomarkov.Add c ws) a b.
Proof. apply transitions_addPairs_mono. Qed.

Lemma transitions_fold_Add_mono (l : list (list string)) (c : gomarkov.Chain)
    (a b : string) :
  transitions c a b <= transitions (fold_left gomarkov.Add l c) a b.
Proof.
  revert c. induction l as [|s l IH]; intros c; cbn; [lia|].
  etransitivity; [|apply IH]. apply transitions_Add_mono.
Qed.

Lemma transitions_fold_Add_seen (l : list (list string)) (c : gomarkov.Chain)
    (s : list string) (a b : string) :
  s ∈ l ->
  adjacent a b ([gomarkov.StartToken] ++ s ++ [gomarkov.EndToken]) ->
  transitions c a b + 1 <= transitions (fold_left gomarkov.Add l c) a b.
Proof.
  intros Hs Hadj. revert c.
  induction Hs as [s l | s s' l _ IH]; intros c; cbn [fold_left].
  - etransitivity; [|apply transitions_fold_Add_mono].
    now apply transitions_addPairs_adjacent.
  - etransitivity; [|apply (IH Hadj)].
    pose proof (transitions_Add_mono c s' a b). lia.
Qed.

Lemma transitions_learnChain_mono (c : gomarkov.Chain) (ws : list string)
    (a b : string) :
  transitions c a b <= transitions (learnChain c ws) a b.
Proof.
  unfold learnChain. destruct (1 <? len ws); [apply transitions_Add_mono | lia].
Qed.

Lemma transitions_fold_learnChain_mono (l : list (list string))
    (c : gomarkov.Chain) (a b : string) :
  transitions c a b <= transitions (fold_left learnChain l c) a b.
Proof.
  revert c. induction l as [|s l IH]; intros c; cbn; [lia|].
  etransitivity; [|apply IH]. apply transitions_learnChain_mono.
Qed.

Lemma frequency_bump_same (m : gmap string Z) (w : string) :
  frequency (bump m w) w = frequency m w + 1.
Proof. unfold frequency at 1, bump. now rewrite lookup_insert_eq. Qed.

Lemma frequency_bump_mono (m : gmap string Z) (w v : string) :
  frequency m v <= frequency (bump m w) v.
Proof.
  destruct (decide (w = v)) as [<-|Hn].
  - rewrite frequency_bump_same. lia.
  - unfold frequency at 2, bump. rewrite lookup_insert_ne by exact Hn.
    unfold frequency. lia.
Qed.

Lemma frequency_learn_mono (ws : list string) (m : gmap string Z) (v : string) :
  frequency m v <= frequency (learnFrequency m ws) v.
Proof.
  unfold learnFrequency. revert m.
  induction ws as [|w ws IH]; intros m; cbn; [lia|].
  etransitivity; [|apply IH]. apply frequency_bump_mono.
Qed.

Lemma frequency_learn_seen (ws : list string) (m : gmap string Z) (v : string) :
  v ∈ ws -> frequency m v + 1 <= frequency (learnFrequency m ws) v.
Proof.
  unfold learnFrequency. intros Hv. revert m.
  induction Hv as [v ws | v w ws _ IH]; intros m; cbn.
  - rewrite <- frequency_bump_same. apply (frequency_learn_mono ws).
  - etransitivity; [|apply IH]. pose proof (frequency_bump_mono m w v). lia.
Qed.

Lemma frequency_fold_learn_mono (l : list (list string)) (m : gmap string Z)
    (v : string) :
  frequency m v <= frequency (fold_left learnFrequency l m) v.
Proof.
  revert m. induction l as [|s l IH]; intros m; cbn; [lia|].
  etransitivity; [|apply IH]. apply frequency_learn_mono.
Qed.

Lemma frequency_fold_learn_seen (l : list (list string)) (m : gmap string Z)
    (ws : list string) (v : string) :
  ws ∈ l -> v ∈ ws ->
  frequency m v + 1 <= frequency (fold_left learnFrequency l m) v.
Proof.
  intros Hs Hv. revert m.
  induction Hs as [ws l | ws ws' l _ IH]; intros m; cbn [fold_left].
  - etransitivity; [|apply frequency_fold_learn_mono].
    now apply frequency_learn_seen.
  - etransitivity; [|apply (IH Hv)].
    pose proof (frequency_learn_mono ws' m v). lia.
Qed.

Lemma fold_countWord_lower (s : list string) (g : Game) :
  fold_left (fun g word => countWord g (strings.ToLower word)) s g
  = set_wordFrequency
      (learnFrequency (wordFrequency g) (map strings.ToLower s)) g.
Proof.
  revert g. induction s as [|w s IH]; intros g; cbn [fold_left map].
  - unfold learnFrequency. cbn. now rewrite set_wordFrequency_same.
  - rewrite IH. reflexivity.
Qed.

Lemma trainSentence_spec (g : Game) (c : gomarkov.Chain) (s : list string) :
  markovChain g = Some c ->
  trainSentence g s
  = Some (set_wordFrequency
            (learnFrequency (wordFrequency g) (map strings.ToLower s))
            (set_markovChain (Some (gomarkov.Add c s)) g)).
Proof.
  intros Hc. unfold trainSentence.
  rewrite (chainAdd_Some _ _ _ Hc). cbn [mbind option_bind].
  now rewrite fold_countWord_lower.
Qed.

Lemma forEach_trainSentence (l : list (list string)) (g : Game)
    (c : gomarkov.Chain) :
  markovChain g = Some c ->
  forEach trainSentence l g
  = Some (set_wordFrequency
            (fold_left learnFrequency (map (map strings.ToLower) l)
               (wordFrequency g))
            (set_markovChain (Some (fold_left gomarkov.Add l c)) g)).
Proof.
  revert g c. induction l as [|s l IH]; intros g c Hc.
  - cbn [forEach map fold_left]. now rewrite (set_chain_frequency_same g c Hc).
  - cbn [forEach map fold_left].
    rewrite (trainSentence_spec g c s Hc). cbn [mbind option_bind].
    erewrite IH by reflexivity. reflexivity.
Qed.

Lemma loadRawTextAndTrain_grows (env : Env) (g : Game) (c : gomarkov.Chain) :
  markovChain g = Some c ->
  exists c' m' err,
    loadRawTextAndTrain env g
    = Some (set_wordFrequency m' (set_markovChain (Some c') g), err)
    /\ (forall a b, transitions c a b <= transitions c' a b)
    /\ (forall v, frequency (wordFrequency g) v <= frequency m' v).
Proof.
  intros Hc.
  assert (Hsame : forall err : option error,
             exists c' m' err',
               Some (g, err)
               = Some (set_wordFrequency m' (set_markovChain (Some c') g), err')
               /\ (forall a b, transitions c a b <= transitions c' a b)
               /\ (forall v, frequency (wordFrequency g) v <= frequency m' v)).
  { intros err. exists c, (wordFrequency g), err.
    rewrite (set_chain_frequency_same g c Hc).
    split; [reflexivity|]. split; intros; lia. }
  destruct (homeDirOk env) eqn:Hh.
  - destruct (rawTextFile env) as [| |text] eqn:Hf.
    + unfold loadRawTextAndTrain. rewrite Hh, Hf. apply Hsame.
    + unfold loadRawTextAndTrain. rewrite Hh, Hf. apply Hsame.
    + rewrite (loadRawTextAndTrain_spec env g c text Hh Hf Hc).
      eexists. eexists. eexists. split; [reflexivity|]. split.
      * intros a b. apply transitions_fold_learnChain_mono.
      * intros v. apply frequency_fold_learn_mono.
  - unfold loadRawTextAndTrain. rewrite Hh. apply Hsame.
Qed.

Lemma transitions_empty (a b : string) : transitions ∅ a b = 0.
Proof. unfold transitions. rewrite lookup_empty. cbn. now rewrite lookup_empty. Qed.

Lemma frequency_empty (w : string) : frequency ∅ w = 0.
Proof. unfold frequency. now rewrite lookup_empty. Qed.

(** ** Start-up without a saved training file *)

(** C8.  When the training-sentence file does not exist, [loadTrainingData]
    reports no error and leaves an empty list; the initialisation then
    takes the built-in seed sentences as the training data and trains both
    models on them: afterwards the training data is the seed list, every
    adjacency of every seed sentence (start and end tokens included) is in
    the chain and every seed word, lower-cased, is counted, whatever the raw
    text file held. *)
Theorem C8_missing_file_loads_seeds (env : Env) (g : Game) :
  homeDirOk env = true ->
  trainingDataFile env = NotExist ->
  markovChain g = None ->
  loadTrainingData env g = (set_trainingData [] g, None)
  /\ exists g' c,
       initMarkov env g = Some g'
       /\ trainingData g' = seedSentences
       /\ trainingData g' <> []
       /\ markovChain g' = Some c
       /\ (forall s a b,
             s ∈ seedSentences ->
             adjacent a b ([gomarkov.StartToken] ++ s ++ [gomarkov.EndToken]) ->
             1 <= transitions c a b)
       /\ (forall s w,
             s ∈ seedSentences -> w ∈ s ->
             1 <= frequency (wordFrequency g') (strings.ToLower w)).
Proof.
  intros Hh Hf Hc.
  assert (Hload : forall g0, loadTrainingData env g0
                             = (set_trainingData [] g0, None)).
  { intros g0. unfold loadTrainingData. now rewrite Hh, Hf. }
  split; [apply Hload|].
  unfold initMarkov. rewrite Hc, Hload.
  cbn [fst trainingData set_trainingData].
  change (len (@nil (list string)) =? 0) with true. cbv iota.
  cbn [trainingData set_trainingData].
  erewrite forEach_trainSentence by reflexivity.
  cbn [mbind option_bind].
  match goal with
  | |- context [loadRawTextAndTrain env ?g4] =>
      destruct (loadRawTextAndTrain_grows env g4 _ eq_refl)
        as (c' & m' & err & -> & Hgrow & Hfreq)
  end.
  cbn [mbind option_bind].
  match goal with
  | |- context [updatePrediction ?g5] =>
      destruct (updatePrediction_total g5) as (p & ->)
  end.
  eexists. exists c'. split; [reflexivity|].
  split; [reflexivity|]. split; [discriminate|]. split; [reflexivity|].
  split.
  - intros s a b Hs Hadj. etransitivity; [|apply Hgrow].
    pose proof (transitions_fold_Add_seen seedSentences ∅ s a b Hs Hadj) as H.
    rewrite transitions_empty in H. exact H.
  - intros s w Hs Hw. cbn [wordFrequency set_nextPrediction set_wordFrequency].
    etransitivity; [|apply Hfreq].
    cbn [wordFrequency set_wordFrequency set_markovChain set_trainingData].
    pose proof (frequency_fold_learn_seen
                  (map (map strings.ToLower) seedSentences) ∅
                  (map strings.ToLower s) (strings.ToLower w)) as H.
    rewrite frequency_empty in H. apply H.
    + apply list_elem_of_fmap. exists s. split; [reflexivity | exact Hs].
    + apply list_elem_of_fmap. exists w. split; [reflexivity | exact Hw].
Qed.

(** ** The context tokens of the chain *)








(** ** Rounding of [float64] operations

    The kernel's floats are specified by [SpecFloat] through [Prim2SF]; what
    follows bounds the result of an addition and of a division from that
    specification: rounding keeps the sign and adds at most one binary
    digit. *)

Lemma digits2_pos_bounds (p : positive) :
  2 ^ (Z.pos (digits2_pos p) - 1) <= Z.pos p < 2 ^ Z.pos (digits2_pos p).
Proof.
  induction p as [p IH|p IH|]; cbn [digits2_pos].
  - rewrite Pos2Z.inj_succ.
    replace (Z.succ (Z.pos (digits2_pos p)) - 1) with (Z.succ (Z.pos (digits2_pos p) - 1)) by lia.
    rewrite !Z.pow_succ_r by lia. lia.
  - rewrite Pos2Z.inj_succ.
    replace (Z.succ (Z.pos (digits2_pos p)) - 1) with (Z.succ (Z.pos (digits2_pos p) - 1)) by lia.
    rewrite !Z.pow_succ_r by lia. lia.
  - cbn. lia.
Qed.

Lemma Zdigits2_nonneg (m : Z) : 0 <= Zdigits2 m.
Proof. destruct m; cbn; lia. Qed.

Lemma Zdigits2_le (m k : Z) : 0 <= m -> 0 <= k -> m < 2 ^ k -> Zdigits2 m <= k.
Proof.
  intros Hm Hk H. destruct m as [|p|p]; cbn; [lia| |lia].
  pose proof (digits2_pos_bounds p) as [Hlo _].
  destruct (Z_le_gt_dec (Z.pos (digits2_pos p)) k) as [|Hgt]; [assumption|].
  exfalso. assert (2 ^ k <= 2 ^ (Z.pos (digits2_pos p) - 1)) by (apply Z.pow_le_mono_r; lia).
  lia.
Qed.

Lemma Zdigits2_lt_pow (m : Z) : 0 <= m -> m < 2 ^ Zdigits2 m.
Proof.
  intros Hm. destruct m as [|p|p]; cbn [Zdigits2]; [cbn; lia| |lia].
  apply digits2_pos_bounds.
Qed.

Lemma Zdigits2_bound (m k : Z) : 0 <= m -> Zdigits2 m <= k -> m < 2 ^ k.
Proof.
  intros Hm Hk. pose proof (Zdigits2_lt_pow m Hm). pose proof (Zdigits2_nonneg m).
  assert (2 ^ Zdigits2 m <= 2 ^ k) by (apply Z.pow_le_mono_r; lia). lia.
Qed.

Lemma shr_1_m (mrs : shr_record) :
  0 <= shr_m mrs -> shr_m (shr_1 mrs) = shr_m mrs / 2.
Proof.
  destruct mrs as [m r s]. cbn [shr_m shr_1]. intros Hm.
  destruct m as [|[p|p|]|p]; cbn [shr_m].
  - reflexivity.
  - rewrite (Pos2Z.inj_xI p). apply Z.div_unique with (r := 1); lia.
  - rewrite (Pos2Z.inj_xO p). apply Z.div_unique with (r := 0); lia.
  - reflexivity.
  - lia.
Qed.

Lemma Zdigits2_half (m : Z) :
  0 <= m -> 0 <= m / 2 /\ Zdigits2 (m / 2) <= Z.max (Zdigits2 m - 1) 0.
Proof.
  intros Hm. assert (H0 : 0 <= m / 2) by (apply Z.div_pos; lia).
  split; [exact H0|].
  pose proof (Zdigits2_nonneg m) as Hd.
  destruct (Z.eq_dec (Zdigits2 m) 0) as [E|E].
  - assert (Hm0 : m < 2 ^ 0) by (rewrite <- E; now apply Zdigits2_lt_pow).
    rewrite Z.pow_0_r in Hm0. replace m with 0 by lia.
    rewrite Z.div_0_l by lia. cbn [Zdigits2]. lia.
  - apply Z.le_trans with (Zdigits2 m - 1); [|lia].
    apply Zdigits2_le; [exact H0 | lia |].
    pose proof (Zdigits2_lt_pow m Hm) as Hlt.
    replace (Zdigits2 m) with (Z.succ (Zdigits2 m - 1)) in Hlt by lia.
    rewrite Z.pow_succ_r in Hlt by lia.
    apply Z.div_lt_upper_bound; lia.
Qed.

Lemma iter_shr_1 (n : positive) (mrs : shr_record) :
  0 <= shr_m mrs ->
  0 <= shr_m (SpecFloat.iter_pos shr_1 n mrs)
  /\ Zdigits2 (shr_m (SpecFloat.iter_pos shr_1 n mrs)) <= Z.max (Zdigits2 (shr_m mrs) - Z.pos n) 0.
Proof.
  revert mrs. induction n as [n IH|n IH|]; intros mrs Hm; cbn [SpecFloat.iter_pos].
  - assert (H1 : 0 <= shr_m (shr_1 mrs) /\ Zdigits2 (shr_m (shr_1 mrs)) <= Z.max (Zdigits2 (shr_m mrs) - 1) 0).
    { rewrite shr_1_m by exact Hm. now apply Zdigits2_half. }
    destruct H1 as [A1 B1].
    destruct (IH _ A1) as [A2 B2]. destruct (IH _ A2) as [A3 B3].
    split; [exact A3|]. rewrite Pos2Z.inj_xI. lia.
  - destruct (IH _ Hm) as [A2 B2]. destruct (IH _ A2) as [A3 B3].
    split; [exact A3|]. rewrite Pos2Z.inj_xO. lia.
  - rewrite shr_1_m by exact Hm. now apply Zdigits2_half.
Qed.

Lemma shr_record_of_loc_m (m : Z) (l : location) : shr_m (shr_record_of_loc m l) = m.
Proof. destruct l as [|[]]; reflexivity. Qed.

Lemma shr_fexp_bound (m e : Z) (l : location) :
  0 <= m ->
  let '(mrs', e') := shr_fexp prec emax m e l in
  0 <= shr_m mrs'
  /\ Zdigits2 (shr_m mrs') + e' <= Z.max (Zdigits2 m + e) emin
  /\ e' <= Z.max e (fexp prec emax (Zdigits2 m + e)).
Proof.
  intros Hm. unfold shr_fexp, shr.
  pose proof (Zdigits2_nonneg m) as Hd.
  destruct (fexp prec emax (Zdigits2 m + e) - e) as [|n|n] eqn:En.
  - rewrite shr_record_of_loc_m. lia.
  - destruct (iter_shr_1 n (shr_record_of_loc m l)) as [HA HB].
    { now rewrite shr_record_of_loc_m. }
    rewrite shr_record_of_loc_m in HB.
    split; [exact HA|]. unfold fexp, SpecFloat.emin, prec, emax in *. lia.
  - rewrite shr_record_of_loc_m. lia.
Qed.

Lemma round_nearest_even_bound (m : Z) (l : location) :
  0 <= m ->
  0 <= round_nearest_even m l
  /\ Zdigits2 (round_nearest_even m l) <= Zdigits2 m + 1.
Proof.
  intros Hm.
  assert (H1 : 0 <= m + 1 /\ Zdigits2 (m + 1) <= Zdigits2 m + 1).
  { split; [lia|]. pose proof (Zdigits2_nonneg m).
    apply Zdigits2_le; [lia | lia |].
    pose proof (Zdigits2_lt_pow m Hm). rewrite Z.pow_add_r by lia. cbn. lia. }
  unfold round_nearest_even. destruct l as [|[]].
  - split; lia.
  - destruct (Z.even m); [split; lia | exact H1].
  - split; lia.
  - exact H1.
Qed.

(** the result of rounding: the sign is kept and the magnitude grows by at
    most one binary digit *)
Lemma binary_round_aux_bound (sx : bool) (mx ex : Z) (lx : location) (B : Z) :
  0 <= mx ->
  Zdigits2 mx + ex <= B ->
  emin <= B ->
  B + 1 <= emax - prec ->
  binary_round_aux prec emax sx mx ex lx = S754_zero sx
  \/ exists m e,
       binary_round_aux prec emax sx mx ex lx = S754_finite sx m e
       /\ Z.pos (digits2_pos m) + e <= B + 1.
Proof.
  intros Hm HB Hlo Hhi. unfold binary_round_aux.
  pose proof (shr_fexp_bound mx ex lx Hm) as H1.
  destruct (shr_fexp prec emax mx ex lx) as [mrs' e'].
  destruct H1 as (A1 & B1 & C1).
  destruct (round_nearest_even_bound (shr_m mrs') (loc_of_shr_record mrs') A1) as [A2 B2].
  pose proof (shr_fexp_bound (round_nearest_even (shr_m mrs') (loc_of_shr_record mrs')) e' loc_Exact A2) as H3.
  destruct (shr_fexp prec emax _ e' loc_Exact) as [mrs'' e''].
  destruct H3 as (A3 & B3 & C3).
  pose proof (Zdigits2_nonneg mx). pose proof (Zdigits2_nonneg (shr_m mrs')).
  pose proof (Zdigits2_nonneg (round_nearest_even (shr_m mrs') (loc_of_shr_record mrs'))).
  destruct (shr_m mrs'') as [|m|m] eqn:Em; [now left| |lia].
  right. cbn [Zdigits2] in B3.
  assert (Hd : Z.pos (digits2_pos m) + e'' <= B + 1) by (unfold fexp, SpecFloat.emin, prec, emax in *; lia).
  assert (He : e'' <= emax - prec) by (unfold fexp, SpecFloat.emin, prec, emax in *; lia).
  apply Z.leb_le in He. rewrite He. eauto.
Qed.

Lemma iter_xO_digits (m d : positive) :
  Z.pos (digits2_pos (Pos.iter xO m d)) = Z.pos (digits2_pos m) + Z.pos d.
Proof.
  induction d as [|d IH] using Pos.peano_ind.
  - cbn. lia.
  - rewrite Pos.iter_succ. cbn [digits2_pos]. rewrite !Pos2Z.inj_succ, IH. lia.
Qed.

Lemma iter_xO_value (m d : positive) :
  Z.pos (Pos.iter xO m d) = Z.pos m * 2 ^ Z.pos d.
Proof.
  induction d as [|d IH] using Pos.peano_ind.
  - cbn. lia.
  - rewrite Pos.iter_succ, Pos2Z.inj_xO, IH, Pos2Z.inj_succ, Z.pow_succ_r by lia.
    lia.
Qed.

Lemma shl_align_digits (mx : positive) (ex ex' : Z) :
  Z.pos (digits2_pos (fst (shl_align mx ex ex'))) + snd (shl_align mx ex ex')
  = Z.pos (digits2_pos mx) + ex.
Proof.
  unfold shl_align. destruct (ex' - ex) as [|d|d] eqn:E; cbn [fst snd]; try reflexivity.
  rewrite iter_xO_digits. lia.
Qed.

Lemma binary_round_bound (sx : bool) (mx : positive) (ex B : Z) :
  Z.pos (digits2_pos mx) + ex <= B ->
  emin <= B ->
  B + 1 <= emax - prec ->
  binary_round prec emax sx mx ex = S754_zero sx
  \/ exists m e,
       binary_round prec emax sx mx ex = S754_finite sx m e
       /\ Z.pos (digits2_pos m) + e <= B + 1.
Proof.
  intros HB Hlo Hhi. unfold binary_round.
  pose proof (shl_align_digits mx ex (fexp prec emax (Z.pos (digits2_pos mx) + ex))) as Hd.
  destruct (shl_align mx ex _) as [mz ez]. cbn [fst snd] in Hd.
  apply binary_round_aux_bound; cbn [Zdigits2]; lia.
Qed.

Lemma valid_digits (f : float) (s : bool) (m : positive) (e : Z) :
  Prim2SF f = S754_finite s m e -> Z.pos (digits2_pos m) <= 53.
Proof.
  intros H. pose proof (Prim2SF_valid f) as Hv. rewrite H in Hv.
  cbn [valid_binary] in Hv. unfold bounded, canonical_mantissa in Hv.
  apply andb_prop in Hv as [Hc _]. apply Z.eqb_eq in Hc.
  unfold fexp, SpecFloat.emin, prec, emax in Hc. lia.
Qed.

Lemma Prim2SF_Pi : Prim2SF Pi = S754_finite false 7074237752028440 (-51).
Proof. vm_compute. reflexivity. Qed.

Lemma Prim2SF_twoPi : Prim2SF (2 * Pi)%float = S754_finite false 7074237752028440 (-50).
Proof. vm_compute. reflexivity. Qed.

Lemma Prim2SF_negPi : Prim2SF (- Pi)%float = S754_finite true 7074237752028440 (-51).
Proof. vm_compute. reflexivity. Qed.

Lemma Prim2SF_zero : Prim2SF 0%float = S754_zero false.
Proof. vm_compute. reflexivity. Qed.

Lemma smallNonneg_of_round (sx : bool) (r : spec_float) (B : Z) :
  (r = S754_zero false
   \/ exists m e, r = S754_finite false m e /\ Z.pos (digits2_pos m) + e <= B) ->
  smallNonneg B r.
Proof. intros [-> | (m & e & -> & H)]; cbn; auto. Qed.

(** a negative angle no smaller than [-4] plus 2π is positive and below 16 *)
Lemma add_twoPi_small (a : float) (m : positive) (e : Z) :
  Prim2SF a = S754_finite true m e ->
  e <= -51 ->
  smallNonneg 4 (Prim2SF (a + 2 * Pi)%float).
Proof.
  intros Ha He. pose proof (valid_digits a _ _ _ Ha) as Hd.
  rewrite add_spec, Ha, Prim2SF_twoPi. unfold SF64add, SFadd.
  replace (Z.min e (-50)) with e by lia.
  assert (E1 : shl_align m e e = (m, e)).
  { unfold shl_align. now rewrite Z.sub_diag. }
  rewrite E1. cbn [fst cond_Zopp].
  unfold shl_align. destruct (e - -50) as [|d|d] eqn:Ed; try lia.
  cbn [fst].
  pose proof (iter_xO_value 7074237752028440%positive d) as Hv.
  pose proof (digits2_pos_bounds m) as [_ Hm].
  assert (Hpow : 2 <= 2 ^ Z.pos d).
  { change 2 with (2 ^ 1) at 1. apply Z.pow_le_mono_r; lia. }
  assert (H53 : 2 ^ Z.pos (digits2_pos m) <= 2 ^ 53) by (apply Z.pow_le_mono_r; lia).
  change (2 ^ 53) with 9007199254740992 in H53.
  destruct (- Z.pos m + Z.pos (Pos.iter xO 7074237752028440%positive d)) as [|s|s] eqn:Es;
    try (exfalso; nia).
  cbn [binary_normalize]. apply (smallNonneg_of_round false).
  apply binary_round_bound with (B := 3); [|unfold SpecFloat.emin, prec, emax; lia|unfold prec, emax; lia].
  assert (Hs : Z.pos s < 2 ^ (53 + Z.pos d)).
  { rewrite Z.pow_add_r by lia. change (2 ^ 53) with 9007199254740992. nia. }
  pose proof (Zdigits2_le (Z.pos s) (53 + Z.pos d) ltac:(lia) ltac:(lia) Hs) as Hds.
  cbn [Zdigits2] in Hds. lia.
Qed.

Lemma SFleb_true (x y : spec_float) :
  SFleb x y = true -> SFcompare x y = Some Lt \/ SFcompare x y = Some Eq.
Proof. unfold SFleb. destruct (SFcompare x y) as [[]|]; auto; discriminate. Qed.

(** the normalised angle of an [a] within [-π, π] is zero, or positive and
    below 16 *)
Lemma normalized_small (a : float) :
  (- Pi <=? a)%float = true ->
  (a <=? Pi)%float = true ->
  smallNonneg 4
    (Prim2SF (if (a <? 0)%float then (a + 2 * Pi)%float else a)).
Proof.
  intros Hlo Hhi. rewrite leb_spec in Hlo, Hhi. rewrite ltb_spec.
  rewrite Prim2SF_negPi in Hlo. rewrite Prim2SF_Pi in Hhi. rewrite Prim2SF_zero.
  destruct (Prim2SF a) as [s|s| |s m e] eqn:Ha.
  - replace (SFltb (S754_zero s) (S754_zero false)) with false by reflexivity.
    rewrite Ha. exact I.
  - destruct s; discriminate.
  - discriminate.
  - destruct s.
    + (* negative: 2π is added *)
      replace (SFltb (S754_finite true m e) (S754_zero false)) with true by reflexivity.
      apply (add_twoPi_small a m e Ha).
      unfold SFleb, SFcompare in Hlo.
      destruct (-51 ?= e) eqn:Ec; try discriminate.
      * apply Z.compare_eq in Ec. lia.
      * assert (-51 > e) by exact Ec. lia.
    + replace (SFltb (S754_finite false m e) (S754_zero false)) with false by reflexivity.
      rewrite Ha. cbn [smallNonneg].
      pose proof (valid_digits a _ _ _ Ha) as Hd.
      unfold SFleb, SFcompare in Hhi.
      destruct (e ?= -51) eqn:Ec; try discriminate.
      * apply Z.compare_eq in Ec. lia.
      * assert (e < -51) by exact Ec. lia.
Qed.

Lemma div_core_bound (m M : positive) (e E : Z) :
  let '(q, e', _) := SFdiv_core_binary prec emax (Z.pos m) e (Z.pos M) E in
  0 <= q /\ Zdigits2 q + e' <= Z.pos (digits2_pos m) + e - E.
Proof.
  unfold SFdiv_core_binary.
  set (e' := Z.min (fexp prec emax (Zdigits2 (Z.pos m) + e - (Zdigits2 (Z.pos M) + E))) (e - E)).
  assert (He' : e' <= e - E) by (unfold e'; lia).
  set (s := e - E - e').
  set (m' := match s with
             | 0 => Z.pos m
             | Z.pos _ => Z.shiftl (Z.pos m) s
             | Z.neg _ => 0
             end).
  assert (Hm' : 0 <= m' < 2 ^ (Z.pos (digits2_pos m) + s)).
  { pose proof (digits2_pos_bounds m) as [_ Hm].
    unfold m'. destruct s as [|p|p] eqn:Es; try lia.
    - rewrite Z.add_0_r. lia.
    - rewrite Z.shiftl_mul_pow2 by lia. rewrite Z.pow_add_r by lia.
      assert (0 < 2 ^ Z.pos p) by (apply Z.pow_pos_nonneg; lia). nia. }
  pose proof (Z_div_mod m' (Z.pos M) ltac:(lia)) as Hdiv.
  destruct (Z.div_eucl m' (Z.pos M)) as [q r]. destruct Hdiv as [Heq Hr].
  assert (Hq : 0 <= q <= m') by nia.
  split; [lia|].
  assert (Zdigits2 q <= Z.pos (digits2_pos m) + s).
  { apply Zdigits2_le; lia. }
  unfold s in *. lia.
Qed.

(** dividing a small non-negative float by a positive one gives a small
    non-negative float *)
Lemma div_small (x y : float) (M : positive) (E B : Z) :
  smallNonneg B (Prim2SF x) ->
  Prim2SF y = S754_finite false M E ->
  emin <= B - E ->
  B - E + 1 <= emax - prec ->
  smallNonneg (B - E + 1) (Prim2SF (x / y)%float).
Proof.
  intros Hx Hy Hlo Hhi. rewrite div_spec, Hy. unfold SF64div, SFdiv.
  destruct (Prim2SF x) as [s|s| |s m e]; cbn [smallNonneg] in Hx; try contradiction.
  - exact I.
  - destruct s; [contradiction|].
    pose proof (div_core_bound m M e E) as Hc.
    destruct (SFdiv_core_binary prec emax (Z.pos m) e (Z.pos M) E) as [[q e'] l].
    destruct Hc as [Hq Hd]. cbn [xorb].
    apply (smallNonneg_of_round false).
    apply binary_round_aux_bound; lia.
Qed.

Lemma floor_of_small (f : float) :
  smallNonneg 62 (Prim2SF f) ->
  exists k, floor_float64 f = Some k /\ 0 <= k < 2 ^ 63.
Proof.
  unfold floor_float64. destruct (Prim2SF f) as [s|s| |s m e]; cbn [smallNonneg];
    try contradiction.
  - intros _. exists 0. split; [reflexivity | lia].
  - destruct s; [contradiction|]. intros Hd. eexists. split; [reflexivity|].
    pose proof (digits2_pos_bounds m) as [_ Hm].
    destruct (0 <=? e) eqn:He.
    + apply Z.leb_le in He. split; [nia|].
      apply Z.lt_le_trans with (2 ^ Z.pos (digits2_pos m) * 2 ^ e).
      * assert (0 < 2 ^ e) by (apply Z.pow_pos_nonneg; lia). nia.
      * rewrite <- Z.pow_add_r by lia. apply Z.pow_le_mono_r; lia.
    + apply Z.leb_gt in He.
      assert (0 < 2 ^ (- e)) by (apply Z.pow_pos_nonneg; lia).
      split; [apply Z.div_pos; lia|].
      apply Z.div_lt_upper_bound; [lia|].
      apply Z.lt_le_trans with (2 ^ Z.pos (digits2_pos m)); [exact Hm|].
      rewrite <- Z.pow_add_r by lia. apply Z.pow_le_mono_r; lia.
Qed.

(** ** The upper bound of the normalised angle *)

Lemma pow_xO (n : positive) : 2 ^ Z.pos n~0 = 2 ^ Z.pos n * 2 ^ Z.pos n.
Proof. rewrite <- Z.pow_add_r by lia. f_equal. lia. Qed.

Lemma pow_xI (n : positive) : 2 ^ Z.pos n~1 = 2 * (2 ^ Z.pos n * 2 ^ Z.pos n).
Proof.
  rewrite <- Z.pow_add_r, <- Z.pow_succ_r by lia. f_equal. lia.
Qed.

Lemma iter_shr_1_exact (n : positive) (mrs : shr_record) :
  0 <= shr_m mrs ->
  shr_m (SpecFloat.iter_pos shr_1 n mrs) = shr_m mrs / 2 ^ Z.pos n.
Proof.
  revert mrs. induction n as [n IH|n IH|]; intros mrs Hm; cbn [SpecFloat.iter_pos].
  - assert (H1 : 0 <= shr_m (shr_1 mrs)).
    { rewrite shr_1_m by exact Hm. now apply Zdigits2_half. }
    destruct (iter_shr_1 n _ H1) as [H2 _].
    rewrite (IH _ H2), (IH _ H1), shr_1_m by exact Hm.
    assert (0 < 2 ^ Z.pos n) by (apply Z.pow_pos_nonneg; lia).
    rewrite !Z.div_div by lia. now rewrite pow_xI.
  - destruct (iter_shr_1 n _ Hm) as [H2 _].
    rewrite (IH _ H2), (IH _ Hm).
    assert (0 < 2 ^ Z.pos n) by (apply Z.pow_pos_nonneg; lia).
    rewrite !Z.div_div by lia. now rewrite pow_xO.
  - rewrite shr_1_m by exact Hm. reflexivity.
Qed.

(** [shr_fexp] shifts right: the exponent does not decrease and the value
    does not increase *)
Lemma shr_fexp_exact (m e : Z) (l : location) :
  0 <= m ->
  let '(mrs', e') := shr_fexp prec emax m e l in
  e <= e' /\ e' - e = Z.max 0 (fexp prec emax (Zdigits2 m + e) - e)
  /\ shr_m mrs' = m / 2 ^ (e' - e).
Proof.
  intros Hm. unfold shr_fexp, shr.
  destruct (fexp prec emax (Zdigits2 m + e) - e) as [|n|n] eqn:En.
  - rewrite shr_record_of_loc_m, Z.sub_diag, Z.div_1_r. lia.
  - rewrite iter_shr_1_exact by (now rewrite shr_record_of_loc_m).
    rewrite shr_record_of_loc_m.
    replace (e + Z.pos n - e) with (Z.pos n) by lia. lia.
  - rewrite shr_record_of_loc_m, Z.sub_diag, Z.div_1_r. lia.
Qed.

Lemma round_nearest_even_le (m : Z) (l : location) :
  round_nearest_even m l <= m + 1.
Proof.
  unfold round_nearest_even. destruct l as [|[]]; try lia.
  destruct (Z.even m); lia.
Qed.

(** rounding does not step over a bound [U] that lies on the grid of the
    first shift *)
Lemma binary_round_aux_le (sx : bool) (mx ex U : Z) (lx : location)
    (m : positive) (e : Z) :
  0 <= mx ->
  mx < U ->
  (2 ^ Z.max 0 (fexp prec emax (Zdigits2 mx + ex) - ex) | U) ->
  binary_round_aux prec emax sx mx ex lx = S754_finite sx m e ->
  ex <= e /\ Z.pos m * 2 ^ (e - ex) <= U.
Proof.
  intros Hm HU Hdiv. unfold binary_round_aux.
  pose proof (shr_fexp_exact mx ex lx Hm) as H1.
  pose proof (shr_fexp_bound mx ex lx Hm) as H1'.
  destruct (shr_fexp prec emax mx ex lx) as [mrs' e'].
  destruct H1 as (A1 & B1 & C1). destruct H1' as (A1' & _).
  rewrite <- B1 in Hdiv.
  pose proof (round_nearest_even_le (shr_m mrs') (loc_of_shr_record mrs')) as Hr.
  destruct (round_nearest_even_bound (shr_m mrs') (loc_of_shr_record mrs') A1') as [A2 _].
  set (m2 := round_nearest_even (shr_m mrs') (loc_of_shr_record mrs')) in *.
  pose proof (shr_fexp_exact m2 e' loc_Exact A2) as H3.
  destruct (shr_fexp prec emax m2 e' loc_Exact) as [mrs'' e''].
  destruct H3 as (A3 & B3 & C3).
  destruct (shr_m mrs'') as [|m''|m''] eqn:Em; try discriminate.
  destruct (e'' <=? emax - prec); [|discriminate].
  intros [= <- <-]. split; [lia|].
  assert (P1 : 0 < 2 ^ (e' - ex)) by (apply Z.pow_pos_nonneg; lia).
  assert (P2 : 0 < 2 ^ (e'' - e')) by (apply Z.pow_pos_nonneg; lia).
  (* the first shift and the rounding stay at or below U *)
  assert (S1 : m2 * 2 ^ (e' - ex) <= U).
  { destruct Hdiv as [c Hc].
    assert (mx / 2 ^ (e' - ex) < c).
    { apply Z.div_lt_upper_bound; [lia|]. nia. }
    nia. }
  (* the second shift only drops digits *)
  assert (S2 : Z.pos m'' * 2 ^ (e'' - e') <= m2).
  { rewrite C3. rewrite Z.mul_comm. apply Z.mul_div_le. lia. }
  replace (e'' - ex) with ((e'' - e') + (e' - ex)) by lia.
  rewrite Z.pow_add_r by lia. nia.
Qed.

Lemma valid_exponent (f : float) (s : bool) (m : positive) (e : Z) :
  Prim2SF f = S754_finite s m e ->
  e = Z.max (Z.pos (digits2_pos m) + e - 53) (-1074).
Proof.
  intros H. pose proof (Prim2SF_valid f) as Hv. rewrite H in Hv.
  cbn [valid_binary] in Hv. unfold bounded, canonical_mantissa in Hv.
  apply andb_prop in Hv as [Hc _]. apply Z.eqb_eq in Hc.
  unfold fexp, SpecFloat.emin, prec, emax in Hc. lia.
Qed.

Lemma compare_cont_le (p q : positive) :
  Z.pos p <= Z.pos q -> PosDef.Pos.compare_cont Eq p q <> Gt.
Proof.
  intros H. change (PosDef.Pos.compare_cont Eq p q) with (Pos.compare p q).
  destruct (Pos.compare_spec p q); try discriminate. lia.
Qed.

Lemma compare_cont_gt (p q : positive) :
  Z.pos p > Z.pos q -> PosDef.Pos.compare_cont Eq p q = Gt.
Proof.
  intros H. change (PosDef.Pos.compare_cont Eq p q) with (Pos.compare p q).
  destruct (Pos.compare_spec p q); try reflexivity; lia.
Qed.

(** the sum of a negative [a] above [-4] and 2π, before rounding *)
Lemma add_twoPi_form (a : float) (m : positive) (e : Z) :
  Prim2SF a = S754_finite true m e ->
  e <= -51 ->
  exists s d,
    Z.pos d = -50 - e
    /\ Z.pos s = 7074237752028440 * 2 ^ Z.pos d - Z.pos m
    /\ Z.pos m < 2 ^ 53
    /\ Prim2SF (a + 2 * Pi)%float = binary_round prec emax false s e.
Proof.
  intros Ha He. pose proof (valid_digits a _ _ _ Ha) as Hd.
  rewrite add_spec, Ha, Prim2SF_twoPi. unfold SF64add, SFadd.
  replace (Z.min e (-50)) with e by lia.
  assert (E1 : shl_align m e e = (m, e)).
  { unfold shl_align. now rewrite Z.sub_diag. }
  rewrite E1. cbn [fst cond_Zopp].
  unfold shl_align. destruct (e - -50) as [|d|d] eqn:Ed; try lia.
  cbn [fst].
  pose proof (iter_xO_value 7074237752028440%positive d) as Hv.
  pose proof (digits2_pos_bounds m) as [_ Hm].
  assert (Hpow : 2 <= 2 ^ Z.pos d).
  { change 2 with (2 ^ 1) at 1. apply Z.pow_le_mono_r; lia. }
  assert (H53 : 2 ^ Z.pos (digits2_pos m) <= 2 ^ 53) by (apply Z.pow_le_mono_r; lia).
  change (2 ^ 53) with 9007199254740992 in *.
  destruct (- Z.pos m + Z.pos (Pos.iter xO 7074237752028440%positive d)) as [|s|s] eqn:Es;
    try (exfalso; nia).
  exists s, d. repeat split; try lia. 
Qed.

(** a negative angle no smaller than [-4] plus 2π does not exceed 2π *)
Lemma add_twoPi_le (a : float) (m : positive) (e : Z) :
  Prim2SF a = S754_finite true m e ->
  e <= -51 ->
  (a + 2 * Pi <=? 2 * Pi)%float = true.
Proof.
  intros Ha He.
  pose proof (valid_exponent (a + 2 * Pi)%float) as Hvalid.
  destruct (add_twoPi_form a m e Ha He) as (s & d & Ed & Es & Hm & Hform).
  rewrite leb_spec, Prim2SF_twoPi. rewrite Hform in *. clear Hform.
  change (2 ^ 53) with 9007199254740992 in Hm.
  assert (Hpow : 2 <= 2 ^ Z.pos d).
  { change 2 with (2 ^ 1) at 1. apply Z.pow_le_mono_r; lia. }
  unfold binary_round in *.
  (* the sum has at least 53 digits: no alignment to the left *)
  assert (Hs52 : 2 ^ 52 <= Z.pos s) by (change (2 ^ 52) with 4503599627370496; nia).
  assert (Hds : 53 <= Z.pos (digits2_pos s)).
  { pose proof (digits2_pos_bounds s) as [_ Hhi].
    destruct (Z_le_gt_dec 53 (Z.pos (digits2_pos s))) as [|Hlt]; [assumption|].
    exfalso. assert (2 ^ Z.pos (digits2_pos s) <= 2 ^ 52) by (apply Z.pow_le_mono_r; lia).
    lia. }
  assert (Hs : Z.pos s < 2 ^ (53 + Z.pos d)).
  { rewrite Z.pow_add_r by lia. change (2 ^ 53) with 9007199254740992. nia. }
  pose proof (Zdigits2_le (Z.pos s) (53 + Z.pos d) ltac:(lia) ltac:(lia) Hs) as Hds'.
  cbn [Zdigits2] in Hds'.
  assert (E2 : shl_align s e (fexp prec emax (Z.pos (digits2_pos s) + e)) = (s, e)).
  { unfold shl_align, fexp, SpecFloat.emin, prec, emax.
    destruct (Z.max (Z.pos (digits2_pos s) + e - 53) (3 - 1024 - 53) - e) eqn:E;
      try reflexivity. lia. }
  rewrite E2 in *.
  assert (Hround :
    binary_round_aux prec emax false (Z.pos s) e loc_Exact = S754_zero false
    \/ exists m0 e0,
         binary_round_aux prec emax false (Z.pos s) e loc_Exact
         = S754_finite false m0 e0
         /\ Z.pos (digits2_pos m0) + e0 <= 3 + 1).
  { apply binary_round_aux_bound; cbn [Zdigits2];
      unfold SpecFloat.emin, prec, emax; lia. }
  destruct Hround as [Er | (mr & er & Er & _)]; rewrite Er in *; [reflexivity|].
  specialize (Hvalid false mr er eq_refl).
  destruct (binary_round_aux_le false (Z.pos s) e
              (7074237752028440 * 2 ^ Z.pos d) loc_Exact mr er)
    as [Hle Hval]; [lia | lia | | exact Er |].
  { cbn [Zdigits2]. unfold fexp, SpecFloat.emin, prec, emax.
    set (n := Z.max 0 (Z.max (Z.pos (digits2_pos s) + e - 53) (3 - 1024 - 53) - e)).
    assert (Hn : 0 <= n <= Z.pos d) by (unfold n; lia).
    exists (7074237752028440 * 2 ^ (Z.pos d - n)).
    rewrite <- Z.mul_assoc, <- Z.pow_add_r by lia. do 2 f_equal. lia. }
  pose proof (digits2_pos_bounds mr) as [Hmr _].
  assert (He50 : er <= -50).
  { destruct (Z_le_gt_dec er (-50)) as [|Hgt]; [assumption|]. exfalso.
    assert (Hdr : Z.pos (digits2_pos mr) = 53) by lia.
    rewrite Hdr in Hmr. change (2 ^ (53 - 1)) with 4503599627370496 in Hmr.
    assert (H : 2 ^ (Z.pos d + 1) <= 2 ^ (er - e)) by (apply Z.pow_le_mono_r; lia).
    rewrite Z.pow_add_r in H by lia. change (2 ^ 1) with 2 in H. nia. }
  unfold SFleb, SFcompare.
  destruct (er ?= -50) eqn:Ec.
  - apply Z.compare_eq in Ec. subst er.
    replace (-50 - e) with (Z.pos d) in Hval by lia.
    assert (Z.pos mr <= 7074237752028440) by nia.
    pose proof (compare_cont_le mr 7074237752028440 H) as Hc.
    destruct (PosDef.Pos.compare_cont Eq mr 7074237752028440);
      [reflexivity | reflexivity | now elim Hc].
  - reflexivity.
  - exfalso. assert (er > -50) by exact Ec. lia.
Qed.

(** the normalised angle of an [a] within [-π, π] does not exceed 2π *)
Lemma normalized_le_twoPi (a : float) :
  (- Pi <=? a)%float = true ->
  (a <=? Pi)%float = true ->
  ((if (a <? 0)%float then (a + 2 * Pi)%float else a) <=? 2 * Pi)%float = true.
Proof.
  intros Hlo Hhi. pose proof Hlo as Hlo'. pose proof Hhi as Hhi'.
  rewrite leb_spec in Hlo, Hhi. rewrite ltb_spec.
  rewrite Prim2SF_negPi in Hlo. rewrite Prim2SF_Pi in Hhi. rewrite Prim2SF_zero.
  destruct (Prim2SF a) as [s|s| |s m e] eqn:Ha.
  - replace (SFltb (S754_zero s) (S754_zero false)) with false by reflexivity.
    rewrite leb_spec, Ha, Prim2SF_twoPi. reflexivity.
  - destruct s; discriminate.
  - discriminate.
  - destruct s.
    + replace (SFltb (S754_finite true m e) (S754_zero false)) with true by reflexivity.
      apply (add_twoPi_le a m e Ha).
      unfold SFleb, SFcompare in Hlo.
      destruct (-51 ?= e) eqn:Ec; try discriminate.
      * apply Z.compare_eq in Ec. lia.
      * assert (-51 > e) by exact Ec. lia.
    + replace (SFltb (S754_finite false m e) (S754_zero false)) with false by reflexivity.
      rewrite leb_spec, Ha, Prim2SF_twoPi.
      unfold SFleb, SFcompare in Hhi. unfold SFleb, SFcompare.
      destruct (e ?= -51) eqn:Ec; try discriminate.
      * apply Z.compare_eq in Ec. subst e. reflexivity.
      * assert (e < -51) by exact Ec.
        replace (e ?= -50) with Lt by (symmetry; apply Z.compare_lt_iff; lia).
        reflexivity.
Qed.

(** ** The angle as a real number *)

(** π is above the float64 constant [math.Pi] *)
Lemma PI_above_float64 : (7074237752028440 / 2 ^ 51 < PI)%R.
Proof.
  pose proof (PI_2_3_7_ineq 8) as [H _].
  cbv [sum_f_R0 tg_alt PI_2_3_7_tg Ratan_seq Nat.mul Nat.add] in H.
  repeat match type of H with
  | context [INR ?n] =>
      let z := eval vm_compute in (Z.of_nat n) in
      replace (INR n) with (IZR z) in H by (rewrite INR_IZR_INZ; reflexivity)
  end.
  lra.
Qed.

Lemma powerRZ_2_nonpos (z : Z) : z <= 0 -> (powerRZ 2 z <= 1)%R.
Proof.
  intros Hz. destruct z as [|p|p]; cbn [powerRZ]; try lra; try lia.
  rewrite <- Rinv_1. apply Rinv_le_contravar; [lra|].
  apply pow_R1_Rle. lra.
Qed.

(** a float64 between 0 and the constant [2 * math.Pi] lies in [0, 2π) *)
Lemma float64_real_below_twoPi (f : float) :
  (0 <=? f)%float = true ->
  (f <=? 2 * Pi)%float = true ->
  exists v, float64_real f = Some v /\ (0 <= v < 2 * PI)%R.
Proof.
  intros Hlo Hhi. pose proof (valid_digits f) as Hd.
  rewrite leb_spec in Hlo, Hhi. rewrite Prim2SF_zero in Hlo.
  rewrite Prim2SF_twoPi in Hhi. unfold float64_real.
  pose proof PI_above_float64 as HPI.
  destruct (Prim2SF f) as [s|s| |s m e]; try discriminate.
  - exists 0%R. split; [reflexivity|]. lra.
  - destruct s; discriminate.
  - destruct s; [discriminate|]. specialize (Hd false m e eq_refl).
    eexists. split; [reflexivity|]. cbn [cond_Zopp].
    assert (Hpos : (0 < powerRZ 2 e)%R) by (apply powerRZ_lt; lra).
    assert (Hm : (0 < IZR (Z.pos m))%R) by (apply IZR_lt; lia).
    split; [apply Rmult_le_pos; lra|].
    unfold SFleb, SFcompare in Hhi.
    destruct (e ?= -50) eqn:Ec; try discriminate.
    + apply Z.compare_eq in Ec. subst e.
      assert (Hle : Z.pos m <= 7074237752028440).
      { destruct (Z_le_gt_dec (Z.pos m) 7074237752028440) as [|Hgt]; [assumption|].
        rewrite (compare_cont_gt m 7074237752028440 Hgt) in Hhi. discriminate. }
      apply IZR_le in Hle.
      change (powerRZ 2 (-50)) with (/ 2 ^ 50)%R.
      lra.
    + assert (He : e < -50) by exact Ec.
      pose proof (digits2_pos_bounds m) as [_ Hhi'].
      assert (Hm53 : Z.pos m < 2 ^ 53).
      { eapply Z.lt_le_trans; [exact Hhi'|]. apply Z.pow_le_mono_r; lia. }
      apply IZR_lt in Hm53.
      assert (Hp : (powerRZ 2 e <= powerRZ 2 (-51))%R).
      { replace e with (-51 + (e + 51)) by lia.
        rewrite powerRZ_add by lra.
        pose proof (powerRZ_2_nonpos (e + 51) ltac:(lia)).
        assert (0 < powerRZ 2 (-51))%R by (apply powerRZ_lt; lra).
        rewrite <- (Rmult_1_r (powerRZ 2 (-51))) at 2.
        apply Rmult_le_compat_l; lra. }
      change (powerRZ 2 (-51)) with (/ 2 ^ 51)%R in Hp.
      change (2 ^ 53) with 9007199254740992 in Hm53.
      assert (IZR (Z.pos m) * powerRZ 2 e <= 9007199254740992 * / 2 ^ 51)%R.
      { apply Rmult_le_compat; lra. }
      lra.
Qed.

(** ** Angle and index *)

(** on a float whose floor is a non-negative [int64], Go's conversion to
    [int] is the floor *)
Lemma int_of_float64_floor (f : float) (k : Z) :
  floor_float64 f = Some k -> 0 <= k < 2 ^ 63 -> int_of_float64 f = k.
Proof.
  unfold floor_float64, int_of_float64.
  destruct (Prim2SF f) as [s|s| |s m e]; try discriminate.
  - now intros [= <-] _.
  - intros [= <-] Hk. cbv zeta.
    destruct s.
    + (* a negative value has a negative floor *)
      exfalso. destruct (0 <=? e) eqn:He.
      * apply Z.leb_le in He. assert (0 < 2 ^ e) by (apply Z.pow_pos_nonneg; lia).
        nia.
      * apply Z.leb_gt in He.
        assert (0 < 2 ^ (- e)) by (apply Z.pow_pos_nonneg; lia).
        assert (Z.neg m / 2 ^ (- e) < 0); [|lia].
        apply Z.div_lt_upper_bound; lia.
    + replace ((- 2 ^ 63 <=? (if 0 <=? e then Z.pos m * 2 ^ e
                               else Z.pos m / 2 ^ (- e))))
        with true by (symmetry; apply Z.leb_le; lia).
      replace ((if 0 <=? e then Z.pos m * 2 ^ e else Z.pos m / 2 ^ (- e))
               <? 2 ^ 63) with true by (symmetry; apply Z.ltb_lt; lia).
      reflexivity.
Qed.

Lemma smallNonneg_mono (B B' : Z) (f : spec_float) :
  B <= B' -> smallNonneg B f -> smallNonneg B' f.
Proof. intros HB. destruct f as [s|s| |[] m e]; cbn; auto. lia. Qed.

Lemma smallNonneg_leb (B : Z) (f : float) :
  smallNonneg B (Prim2SF f) -> (0 <=? f)%float = true.
Proof.
  rewrite leb_spec, Prim2SF_zero.
  destruct (Prim2SF f) as [s|s| |[] m e]; cbn; try contradiction; reflexivity.
Qed.

Lemma Prim2SF_segment16 :
  Prim2SF (2 * Pi / float64_of_int 16)%float
  = S754_finite false 7074237752028440 (-54).
Proof. vm_compute. reflexivity. Qed.

Lemma Prim2SF_segment26 :
  Prim2SF (2 * Pi / float64_of_int 26)%float
  = S754_finite false 8706754156342695 (-55).
Proof. vm_compute. reflexivity. Qed.

(** for an angle [a] within [-π, π] and a ring of 16 or 26 tokens, the
    normalised angle divided by the segment has a floor that is a
    non-negative [int] *)
Lemma quotient_floor (a : float) (N : Z) :
  (- Pi <=? a)%float = true ->
  (a <=? Pi)%float = true ->
  N = 16 \/ N = 26 ->
  exists k,
    floor_float64 (normalizeAngle a / (2 * Pi / float64_of_int N))%float
    = Some k
    /\ 0 <= k < 2 ^ 63.
Proof.
  intros Hlo Hhi HN. apply floor_of_small.
  pose proof (normalized_small a Hlo Hhi) as Hs. fold (normalizeAngle a) in Hs.
  destruct HN as [-> | ->].
  - apply (smallNonneg_mono (4 - -54 + 1)); [lia|].
    apply (div_small _ _ _ _ _ Hs Prim2SF_segment16);
      unfold SpecFloat.emin, prec, emax; lia.
  - apply (smallNonneg_mono (4 - -55 + 1)); [lia|].
    apply (div_small _ _ _ _ _ Hs Prim2SF_segment26);
      unfold SpecFloat.emin, prec, emax; lia.
Qed.

(** C4.  Outside the dead zone, for every value [a] that [atan2(x, -y)] can
    take (it lies within [-π, π]), the stored angle is [a] with 2π added
    when [a] is negative.  It is a finite float64 between 0 and the constant
    [2 * math.Pi], and the real number it stands for lies in [0, 2π): the
    constant is below 2π.  The stored index is
    [floor(angle / (2π / N)) mod N], an index of the ring just selected in
    the current set, N being that ring's length (16 or 26).  Go computes it
    as [int(angle / (2π / N)) % N], and the two agree. *)
Theorem C4_angle_and_index (x y : float) (g : Game) :
  let magnitude := PrimFloat.sqrt (x * x + y * y)%float in
  let a := Atan2 x (- y)%float in
  let angle := normalizeAngle a in
  (0.1 <? magnitude)%float = true ->
  currentSet g = 0 \/ currentSet g = 1 ->
  (- Pi <=? a)%float = true ->
  (a <=? Pi)%float = true ->
  exists g' currentRing k,
    updateSelection x y magnitude g = Some g'
    /\ rings (currentSet g') (selectedRing g') = Some currentRing
    /\ (len currentRing = 16 \/ len currentRing = 26)
    /\ joystickAngle g' = angle
    /\ (0 <=? angle)%float = true
    /\ (angle <=? 2 * Pi)%float = true
    /\ (exists v, float64_real angle = Some v /\ (0 <= v < 2 * PI)%R)
    /\ let N := len currentRing in
       let q := (angle / (2 * Pi / float64_of_int N))%float in
       selectedIndex g' = Z.rem (int_of_float64 q) N
       /\ floor_float64 q = Some k
       /\ selectedIndex g' = k mod N
       /\ 0 <= selectedIndex g' < N.
Proof.
  intros magnitude a angle Hm Hs Hlo Hhi.
  destruct (updateSelection_live x y magnitude g Hm Hs) as (l & Hl & Hlen & ->).
  destruct (quotient_floor a (len l) Hlo Hhi Hlen) as (k & Hk & Hrange).
  eexists. exists l, k. split; [reflexivity|].
  cbn [currentSet selectedRing selectedIndex joystickAngle set_selectedIndex
         set_joystickAngle set_selectedRing].
  split; [exact Hl|]. split; [exact Hlen|]. split; [reflexivity|].
  split.
  { apply (smallNonneg_leb 4). apply (normalized_small a Hlo Hhi). }
  split; [exact (normalized_le_twoPi a Hlo Hhi)|].
  split.
  { apply float64_real_below_twoPi.
    - apply (smallNonneg_leb 4). apply (normalized_small a Hlo Hhi).
    - exact (normalized_le_twoPi a Hlo Hhi). }
  cbv zeta. fold a. fold angle.
  split; [reflexivity|]. split; [exact Hk|].
  fold angle in Hk. rewrite (int_of_float64_floor _ k Hk Hrange).
  rewrite Z.rem_mod_nonneg by lia. split; [reflexivity|].
  apply Z.mod_pos_bound. lia.
Qed.

(** * Further properties of the program *)

(** ** The prediction *)

(** X1.  [updatePrediction] never reads the buffer out of range: for every
    buffer, chain and frequency map it returns, and it changes
    [nextPrediction] only; without a chain the prediction is empty, and so
    it is when the buffer holds one empty word. *)
Theorem updatePrediction_safe (g : Game) :
  exists p,
    updatePrediction g = Some (set_nextPrediction p g)
    /\ (markovChain g = None -> p = "")
    /\ (currentSentence g = [""] -> p = "").
Proof.
  destruct (markovChain g) as [c|] eqn:Hc.
  - destruct (decide (currentSentence g = [""])) as [Hcs|Hcs].
    + exists "". split; [|split; [discriminate | reflexivity]].
      unfold updatePrediction. rewrite Hc, Hcs. reflexivity.
    + destruct (updatePrediction_total g) as (p & Hp). exists p.
      split; [exact Hp|]. split; [discriminate | contradiction].
  - exists "". split; [|auto]. unfold updatePrediction. now rewrite Hc.
Qed.

Lemma autocomplete_fold (lowerCurrent : string) (l : list (string * Z))
    (b : string) (mf : Z) :
  let step := fun '(bestMatch, maxFrequency) '(word, freq) =>
    if strings.HasPrefix word lowerCurrent && negb (streq word lowerCurrent)
    then if maxFrequency <? freq then (word, freq) else (bestMatch, maxFrequency)
    else (bestMatch, maxFrequency) in
  let r := fold_left step l (b, mf) in
  mf <= snd r
  /\ (r = (b, mf)
      \/ (r ∈ l /\ completes lowerCurrent (fst r) = true /\ mf < snd r))
  /\ (forall k f, (k, f) ∈ l -> completes lowerCurrent k = true -> f <= snd r).
Proof.
  intros step. revert b mf.
  induction l as [|[word freq] l IH]; intros b mf; cbn [fold_left].
  - split; [cbn; lia|]. split; [now left|]. intros k f H. inversion H.
  - assert (Hstep : step (b, mf) (word, freq)
                    = if completes lowerCurrent word
                      then if mf <? freq then (word, freq) else (b, mf)
                      else (b, mf)) by reflexivity.
    rewrite Hstep. clear Hstep.
    destruct (completes lowerCurrent word) eqn:Ec;
      [destruct (mf <? freq) eqn:Elt|].
    + apply Z.ltb_lt in Elt.
      destruct (IH word freq) as (H1 & H2 & H3).
      split; [lia|]. split.
      * right. destruct H2 as [-> | (Hin & Hcomp & Hlt)].
        -- cbn [fst snd]. split; [apply list_elem_of_here|].
           split; [exact Ec | exact Elt].
        -- split; [now apply list_elem_of_further|]. split; [exact Hcomp | lia].
      * intros k f Hin Hk. apply elem_of_cons in Hin as [Heq | Hin].
        -- injection Heq as -> ->. exact H1.
        -- now apply (H3 k).
    + apply Z.ltb_ge in Elt.
      destruct (IH b mf) as (H1 & H2 & H3).
      split; [exact H1|]. split.
      * destruct H2 as [-> | (Hin & Hcomp & Hlt)]; [now left|].
        right. split; [now apply list_elem_of_further|]. now split.
      * intros k f Hin Hk. apply elem_of_cons in Hin as [Heq | Hin].
        -- injection Heq as -> ->. lia.
        -- now apply (H3 k).
    + destruct (IH b mf) as (H1 & H2 & H3).
      split; [exact H1|]. split.
      * destruct H2 as [-> | (Hin & Hcomp & Hlt)]; [now left|].
        right. split; [now apply list_elem_of_further|]. now split.
      * intros k f Hin Hk. apply elem_of_cons in Hin as [Heq | Hin].
        -- injection Heq as -> ->. congruence.
        -- now apply (H3 k).
Qed.

(** X2.  While the first word is being typed, the prediction is the
    completion search over the frequency map: it is empty, or a word of the
    map that starts with the lower-cased typed text, is longer than it and
    has a positive count; no word that could complete the typed text has a
    higher count, and the prediction is empty only when none has a positive
    count. *)
Theorem first_word_completion (g : Game) (c : gomarkov.Chain) (w : string) :
  listsEntries ->
  markovChain g = Some c ->
  currentSentence g = [w] ->
  w <> "" ->
  let lowerCurrent := strings.ToLower w in
  let m := wordFrequency g in
  exists best,
    updatePrediction g = Some (set_nextPrediction best g)
    /\ (best <> "" ->
        completes lowerCurrent best = true
        /\ (exists f, m !! best = Some f /\ 0 < f)
        /\ forall word f, m !! word = Some f ->
             completes lowerCurrent word = true -> f <= frequency m best)
    /\ (best = "" ->
        forall word f, m !! word = Some f ->
          completes lowerCurrent word = true -> f <= 0).
Proof.
  intros Hrange Hc Hcs Hw lowerCurrent m.
  exists (autocomplete g w). split.
  - unfold updatePrediction. rewrite Hc, Hcs.
    change (len [w] =? 0) with false. cbv iota.
    change (index [w] (len [w] - 1)) with (Some w). cbn [mbind option_bind].
    apply streq_false in Hw. rewrite Hw.
    change (1 <? len [w]) with false. cbn. rewrite ?Hw. cbn.
    destruct (streq (autocomplete g w) "") eqn:E; cbn; [|reflexivity].
    apply streq_true in E. now rewrite E.
  - unfold autocomplete. fold lowerCurrent. fold m.
    pose proof (autocomplete_fold lowerCurrent (rangeMap m) "" 0) as H.
    cbv zeta in H. destruct H as (H1 & H2 & H3).
    match type of H1 with
    | _ <= snd ?r => set (res := r) in *
    end.
    assert (Hall : forall word f, m !! word = Some f ->
              completes lowerCurrent word = true -> f <= snd res).
    { intros word f Hm. apply H3. now apply Hrange. }
    destruct H2 as [Hres | (Hin & Hcomp & Hlt)].
    + rewrite Hres in *. cbn [fst snd] in *. split; [easy|].
      intros _. exact Hall.
    + destruct res as [best fb]. cbn [fst snd] in *.
      apply Hrange in Hin.
      assert (Hfb : frequency m best = fb) by (unfold frequency; now rewrite Hin).
      split.
      * intros _. split; [exact Hcomp|]. split; [now exists fb|].
        rewrite Hfb. exact Hall.
      * intros ->. unfold completes, strings.HasPrefix in Hcomp.
        apply andb_prop in Hcomp as [Hp Hn].
        exfalso. destruct lowerCurrent as [|a s] eqn:El.
        -- rewrite streq_refl in Hn. discriminate.
        -- discriminate.
Qed.

(** with two words or more in the buffer the prediction follows the word
    before the last *)
Lemma updatePrediction_two_words (g : Game) (c : gomarkov.Chain)
    (l : list string) (prev cur : string) :
  markovChain g = Some c ->
  currentSentence g = l ++ [prev; cur] ->
  prev <> "" \/ cur <> "" ->
  updatePrediction g = Some (set_nextPrediction (generatedOrThe c prev) g)
  /\ generatedOrThe c prev <> "".
Proof.
  intros Hc Hcs Hne. split.
  - unfold updatePrediction. rewrite Hc, Hcs.
    assert (Hlen : len (l ++ [prev; cur]) = len l + 2).
    { rewrite len_app. reflexivity. }
    pose proof (len_nonneg l) as Hl.
    replace (len (l ++ [prev; cur]) =? 0) with false
      by (symmetry; apply Z.eqb_neq; lia).
    replace (l ++ [prev; cur]) with ((l ++ [prev]) ++ [cur])
      by (now rewrite <- app_assoc).
    rewrite index_last. cbn [mbind option_bind].
    replace ((l ++ [prev]) ++ [cur]) with (l ++ [prev; cur])
      by (now rewrite <- app_assoc).
    rewrite index_before_last.
    replace (1 <? len (l ++ [prev; cur])) with true
      by (symmetry; apply Z.ltb_lt; lia).
    unfold generatedOrThe.
    assert (Hfb : fallbackPrediction prev = Some "the").
    { unfold fallbackPrediction. destruct (strlen prev <=? 3); reflexivity. }
    destruct (streq cur "") eqn:Ecur; cbn.
    + apply streq_true in Ecur. subst cur.
      destruct Hne as [Hp | Hp]; [|contradiction].
      apply streq_false in Hp. rewrite Hp. cbn.
      destruct (Generate c [prev]) as [next|]; [|now rewrite Hfb].
      destruct (streq next ""); cbn; [now rewrite Hfb | reflexivity].
    + rewrite orb_true_r.
      destruct (Generate c [prev]) as [next|]; [|now rewrite Hfb].
      destruct (streq next ""); cbn; [now rewrite Hfb | reflexivity].
  - unfold generatedOrThe. destruct (Generate c [prev]) as [next|]; [|discriminate].
    destruct (streq next "") eqn:E; [discriminate|]. now apply streq_false.
Qed.

(** X3.  Once the buffer holds two words or more, the prediction is drawn
    from the word before the last one alone: it is what [Generate] answers
    for that word, and "the" when [Generate] has no word or an empty one.
    The word being typed plays no part, and the prediction is never
    empty. *)
Theorem later_word_prediction (g : Game) (c : gomarkov.Chain)
    (l : list string) (prev cur : string) :
  markovChain g = Some c ->
  currentSentence g = l ++ [prev; cur] ->
  prev <> "" \/ cur <> "" ->
  updatePrediction g = Some (set_nextPrediction (generatedOrThe c prev) g)
  /\ generatedOrThe c prev <> "".
Proof. apply updatePrediction_two_words. Qed.

(** ** What each handler does to the state *)

Lemma andThen_inv (r : option (Game * list Effect))
    (k : Game -> option (Game * list Effect)) (g' : Game) (out : list Effect) :
  andThen r k = Some (g', out) ->
  exists g1 e1 e2,
    r = Some (g1, e1) /\ k g1 = Some (g', e2) /\ out = e1 ++ e2.
Proof.
  unfold andThen. destruct r as [[g1 e1]|]; [|discriminate]. cbn.
  destruct (k g1) as [[g2 e2]|] eqn:Hk; [|discriminate]. cbn.
  intros H. injection H as <- <-. exists g1, e1, e2. repeat split. exact Hk.
Qed.

Lemma handleBackspace_inv (inp : Input) (g g' : Game) (out : list Effect) :
  handleBackspace inp g = Some (g', out) ->
  (g' = g /\ out = [])
  \/ (justRightRight inp = true
      /\ exists cs' p,
           backspaceWord (currentSentence g) = Some cs'
           /\ g' = set_nextPrediction p (set_currentSentence cs' g)
           /\ out = [KeyTap "backspace"]).
Proof.
  unfold handleBackspace. destruct (justRightRight inp).
  - destruct (backspaceWord (currentSentence g)) as [cs'|]; [|discriminate].
    cbn. destruct (updatePrediction_total (set_currentSentence cs' g)) as (p & ->).
    cbn. intros H. injection H as <- <-. right. eauto 7.
  - intros H. injection H as <- <-. now left.
Qed.

Lemma handleSpace_inv (inp : Input) (g g' : Game) (out : list Effect) :
  handleSpace inp g = Some (g', out) ->
  (g' = g /\ out = [])
  \/ (justRightLeft inp = true
      /\ exists cs' p,
           wordBreak (currentSentence g) = Some cs'
           /\ g' = set_nextPrediction p (set_currentSentence cs' g)
           /\ out = [TypeStr " "; WriteRawText " "]).
Proof.
  unfold handleSpace. destruct (justRightLeft inp).
  - destruct (wordBreak (currentSentence g)) as [cs'|]; [|discriminate].
    cbn. destruct (updatePrediction_total (set_currentSentence cs' g)) as (p & ->).
    cbn. intros H. injection H as <- <-. right. eauto 7.
  - intros H. injection H as <- <-. now left.
Qed.

Lemma fold_countWord_nonEmpty (cs : list string) (g : Game) :
  fold_left
    (fun g word =>
       if negb (streq word "") then countWord g (strings.ToLower word) else g)
    cs g
  = set_wordFrequency
      (learnFrequency (wordFrequency g)
         (map strings.ToLower (List.filter nonEmpty cs))) g.
Proof.
  revert g. induction cs as [|w cs IH]; intros g; cbn [fold_left].
  - cbn. now rewrite set_wordFrequency_same.
  - rewrite IH. cbn [List.filter]. unfold nonEmpty at 2.
    destruct (negb (streq w "")); reflexivity.
Qed.

Lemma enterSentence_inv (g g' : Game) (out : list Effect) :
  enterSentence g = Some (g', out) ->
  (len (currentSentence g) <= 1
   /\ g' = set_currentSentence [] g
   /\ out = [KeyTap "enter"; WriteRawText newline])
  \/ (1 < len (currentSentence g)
      /\ exists c,
           markovChain g = Some c
           /\ g' = set_currentSentence [] (learnSentence c g)
           /\ out = [KeyTap "enter"; WriteRawText newline;
                     WriteTrainingData (trainingData g ++ [currentSentence g])]).
Proof.
  unfold enterSentence, chainAdd.
  destruct (1 <? len (currentSentence g)) eqn:E.
  - apply Z.ltb_lt in E. destruct (markovChain g) as [c|] eqn:Hc; [|discriminate].
    cbn [mbind option_bind]. rewrite fold_countWord_nonEmpty.
    cbn. intros H. injection H as <- <-. right. split; [exact E|].
    exists c. split; [reflexivity|]. split; reflexivity.
  - apply Z.ltb_ge in E. cbn. intros H. injection H as <- <-. left. auto.
Qed.

Lemma typeGlyph_inv (tok : string) (g g' : Game) (out : list Effect) :
  typeGlyph tok g = Some (g', out) ->
  exists cs' p,
    appendChar (currentSentence g) (displayChar g tok) = Some cs'
    /\ g' = set_nextPrediction p (set_currentSentence cs' g)
    /\ out = [TypeStr (displayChar g tok); WriteRawText (displayChar g tok)].
Proof.
  unfold typeGlyph.
  assert (Hd : (if (strlen tok =? 1) && String.leb "A" tok && String.leb tok "Z"
                then if uppercase g then tok else strings.ToLower tok
                else tok) = displayChar g tok).
  { unfold displayChar. destruct (uppercase g); reflexivity. }
  rewrite Hd.
  destruct (appendChar (currentSentence g) (displayChar g tok)) as [cs'|];
    [|discriminate].
  cbn. destruct (updatePrediction_total (set_currentSentence cs' g)) as (p & ->).
  cbn. intros H. injection H as <- <-. eauto.
Qed.

Lemma handleConfirm_inv (inp : Input) (magnitude : float) (g g' : Game)
    (out : list Effect) :
  handleConfirm inp magnitude g = Some (g', out) ->
  (g' = g /\ out = [])
  \/ exists tok g1,
       confirmReaches inp magnitude g tok
       /\ g' = set_lastButtonTime (now inp) g1
       /\ ((tok = "⌫"
            /\ exists cs' p,
                 backspaceWord (currentSentence g) = Some cs'
                 /\ g1 = set_nextPrediction p (set_currentSentence cs' g)
                 /\ out = [KeyTap "backspace"])
           \/ (tok = "↵" /\ enterSentence g = Some (g1, out))
           \/ (tok <> "⌫" /\ tok <> "↵" /\ typeGlyph tok g = Some (g1, out))).
Proof.
  unfold handleConfirm. intros H.
  destruct (justRightBottom inp) eqn:Hj; [|injection H as <- <-; now left].
  destruct (200 * Millisecond <? Sub (now inp) (lastButtonTime g)) eqn:Hd;
    [|injection H as <- <-; now left].
  destruct (0.1 <? magnitude)%float eqn:Hm; [|injection H as <- <-; now left].
  destruct (rings (currentSet g) (selectedRing g)) as [ring|] eqn:Hr;
    [|discriminate].
  cbn [mbind option_bind] in H.
  destruct (selectedIndex g <? len ring) eqn:Hi; [|injection H as <- <-; now left].
  destruct (index ring (selectedIndex g)) as [tok|] eqn:Ht; [|discriminate].
  cbn [mbind option_bind] in H.
  assert (Hreach : confirmReaches inp magnitude g tok).
  { split; [exact Hj|]. split; [now apply Z.ltb_lt|]. split; [exact Hm|].
    exists ring. now split. }
  right. exists tok.
  destruct (streq tok "⌫") eqn:E1.
  - apply streq_true in E1.
    destruct (backspaceWord (currentSentence g)) as [cs'|] eqn:Hb; [|discriminate].
    cbn in H.
    destruct (updatePrediction_total (set_currentSentence cs' g)) as (p & Hp).
    rewrite Hp in H. cbn in H. injection H as <- <-.
    eexists. split; [exact Hreach|]. split; [reflexivity|]. left.
    split; [exact E1|]. eauto.
  - apply streq_false in E1. destruct (streq tok "↵") eqn:E2.
    + apply streq_true in E2.
      destruct (enterSentence g) as [[g1 o]|] eqn:He; [|discriminate].
      cbn in H. injection H as <- <-.
      exists g1. split; [exact Hreach|]. split; [reflexivity|]. right. left.
      now split.
    + apply streq_false in E2.
      destruct (typeGlyph tok g) as [[g1 o]|] eqn:He; [|discriminate].
      cbn in H. injection H as <- <-.
      exists g1. split; [exact Hreach|]. split; [reflexivity|]. right. right.
      now repeat split.
Qed.

Lemma handleEnter_inv (inp : Input) (g g' : Game) (out : list Effect) :
  handleEnter inp g = Some (g', out) ->
  (g' = g /\ out = [])
  \/ (justRightTop inp = true /\ enterSentence g = Some (g', out)).
Proof.
  unfold handleEnter. destruct (justRightTop inp).
  - intros H. right. now split.
  - intros H. injection H as <- <-. now left.
Qed.

Lemma acceptPrediction_inv (inp : Input) (g g' : Game) (out : list Effect) :
  acceptPrediction inp g = Some (g', out) ->
  (g' = g /\ out = [])
  \/ (justButton7 inp = true
      /\ nextPrediction g <> ""
      /\ let pred := nextPrediction g in
         let cur := inProgress (currentSentence g) in
         exists p,
           g' = set_nextPrediction p
                  (set_currentSentence
                     (removelast (currentSentence g) ++ [pred; ""]) g)
           /\ out
              = (if strings.HasPrefix (strings.ToLower pred) (strings.ToLower cur)
                 then [TypeStr (sdrop (String.length cur) pred ++ " ");
                       WriteRawText (sdrop (String.length cur) pred ++ " ")]
                 else repeat (KeyTap "backspace") (String.length cur)
                      ++ [TypeStr (pred ++ " "); WriteRawText (pred ++ " ")])).
Proof.
  intros H. unfold acceptPrediction in H.
  destruct (justButton7 inp) eqn:Hj.
  - destruct (streq (nextPrediction g) "") eqn:Hp.
    + apply streq_true in Hp.
      rewrite acceptPredictionWith_idle in H by now right.
      injection H as <- <-. now left.
    + apply streq_false in Hp.
      rewrite (acceptPredictionWith_accept _ _ _ Hj Hp) in H.
      destruct (sliceFails strings.ToLower g); [discriminate|].
      match type of H with
      | context [updatePrediction ?g0] =>
          destruct (updatePrediction_total g0) as (p & Hu)
      end.
      rewrite Hu in H. cbn [mbind option_bind] in H. injection H as <- <-.
      right. split; [reflexivity|]. split; [exact Hp|]. cbv zeta.
      exists p. split; [reflexivity|]. unfold acceptTrace, nonEmpty.
      destruct (streq (inProgress (currentSentence g)) "") eqn:Ec;
        [|reflexivity].
      apply streq_true in Ec. rewrite Ec. cbn [negb andb].
      unfold strings.HasPrefix. cbn [strings.ToLower]. rewrite prefix_nil.
      reflexivity.
  - rewrite acceptPredictionWith_idle in H by now left.
    injection H as <- <-. now left.
Qed.

Lemma updateSelection_inv (x y magnitude : float) (g g' : Game) :
  updateSelection x y magnitude g = Some g' ->
  exists r a i,
    g' = set_selectedIndex i (set_joystickAngle a (set_selectedRing r g)).
Proof.
  unfold updateSelection. destruct (0.1 <? magnitude)%float.
  - match goal with
    | |- context [rings ?s ?r] => destruct (rings s r) as [ring|]; [|discriminate]
    end.
    cbn [mbind option_bind].
    match goal with
    | |- context [goRem ?a ?b] => destruct (goRem a b) as [i|]; [|discriminate]
    end.
    cbn. intros H. injection H as <-.
    destruct (magnitude <? 0.9)%float; eauto.
  - intros H. injection H as <-.
    exists (selectedRing g), (joystickAngle g), (selectedIndex g).
    destruct g; reflexivity.
Qed.

Lemma initMarkov_inv (env : Env) (g g' : Game) :
  initMarkov env g = Some g' ->
  g' = g
  \/ (markovChain g = None
      /\ exists c m td p,
           g' = set_nextPrediction p
                  (set_wordFrequency m
                     (set_markovChain (Some c) (set_trainingData td g)))).
Proof.
  unfold initMarkov. destruct (markovChain g) as [c0|] eqn:Hc.
  - intros H. injection H as <-. now left.
  - intros H. right. split; [reflexivity|].
    set (g0 := set_wordFrequency ∅ (set_markovChain (Some ∅) g)) in H.
    set (g1 := fst (loadTrainingData env g0)) in H.
    assert (H1 : exists td, g1 = set_trainingData td g0).
    { unfold g1, loadTrainingData. destruct (negb (homeDirOk env)).
      - exists (trainingData g0). destruct g0; reflexivity.
      - destruct (trainingDataFile env) as [| |data].
        + eexists. reflexivity.
        + exists (trainingData g0). destruct g0; reflexivity.
        + destruct (jsonUnmarshal data (trainingData g0)) as [v failed].
          eexists. reflexivity. }
    destruct H1 as (td1 & H1). rewrite H1 in H. clear g1 H1.
    set (g2 := if len (trainingData (set_trainingData td1 g0)) =? 0
               then set_trainingData seedSentences (set_trainingData td1 g0)
               else set_trainingData td1 g0) in H.
    assert (H2 : exists td, g2 = set_trainingData td g0).
    { unfold g2. destruct (len _ =? 0); eexists; reflexivity. }
    destruct H2 as (td2 & H2). rewrite H2 in H. clear g2 H2.
    cbn [trainingData set_trainingData] in H.
    rewrite (forEach_trainSentence td2 (set_trainingData td2 g0) ∅) in H
      by reflexivity.
    cbn [mbind option_bind] in H.
    match type of H with
    | context [loadRawTextAndTrain env ?g3] =>
        destruct (loadRawTextAndTrain_grows env g3 (fold_left gomarkov.Add td2 ∅)
                    eq_refl) as (c' & m' & err & Hl & _)
    end.
    rewrite Hl in H. cbn [mbind option_bind] in H.
    match type of H with
    | updatePrediction ?g4 = _ =>
        destruct (updatePrediction_total g4) as (p & Hp)
    end.
    rewrite Hp in H. injection H as <-.
    exists c', m', td2, p. reflexivity.
Qed.

(** ** Properties kept from tick to tick *)

Lemma andThen_keeps (P : Game -> Prop) (Q : list Effect -> Prop)
    (r : option (Game * list Effect)) (k : Game -> option (Game * list Effect))
    (g' : Game) (out : list Effect) :
  (forall a b, Q a -> Q b -> Q (a ++ b)) ->
  (forall g1 e1, r = Some (g1, e1) -> P g1 /\ Q e1) ->
  keeps P Q k ->
  andThen r k = Some (g', out) -> P g' /\ Q out.
Proof.
  intros Happ Hr Hk H.
  apply andThen_inv in H as (g1 & e1 & e2 & H1 & H2 & ->).
  destruct (Hr _ _ H1) as [HP HQ]. destruct (Hk _ _ _ HP H2) as [HP' HQ'].
  split; [exact HP' | now apply Happ].
Qed.

Lemma updateGamepad_keeps (P : Game -> Prop) (Q : list Effect -> Prop)
    (inp : Input) :
  Q [] ->
  (forall a b, Q a -> Q b -> Q (a ++ b)) ->
  (forall g g', P g ->
     updateSelection (LeftStickHorizontal inp) (LeftStickVertical inp)
       (stickMagnitude inp) g = Some g' -> P g') ->
  keeps P Q (handleConfirm inp (stickMagnitude inp)) ->
  keeps P Q (handleBackspace inp) ->
  keeps P Q (handleSpace inp) ->
  keeps P Q (handleEnter inp) ->
  keeps P Q (handleArrows inp) ->
  keeps P Q (handleModifiers inp) ->
  keeps P Q (acceptPrediction inp) ->
  keeps P Q (updateGamepad inp).
Proof.
  intros Hnil Happ Hsel Hc Hb Hs He Ha Hm Hp g g' e HP H.
  unfold updateGamepad in H. fold (stickMagnitude inp) in H.
  destruct (updateSelection _ _ _ g) as [g0|] eqn:H0; [|discriminate].
  cbn [mbind option_bind] in H. pose proof (Hsel _ _ HP H0) as HP0.
  revert H. apply andThen_keeps; [exact Happ | | exact Hp].
  intros g6 e6. apply andThen_keeps; [exact Happ | | exact Hm].
  intros g5 e5. apply andThen_keeps; [exact Happ | | exact Ha].
  intros g4 e4. apply andThen_keeps; [exact Happ | | exact He].
  intros g3 e3. apply andThen_keeps; [exact Happ | | exact Hs].
  intros g2 e2. apply andThen_keeps; [exact Happ | | exact Hb].
  intros g1 e1. apply Hc. exact HP0.
Qed.

Lemma Update_keeps (P0 P : Game -> Prop) (Q : list Effect -> Prop) :
  Q [] ->
  (forall a b, Q a -> Q b -> Q (a ++ b)) ->
  (forall env g g', P0 g -> initMarkov env g = Some g' -> P g') ->
  (forall inp, keeps P Q (updateGamepad inp)) ->
  forall env pads g g' out,
    P0 g -> Update env pads g = Some (g', out) -> P g' /\ Q out.
Proof.
  intros Hnil Happ Hinit Hpad env pads g g' out HP H. unfold Update in H.
  destruct (initMarkov env g) as [g0|] eqn:H0; [|discriminate].
  cbn [mbind option_bind] in H. pose proof (Hinit _ _ _ HP H0) as HP0.
  clear H0 HP g. revert H.
  assert (Hgen : forall out0 g1, P g1 -> Q out0 ->
            forEach
              (fun '(g, out) inp =>
                 '(g, e) ← updateGamepad inp g; Some (g, out ++ e))
              pads (g1, out0) = Some (g', out) -> P g' /\ Q out).
  { induction pads as [|inp pads IH]; intros out0 g1 HP1 HQ0 H; cbn in H.
    - injection H as <- <-. now split.
    - destruct (updateGamepad inp g1) as [[g2 e]|] eqn:H1; [|discriminate].
      cbn in H. destruct (Hpad inp _ _ _ HP1 H1) as [HP2 HQe].
      apply (IH (out0 ++ e) g2); auto. }
  apply Hgen; assumption.
Qed.

(** ** The buffer keeps its shape *)

Lemma Forall_removelast {A} (P : A -> Prop) (l : list A) :
  Forall P l -> Forall P (removelast l).
Proof.
  intros H. destruct (snoc_cases l) as [-> | (l' & x & ->)]; [constructor|].
  rewrite removelast_last. now apply Forall_app in H as [H _].
Qed.

Lemma wellFormed_snoc (l : list string) (w : string) :
  wellFormed (l ++ [w]) <-> Forall (fun w => w <> "") l.
Proof. unfold wellFormed. now rewrite removelast_last. Qed.

Lemma backspaceWord_wellFormed (cs cs' : list string) :
  backspaceWord cs = Some cs' -> wellFormed cs -> wellFormed cs'.
Proof.
  destruct (snoc_cases cs) as [-> | (l & w & ->)].
  - intros H. injection H as <-. auto.
  - rewrite backspaceWord_snoc. intros H. injection H as <-.
    rewrite wellFormed_snoc. intros Hl. unfold afterBackspace.
    destruct (streq w ""); [now apply wellFormed_snoc|].
    destruct (streq (dropLastByte w) ""); [|now apply wellFormed_snoc].
    now apply Forall_removelast.
Qed.

Lemma wordBreak_snoc (l : list string) (w : string) :
  wordBreak (l ++ [w]) = Some (if streq w "" then l ++ [w] else l ++ [w; ""]).
Proof.
  unfold wordBreak. rewrite len_pos_snoc, index_last. cbn [mbind option_bind].
  destruct (streq w ""); cbn; [reflexivity|]. now rewrite <- app_assoc.
Qed.

Lemma wordBreak_wellFormed (cs cs' : list string) :
  wordBreak cs = Some cs' -> wellFormed cs -> wellFormed cs'.
Proof.
  destruct (snoc_cases cs) as [-> | (l & w & ->)].
  - intros H. injection H as <-. intros _. constructor.
  - rewrite wordBreak_snoc. intros H. injection H as <-.
    rewrite wellFormed_snoc. intros Hl.
    destruct (streq w "") eqn:E; [now apply wellFormed_snoc|].
    apply streq_false in E.
    replace (l ++ [w; ""]) with ((l ++ [w]) ++ [""]) by (now rewrite <- app_assoc).
    apply wellFormed_snoc. apply Forall_app. split; [exact Hl|].
    now constructor.
Qed.

Lemma appendChar_snoc (l : list string) (w o : string) :
  appendChar (l ++ [w]) o = Some (l ++ [(w ++ o)%string]).
Proof.
  unfold appendChar.
  replace (len (l ++ [w]) =? 0) with false
    by (symmetry; apply Z.eqb_neq; rewrite len_snoc;
        pose proof (len_nonneg l); lia).
  rewrite index_last. cbn [mbind option_bind]. apply setIndex_last.
Qed.

Lemma appendChar_nil (o : string) : appendChar [] o = Some [o].
Proof. reflexivity. Qed.

Lemma appendChar_wellFormed (cs cs' : list string) (o : string) :
  appendChar cs o = Some cs' -> wellFormed cs -> wellFormed cs'.
Proof.
  destruct (snoc_cases cs) as [-> | (l & w & ->)].
  - rewrite appendChar_nil. intros H. injection H as <-. intros _. constructor.
  - rewrite appendChar_snoc. intros H. injection H as <-.
    now rewrite !wellFormed_snoc.
Qed.

Lemma accepted_wellFormed (cs : list string) (pred : string) :
  pred <> "" -> wellFormed cs -> wellFormed (removelast cs ++ [pred; ""]).
Proof.
  intros Hp Hcs.
  replace (removelast cs ++ [pred; ""]) with ((removelast cs ++ [pred]) ++ [""])
    by (now rewrite <- app_assoc).
  apply wellFormed_snoc. apply Forall_app. split; [exact Hcs|].
  now constructor.
Qed.

Lemma enterSentence_buffer (g g' : Game) (out : list Effect) :
  enterSentence g = Some (g', out) -> currentSentence g' = [].
Proof.
  intros H. apply enterSentence_inv in H
    as [(_ & -> & _) | (_ & c & _ & -> & _)]; reflexivity.
Qed.

(** X4.  Only the last word of the buffer is ever empty: if that holds
    before a call of [Update] it holds after it, whatever buttons were
    pressed on whatever gamepads. *)
Theorem buffer_stays_well_formed (env : Env) (pads : list Input)
    (g g' : Game) (out : list Effect) :
  wellFormed (currentSentence g) ->
  Update env pads g = Some (g', out) ->
  wellFormed (currentSentence g').
Proof.
  intros HP H.
  refine (proj1 (Update_keeps (fun g => wellFormed (currentSentence g))
                   (fun g => wellFormed (currentSentence g))
                   (fun _ => True) I (fun _ _ _ _ => I) _ _ env pads g g' out
                   HP H)).
  - clear. intros env g g' HP H.
    apply initMarkov_inv in H as [-> | (_ & c & m & td & p & ->)]; exact HP.
  - clear. intros inp. apply updateGamepad_keeps; try exact I; try (intros; exact I).
    + intros g g' HP H. apply updateSelection_inv in H as (r & a & i & ->).
      exact HP.
    + intros g g' e HP H. split; [|exact I].
      apply handleConfirm_inv in H as [[-> _] | (tok & g1 & _ & -> & Hb)];
        [exact HP|]. cbn [currentSentence set_lastButtonTime].
      destruct Hb as [(_ & cs' & p & Hb & -> & _) | [(_ & He) | (_ & _ & Ht)]].
      * cbn. now apply (backspaceWord_wellFormed _ _ Hb).
      * rewrite (enterSentence_buffer _ _ _ He). constructor.
      * apply typeGlyph_inv in Ht as (cs' & p & Ha & -> & _). cbn.
        now apply (appendChar_wellFormed _ _ _ Ha).
    + intros g g' e HP H. split; [|exact I].
      apply handleBackspace_inv in H as [[-> _] | (_ & cs' & p & Hb & -> & _)];
        [exact HP|]. cbn. now apply (backspaceWord_wellFormed _ _ Hb).
    + intros g g' e HP H. split; [|exact I].
      apply handleSpace_inv in H as [[-> _] | (_ & cs' & p & Hb & -> & _)];
        [exact HP|]. cbn. now apply (wordBreak_wellFormed _ _ Hb).
    + intros g g' e HP H. split; [|exact I].
      apply handleEnter_inv in H as [[-> _] | (_ & He)]; [exact HP|].
      rewrite (enterSentence_buffer _ _ _ He). constructor.
    + intros g g' e HP H. split; [|exact I]. injection H as <- _. exact HP.
    + intros g g' e HP H. split; [|exact I]. injection H as <- _.
      destruct (pressedButton4 inp), (pressedButton5 inp); exact HP.
    + intros g g' e HP H. split; [|exact I].
      apply acceptPrediction_inv in H as [[-> _] | (_ & Hp & H)]; [exact HP|].
      cbv zeta in H. destruct H as (p & -> & _). cbn.
      now apply accepted_wellFormed.
Qed.

(** ** What is typed is what is logged *)

Lemma append_nil_r (s : string) : (s ++ "")%string = s.
Proof. induction s as [|c s IH]; [reflexivity|]. rewrite append_cons. now f_equal. Qed.

Lemma append_assoc (s t u : string) :
  ((s ++ t) ++ u)%string = (s ++ (t ++ u))%string.
Proof.
  induction s as [|c s IH]; [reflexivity|]. rewrite !append_cons. now f_equal.
Qed.

Lemma typedText_app (a b : list Effect) :
  typedText (a ++ b) = (typedText a ++ typedText b)%string.
Proof.
  induction a as [|e a IH]; [reflexivity|]. cbn [app typedText fold_right].
  fold (typedText (a ++ b)). fold (typedText a). rewrite IH.
  now rewrite append_assoc.
Qed.

Lemma loggedText_app (a b : list Effect) :
  loggedText (a ++ b) = (loggedText a ++ loggedText b)%string.
Proof.
  induction a as [|e a IH]; [reflexivity|]. cbn [app loggedText fold_right].
  fold (loggedText (a ++ b)). fold (loggedText a). rewrite IH.
  now rewrite append_assoc.
Qed.

Lemma typed_logged_pair (s : string) :
  loggedText [TypeStr s; WriteRawText s] = typedText [TypeStr s; WriteRawText s].
Proof.
  unfold loggedText, typedText. cbn [fold_right loggedBy typedBy].
  now rewrite append_nil_l.
Qed.

Lemma typed_logged_backspaces (n : nat) :
  loggedText (repeat (KeyTap "backspace") n)
  = typedText (repeat (KeyTap "backspace") n).
Proof. induction n as [|n IH]; [reflexivity|]. cbn [repeat]. exact IH. Qed.

Lemma typed_logged_enter (g g' : Game) (out : list Effect) :
  enterSentence g = Some (g', out) -> loggedText out = typedText out.
Proof.
  intros H. apply enterSentence_inv in H
    as [(_ & _ & ->) | (_ & c & _ & _ & ->)]; reflexivity.
Qed.

(** X5.  Every text a call of [Update] types into the focused window it
    also hands, identically and in the same order, to [appendToRawText]:
    the text of the logging calls of a tick is the text typed by it, a new
    line standing for the enter key.  Backspaces and arrow keys are not
    handed to the log.  (What [appendToRawText] then writes depends on the
    file system and is no part of the statement.) *)
Theorem typed_text_is_logged (env : Env) (pads : list Input)
    (g g' : Game) (out : list Effect) :
  Update env pads g = Some (g', out) ->
  loggedText out = typedText out.
Proof.
  intros H.
  refine (proj2 (Update_keeps (fun _ => True) (fun _ => True)
                   (fun out => loggedText out = typedText out)
                   eq_refl _ (fun _ _ _ _ _ => I) _ env pads g g' out I H)).
  { clear. intros a b Ha Hb. now rewrite typedText_app, loggedText_app, Ha, Hb. }
  clear. intros inp. apply updateGamepad_keeps;
    [reflexivity | | intros; exact I | | | | | | | ].
  - intros a b Ha Hb. now rewrite typedText_app, loggedText_app, Ha, Hb.
  - intros g g' e _ H. split; [exact I|].
    apply handleConfirm_inv in H as [[_ ->] | (tok & g1 & _ & _ & Hb)];
      [reflexivity|].
    destruct Hb as [(_ & cs' & p & _ & _ & ->) | [(_ & He) | (_ & _ & Ht)]].
    + reflexivity.
    + exact (typed_logged_enter _ _ _ He).
    + apply typeGlyph_inv in Ht as (cs' & p & _ & _ & ->).
      apply typed_logged_pair.
  - intros g g' e _ H. split; [exact I|].
    apply handleBackspace_inv in H as [[_ ->] | (_ & cs' & p & _ & _ & ->)];
      reflexivity.
  - intros g g' e _ H. split; [exact I|].
    apply handleSpace_inv in H as [[_ ->] | (_ & cs' & p & _ & _ & ->)];
      reflexivity.
  - intros g g' e _ H. split; [exact I|].
    apply handleEnter_inv in H as [[_ ->] | (_ & He)]; [reflexivity|].
    exact (typed_logged_enter _ _ _ He).
  - intros g g' e _ H. split; [exact I|]. injection H as _ <-.
    destruct (justLeftTop inp), (justLeftBottom inp), (justLeftLeft inp),
      (justLeftRight inp); reflexivity.
  - intros g g' e _ H. split; [exact I|]. injection H as _ <-. reflexivity.
  - intros g g' e _ H. split; [exact I|].
    apply acceptPrediction_inv in H as [[_ ->] | (_ & _ & H)]; [reflexivity|].
    cbv zeta in H. destruct H as (p & _ & ->).
    destruct (strings.HasPrefix _ _); [apply typed_logged_pair|].
    rewrite typedText_app, loggedText_app, typed_logged_backspaces.
    now rewrite typed_logged_pair.
Qed.

(** ** The keys of the frequency map *)

Lemma goodFrequency_empty : goodFrequency ∅.
Proof. intros k f H. now rewrite lookup_empty in H. Qed.

Lemma goodFrequency_bump (m : gmap string Z) (w : string) :
  caseFolded w -> goodFrequency m -> goodFrequency (bump m w).
Proof.
  intros Hw Hm k f. unfold bump.
  destruct (decide (k = w)) as [-> | Hk].
  - rewrite lookup_insert_eq. intros H. injection H as <-.
    split; [exact Hw|]. unfold frequency.
    destruct (m !! w) as [f0|] eqn:E; cbn; [|lia].
    destruct (Hm _ _ E). lia.
  - rewrite lookup_insert_ne by congruence. apply Hm.
Qed.

Lemma goodFrequency_learn (ws : list string) (m : gmap string Z) :
  Forall caseFolded ws -> goodFrequency m -> goodFrequency (learnFrequency m ws).
Proof.
  unfold learnFrequency. revert m.
  induction ws as [|w ws IH]; intros m Hws Hm; [exact Hm|].
  inversion Hws; subst. cbn [fold_left]. apply IH; [assumption|].
  now apply goodFrequency_bump.
Qed.

Lemma goodFrequency_fold_learn (l : list (list string)) (m : gmap string Z) :
  Forall (Forall caseFolded) l -> goodFrequency m ->
  goodFrequency (fold_left learnFrequency l m).
Proof.
  revert m. induction l as [|ws l IH]; intros m Hl Hm; [exact Hm|].
  inversion Hl; subst. cbn [fold_left]. apply IH; [assumption|].
  now apply goodFrequency_learn.
Qed.

Lemma Forall_caseFolded_lower (ws : list string) :
  Forall caseFolded (map strings.ToLower ws).
Proof.
  apply Forall_forall. intros w Hw. apply list_elem_of_fmap in Hw as (v & -> & _).
  apply ToLower_idem.
Qed.

Lemma rawSentences_folded (text : string) :
  Forall (Forall caseFolded) (rawSentences text).
Proof.
  apply Forall_forall. intros ws Hws. apply Forall_forall. intros w Hw.
  now destruct (rawSentences_words text ws w Hws Hw) as (_ & H & _).
Qed.

Lemma loadRawTextAndTrain_good (env : Env) (g g' : Game) (err : option error) :
  is_Some (markovChain g) ->
  goodFrequency (wordFrequency g) ->
  loadRawTextAndTrain env g = Some (g', err) ->
  goodFrequency (wordFrequency g').
Proof.
  intros [c Hc] Hg H.
  destruct (homeDirOk env) eqn:Hh;
    [|unfold loadRawTextAndTrain in H; rewrite Hh in H; injection H as <- _;
      exact Hg].
  destruct (rawTextFile env) as [| |text] eqn:Hf;
    try (unfold loadRawTextAndTrain in H; rewrite Hh, Hf in H; injection H as <- _;
         exact Hg).
  rewrite (loadRawTextAndTrain_spec env g c text Hh Hf Hc) in H.
  injection H as <- _. cbn [wordFrequency set_wordFrequency].
  apply goodFrequency_fold_learn; [apply rawSentences_folded | exact Hg].
Qed.

Lemma initMarkov_good (env : Env) (g g' : Game) :
  markovChain g = None ->
  initMarkov env g = Some g' ->
  goodFrequency (wordFrequency g').
Proof.
  intros Hc H. unfold initMarkov in H. rewrite Hc in H. cbv zeta in H.
  set (g0 := set_wordFrequency ∅ (set_markovChain (Some ∅) g)) in H.
  set (g1 := fst (loadTrainingData env g0)) in H.
  assert (H1 : markovChain g1 = Some ∅ /\ wordFrequency g1 = ∅).
  { unfold g1, loadTrainingData. destruct (negb (homeDirOk env)); [now split|].
    destruct (trainingDataFile env) as [| |data]; try (now split).
    destruct (jsonUnmarshal data (trainingData g0)) as [v failed]. now split. }
  set (g2 := if len (trainingData g1) =? 0
             then set_trainingData seedSentences g1 else g1) in H.
  assert (H2 : markovChain g2 = Some ∅ /\ wordFrequency g2 = ∅).
  { unfold g2. destruct (len (trainingData g1) =? 0); exact H1. }
  destruct H2 as [Hc2 Hf2]. clearbody g2. clear g1 H1 g0.
  rewrite (forEach_trainSentence _ g2 ∅ Hc2) in H.
  cbn [mbind option_bind] in H. rewrite Hf2 in H.
  match type of H with
  | context [loadRawTextAndTrain env ?g3] =>
      destruct (loadRawTextAndTrain env g3) as [[g4 err]|] eqn:Hl; [|discriminate]
  end.
  cbn [mbind option_bind] in H.
  apply loadRawTextAndTrain_good in Hl.
  - destruct (updatePrediction_total g4) as (p & Hp). rewrite Hp in H.
    injection H as <-. exact Hl.
  - eexists; reflexivity.
  - cbn [wordFrequency set_wordFrequency].
    apply goodFrequency_fold_learn; [|apply goodFrequency_empty].
    apply Forall_forall. intros ws Hws.
    apply list_elem_of_fmap in Hws as (v & -> & _). apply Forall_caseFolded_lower.
Qed.

Lemma enterSentence_good (g g' : Game) (out : list Effect) :
  goodFrequency (wordFrequency g) ->
  enterSentence g = Some (g', out) ->
  goodFrequency (wordFrequency g').
Proof.
  intros Hg H. apply enterSentence_inv in H
    as [(_ & -> & _) | (_ & c & _ & -> & _)]; [exact Hg|].
  cbn. apply goodFrequency_learn; [apply Forall_caseFolded_lower | exact Hg].
Qed.

(** X6.  Every key of the frequency map is a lower-cased word counted at
    least once: the first [Update] builds such a map from the files and the
    seed sentences, and every later one keeps it so. *)
Theorem frequency_keys_lower_case (env : Env) (pads : list Input)
    (g g' : Game) (out : list Effect) :
  markovChain g = None \/ goodFrequency (wordFrequency g) ->
  Update env pads g = Some (g', out) ->
  goodFrequency (wordFrequency g').
Proof.
  intros HP H.
  refine (proj1 (Update_keeps
                   (fun g => markovChain g = None
                             \/ goodFrequency (wordFrequency g))
                   (fun g => goodFrequency (wordFrequency g))
                   (fun _ => True) I (fun _ _ _ _ => I) _ _ env pads g g' out
                   HP H)).
  - clear. intros env g g' HP H. destruct (markovChain g) as [c|] eqn:Hc.
    + destruct HP as [HP | HP]; [discriminate|].
      unfold initMarkov in H. rewrite Hc in H. injection H as <-. exact HP.
    + now apply (initMarkov_good env g).
  - clear. intros inp. apply updateGamepad_keeps; try exact I; try (intros; exact I).
    + intros g g' HP H. apply updateSelection_inv in H as (r & a & i & ->).
      exact HP.
    + intros g g' e HP H. split; [|exact I].
      apply handleConfirm_inv in H as [[-> _] | (tok & g1 & _ & -> & Hb)];
        [exact HP|]. cbn [wordFrequency set_lastButtonTime].
      destruct Hb as [(_ & cs' & p & Hb & -> & _) | [(_ & He) | (_ & _ & Ht)]].
      * exact HP.
      * exact (enterSentence_good _ _ _ HP He).
      * apply typeGlyph_inv in Ht as (cs' & p & Ha & -> & _). exact HP.
    + intros g g' e HP H. split; [|exact I].
      apply handleBackspace_inv in H as [[-> _] | (_ & cs' & p & Hb & -> & _)];
        exact HP.
    + intros g g' e HP H. split; [|exact I].
      apply handleSpace_inv in H as [[-> _] | (_ & cs' & p & Hb & -> & _)];
        exact HP.
    + intros g g' e HP H. split; [|exact I].
      apply handleEnter_inv in H as [[-> _] | (_ & He)]; [exact HP|].
      exact (enterSentence_good _ _ _ HP He).
    + intros g g' e HP H. split; [|exact I]. injection H as <- _. exact HP.
    + intros g g' e HP H. split; [|exact I]. injection H as <- _.
      destruct (pressedButton4 inp), (pressedButton5 inp); exact HP.
    + intros g g' e HP H. split; [|exact I].
      apply acceptPrediction_inv in H as [[-> _] | (_ & Hp & H)]; [exact HP|].
      cbv zeta in H. destruct H as (p & -> & _). exact HP.
Qed.

(** ** [Update] never panics while R2 rests *)

Lemma rings_inv (set ring : Z) (l : list string) :
  rings set ring = Some l ->
  (set = 0 \/ set = 1) /\ (ring = 0 \/ ring = 1).
Proof.
  unfold rings.
  destruct (set =? 0) eqn:S0; destruct (set =? 1) eqn:S1;
    destruct (ring =? 0) eqn:R0; destruct (ring =? 1) eqn:R1;
    cbn; intros H; try discriminate; split; lia.
Qed.

Lemma rings_same_length (set set' ring : Z) (l : list string) :
  set' = 0 \/ set' = 1 ->
  rings set ring = Some l ->
  exists l', rings set' ring = Some l' /\ len l' = len l.
Proof.
  intros Hs' H. destruct (rings_inv _ _ _ H) as [Hs Hr].
  destruct Hs as [-> | ->], Hs' as [-> | ->], Hr as [-> | ->];
    cbn in H; injection H as <-; eexists; split; reflexivity.
Qed.

Lemma index_in_range {A} (l : list A) (i : Z) :
  0 <= i < len l -> exists x, index l i = Some x.
Proof.
  intros H. unfold index.
  replace (0 <=? i) with true by (symmetry; apply Z.leb_le; lia).
  replace (i <? len l) with true by (symmetry; apply Z.ltb_lt; lia).
  cbn. apply lookup_lt_is_Some. unfold len in H. lia.
Qed.

Lemma index_Some_range {A} (l : list A) (i : Z) (x : A) :
  index l i = Some x -> 0 <= i < len l.
Proof.
  unfold index. destruct (0 <=? i) eqn:E1; [|discriminate].
  destruct (i <? len l) eqn:E2; [|discriminate]. intros _.
  apply Z.leb_le in E1. apply Z.ltb_lt in E2. lia.
Qed.

Lemma validSelection_set (g : Game) (s : Z) :
  s = 0 \/ s = 1 -> validSelection g -> validSelection (set_currentSet s g).
Proof.
  intros Hs (ring & tok & Hr & Hi).
  destruct (rings_same_length _ s _ _ Hs Hr) as (ring' & Hr' & Hlen).
  apply index_Some_range in Hi. rewrite <- Hlen in Hi.
  destruct (index_in_range ring' _ Hi) as (tok' & Hi').
  exists ring', tok'. now split.
Qed.

(** outside the dead zone the selection is recomputed, and it points at a
    token of the ring *)
Lemma updateSelection_valid (x y : float) (g g' : Game) :
  atan2InRange ->
  validSet g ->
  (0.1 <? PrimFloat.sqrt (x * x + y * y))%float = true ->
  updateSelection x y (PrimFloat.sqrt (x * x + y * y)) g = Some g' ->
  validSelection g'.
Proof.
  intros Hatan Hs Hm H.
  destruct (updateSelection_live x y _ g Hm Hs) as (ring & Hr & Hlen & Hu).
  destruct (Hatan x y Hm) as [Hlo Hhi].
  destruct (quotient_floor _ (len ring) Hlo Hhi Hlen) as (k & Hk & Hrange).
  rewrite (int_of_float64_floor _ k Hk Hrange) in Hu.
  rewrite Hu in H. injection H as <-.
  unfold validSelection.
  cbn [currentSet selectedRing selectedIndex set_selectedIndex
         set_joystickAngle set_selectedRing].
  assert (Hi : 0 <= Z.rem k (len ring) < len ring).
  { rewrite Z.rem_mod_nonneg by lia. apply Z.mod_pos_bound. lia. }
  destruct (index_in_range ring _ Hi) as (tok & Ht).
  exists ring, tok. now split.
Qed.

Lemma appendChar_total (cs : list string) (o : string) :
  exists cs', appendChar cs o = Some cs'.
Proof.
  destruct (snoc_cases cs) as [-> | (l & w & ->)].
  - eexists. apply appendChar_nil.
  - eexists. apply appendChar_snoc.
Qed.

Lemma typeGlyph_total (tok : string) (g : Game) :
  exists g' out,
    typeGlyph tok g = Some (g', out)
    /\ (is_Some (markovChain g) -> is_Some (markovChain g')).
Proof.
  unfold typeGlyph.
  match goal with
  | |- context [appendChar ?cs ?o] =>
      destruct (appendChar_total cs o) as (cs' & ->)
  end.
  cbn [mbind option_bind].
  destruct (updatePrediction_total (set_currentSentence cs' g)) as (p & ->).
  cbn. eexists. eexists. split; [reflexivity|]. auto.
Qed.

Lemma handleConfirm_total (inp : Input) (magnitude : float) (g : Game) :
  is_Some (markovChain g) ->
  ((0.1 <? magnitude)%float = true -> validSelection g) ->
  exists g' out,
    handleConfirm inp magnitude g = Some (g', out)
    /\ is_Some (markovChain g').
Proof.
  intros Hc Hv. unfold handleConfirm.
  destruct (justRightBottom inp); [|now exists g, []].
  destruct (200 * Millisecond <? Sub (now inp) (lastButtonTime g));
    [|now exists g, []].
  destruct (0.1 <? magnitude)%float; [|now exists g, []].
  destruct (Hv eq_refl) as (ring & tok & -> & Ht).
  cbn [mbind option_bind]. rewrite (index_Some_lt _ _ _ Ht), Ht.
  cbn [mbind option_bind].
  destruct (streq tok "⌫").
  - destruct (backspaceWord_total (currentSentence g)) as (cs' & ->).
    cbn [mbind option_bind].
    destruct (updatePrediction_total (set_currentSentence cs' g)) as (p & ->).
    cbn. eexists. eexists. split; [reflexivity|]. exact Hc.
  - destruct (streq tok "↵").
    + destruct (enterSentence_total g Hc) as (g1 & saved & -> & Hk & _).
      cbn. eexists. eexists. split; [reflexivity|].
      destruct Hk as (_ & _ & _ & Hk). cbn. auto.
    + destruct (typeGlyph_total tok g) as (g1 & out & -> & Hk).
      cbn. eexists. eexists. split; [reflexivity|]. cbn. auto.
Qed.

Lemma andThen_some (r : option (Game * list Effect))
    (k : Game -> option (Game * list Effect)) :
  (exists g1 e1, r = Some (g1, e1) /\ is_Some (markovChain g1)) ->
  (forall g1, is_Some (markovChain g1) ->
              exists g2 e2, k g1 = Some (g2, e2) /\ keepsSelection g1 g2) ->
  exists g2 e, andThen r k = Some (g2, e) /\ is_Some (markovChain g2).
Proof.
  intros (g1 & e1 & -> & Hc) Hk.
  destruct (Hk g1 Hc) as (g2 & e2 & H2 & (_ & _ & _ & Hc2)).
  unfold andThen. cbn. rewrite H2. cbn. eexists. eexists.
  split; [reflexivity | auto].
Qed.

Lemma updateGamepad_total (inp : Input) (g : Game) :
  atan2InRange ->
  restingR2 inp ->
  validSet g ->
  is_Some (markovChain g) ->
  exists g' out, updateGamepad inp g = Some (g', out).
Proof.
  intros Hatan Hj Hs Hc. unfold updateGamepad.
  set (x := LeftStickHorizontal inp). set (y := LeftStickVertical inp).
  set (magnitude := PrimFloat.sqrt (x * x + y * y)).
  assert (H0 : exists g0,
             updateSelection x y magnitude g = Some g0
             /\ is_Some (markovChain g0)
             /\ ((0.1 <? magnitude)%float = true -> validSelection g0)).
  { destruct (0.1 <? magnitude)%float eqn:Hm.
    - destruct (updateSelection_live x y magnitude g Hm Hs)
        as (ring & Hr & Hlen & Hu).
      eexists. split; [exact Hu|]. split; [exact Hc|]. intros _.
      apply (updateSelection_valid x y g _ Hatan Hs Hm Hu).
    - exists g. split; [now apply updateSelection_dead|]. split; [exact Hc|].
      discriminate. }
  destruct H0 as (g0 & -> & Hc0 & Hv0). cbn [mbind option_bind].
  assert (H : exists g' out,
            andThen (andThen (andThen (andThen (andThen (andThen
              (handleConfirm inp magnitude g0)
              (handleBackspace inp)) (handleSpace inp)) (handleEnter inp))
              (handleArrows inp)) (handleModifiers inp)) (acceptPrediction inp)
            = Some (g', out) /\ is_Some (markovChain g'));
    [|destruct H as (g' & out & H & _); eauto].
  apply andThen_some; [|intros; now apply acceptPrediction_resting].
  apply andThen_some; [|intros; apply handleModifiers_total].
  apply andThen_some; [|intros; apply handleArrows_total].
  apply andThen_some; [|intros; now apply handleEnter_total].
  apply andThen_some; [|intros; apply handleSpace_total].
  apply andThen_some; [|intros; apply handleBackspace_total].
  now apply handleConfirm_total.
Qed.

Lemma sameSelection_valid (g g' : Game) :
  sameSelection g g' ->
  (validSet g -> validSet g')
  /\ (validSelection g -> validSelection g')
  /\ (is_Some (markovChain g) -> is_Some (markovChain g')).
Proof.
  intros (H1 & H2 & H3 & H4). unfold validSet, validSelection.
  rewrite H1, H2, H3. auto.
Qed.

Lemma enterSentence_sameSelection (g g' : Game) (out : list Effect) :
  enterSentence g = Some (g', out) -> sameSelection g g'.
Proof.
  intros H. apply enterSentence_inv in H
    as [(_ & -> & _) | (_ & c & Hc & -> & _)]; repeat split; cbn; auto.
Qed.

Lemma handleConfirm_sameSelection (inp : Input) (magnitude : float)
    (g g' : Game) (out : list Effect) :
  handleConfirm inp magnitude g = Some (g', out) -> sameSelection g g'.
Proof.
  intros H. apply handleConfirm_inv in H
    as [[-> _] | (tok & g1 & _ & -> & Hb)]; [repeat split; auto|].
  destruct Hb as [(_ & cs' & p & _ & -> & _) | [(_ & He) | (_ & _ & Ht)]].
  - repeat split; auto.
  - apply enterSentence_sameSelection in He as (H1 & H2 & H3 & H4).
    repeat split; cbn; auto.
  - apply typeGlyph_inv in Ht as (cs' & p & _ & -> & _). repeat split; auto.
Qed.

Lemma handleBackspace_sameSelection (inp : Input) (g g' : Game)
    (out : list Effect) :
  handleBackspace inp g = Some (g', out) -> sameSelection g g'.
Proof.
  intros H. apply handleBackspace_inv in H
    as [[-> _] | (_ & cs' & p & _ & -> & _)]; repeat split; auto.
Qed.

Lemma handleSpace_sameSelection (inp : Input) (g g' : Game)
    (out : list Effect) :
  handleSpace inp g = Some (g', out) -> sameSelection g g'.
Proof.
  intros H. apply handleSpace_inv in H
    as [[-> _] | (_ & cs' & p & _ & -> & _)]; repeat split; auto.
Qed.

Lemma handleEnter_sameSelection (inp : Input) (g g' : Game)
    (out : list Effect) :
  handleEnter inp g = Some (g', out) -> sameSelection g g'.
Proof.
  intros H. apply handleEnter_inv in H as [[-> _] | (_ & He)];
    [repeat split; auto|]. now apply enterSentence_sameSelection in He.
Qed.

Lemma acceptPrediction_sameSelection (inp : Input) (g g' : Game)
    (out : list Effect) :
  acceptPrediction inp g = Some (g', out) -> sameSelection g g'.
Proof.
  intros H. apply acceptPrediction_inv in H as [[-> _] | (_ & _ & H)];
    [repeat split; auto|]. cbv zeta in H. destruct H as (p & -> & _).
  repeat split; auto.
Qed.

Lemma initMarkov_sameSelection (env : Env) (g g' : Game) :
  initMarkov env g = Some g' ->
  sameSelection g g' /\ is_Some (markovChain g').
Proof.
  intros H. destruct (initMarkov_total env g) as (g2 & H2 & _ & _ & _ & Hc).
  rewrite H in H2. injection H2 as <-. split; [|exact Hc].
  apply initMarkov_inv in H as [-> | (_ & c & m & td & p & ->)];
    repeat split; auto.
Qed.

(** the set in force, the chain and the selection through the handlers of
    one gamepad *)
Lemma updateGamepad_keeps_selection (W : Prop) (inp : Input) :
  atan2InRange ->
  keeps (fun g => validSet g /\ is_Some (markovChain g)
                  /\ (W -> validSelection g))
        (fun _ => True) (updateGamepad inp).
Proof.
  intros Hatan.
  assert (Hsame : forall g g' : Game,
            sameSelection g g' ->
            validSet g /\ is_Some (markovChain g) /\ (W -> validSelection g) ->
            (validSet g' /\ is_Some (markovChain g') /\ (W -> validSelection g'))
            /\ True).
  { intros g g' Hs (H1 & H2 & H3).
    destruct (sameSelection_valid _ _ Hs) as (A1 & A2 & A3). auto 6. }
  apply updateGamepad_keeps; try exact I; try (intros; exact I).
  - intros g g' (Hs & Hc & Hv) H.
    destruct (0.1 <? stickMagnitude inp)%float eqn:Hm.
    + pose proof (updateSelection_valid _ _ _ _ Hatan Hs Hm H) as Hv'.
      apply updateSelection_inv in H as (r & a & i & ->).
      split; [exact Hs|]. split; [exact Hc|]. auto.
    + rewrite updateSelection_dead in H by exact Hm. injection H as <-. auto.
  - intros g g' e HP H. apply (Hsame g); [|exact HP].
    now apply handleConfirm_sameSelection in H.
  - intros g g' e HP H. apply (Hsame g); [|exact HP].
    now apply handleBackspace_sameSelection in H.
  - intros g g' e HP H. apply (Hsame g); [|exact HP].
    now apply handleSpace_sameSelection in H.
  - intros g g' e HP H. apply (Hsame g); [|exact HP].
    now apply handleEnter_sameSelection in H.
  - intros g g' e HP H. injection H as <- _. auto.
  - intros g g' e (Hs & Hc & Hv) H. injection H as <- _. split; [|exact I].
    assert (Hs' : (if pressedButton4 inp then 1 else 0) = 0
                  \/ (if pressedButton4 inp then 1 else 0) = 1)
      by (destruct (pressedButton4 inp); auto).
    split; [|split].
    + destruct (pressedButton4 inp), (pressedButton5 inp); cbn; auto.
    + destruct (pressedButton4 inp), (pressedButton5 inp); exact Hc.
    + intros HW. specialize (Hv HW).
      assert (Hgen : forall s u, s = 0 \/ s = 1 ->
                validSelection (set_uppercase u (set_currentSet s g))).
      { intros s u Hs0. exact (validSelection_set g s Hs0 Hv). }
      destruct (pressedButton4 inp), (pressedButton5 inp); apply Hgen; auto.
  - intros g g' e HP H. apply (Hsame g); [|exact HP].
    now apply acceptPrediction_sameSelection in H.
Qed.

(** X7.  Without R2, [Update] never panics.  With [math.Atan2] answering
    within [-π, π], the set in force one of the two and R2 (button 7) not
    just pressed on any gamepad, every call returns, whatever the files
    hold, however many gamepads report and whatever else they report; the
    set in force is again one of the two, the chain exists, and a selection
    that pointed at a token of a ring of the set in force still does (the
    rings of the two sets have the same lengths, so switching sets never
    leaves the index out of range). *)
Theorem Update_returns_without_R2 (env : Env) (pads : list Input) (g : Game) :
  atan2InRange ->
  validSet g ->
  Forall restingR2 pads ->
  exists g' out,
    Update env pads g = Some (g', out)
    /\ validSet g'
    /\ is_Some (markovChain g')
    /\ (validSelection g -> validSelection g').
Proof.
  intros Hatan Hs Hj.
  assert (Htotal : exists g' out, Update env pads g = Some (g', out)).
  { unfold Update.
    destruct (initMarkov_total env g) as (g0 & H0 & _).
    rewrite H0. cbn [mbind option_bind].
    destruct (initMarkov_sameSelection _ _ _ H0) as [Hsame Hc0].
    destruct (sameSelection_valid _ _ Hsame) as (Hs0 & _).
    specialize (Hs0 Hs). clear H0 Hsame Hs. generalize (@nil Effect) as out0.
    revert g0 Hs0 Hc0.
    induction Hj as [|inp pads Hi _ IH]; intros g0 Hs0 Hc0 out0; cbn [forEach].
    - eauto.
    - destruct (updateGamepad_total inp g0 Hatan Hi Hs0 Hc0) as (g1 & e & H1).
      rewrite H1. cbn [mbind option_bind].
      destruct (updateGamepad_keeps_selection False inp Hatan g0 g1 e)
        as [(Hs1 & Hc1 & _) _]; [tauto | exact H1 |].
      apply IH; assumption. }
  destruct Htotal as (g' & out & H). exists g', out. split; [exact H|].
  pose proof (Update_keeps
                (fun g0 => validSet g0 /\ (validSelection g -> validSelection g0))
                (fun g0 => validSet g0 /\ is_Some (markovChain g0)
                           /\ (validSelection g -> validSelection g0))
                (fun _ => True) I (fun _ _ _ _ => I)) as HK.
  cbv beta in HK.
  assert (Hinit : forall (env : Env) (g0 g1 : Game),
            validSet g0 /\ (validSelection g -> validSelection g0) ->
            initMarkov env g0 = Some g1 ->
            validSet g1 /\ is_Some (markovChain g1)
            /\ (validSelection g -> validSelection g1)).
  { clear. intros env g0 g1 [Hs Hv] H.
    destruct (initMarkov_sameSelection _ _ _ H) as [Hsame Hc].
    destruct (sameSelection_valid _ _ Hsame) as (A1 & A2 & _). auto. }
  destruct (HK Hinit (fun inp => updateGamepad_keeps_selection _ inp Hatan)
               env pads g g' out (conj Hs (fun v => v)) H) as [HP _].
  exact HP.
Qed.

(** ** The dead zone, whatever is pressed *)

(** a property kept by the gamepads that report is kept by [Update] *)
Lemma Update_keeps_where (R : Input -> Prop) (P0 P : Game -> Prop) :
  (forall env g g', P0 g -> initMarkov env g = Some g' -> P g') ->
  (forall inp, R inp -> keeps P (fun _ => True) (updateGamepad inp)) ->
  forall env pads g g' out,
    Forall R pads ->
    P0 g -> Update env pads g = Some (g', out) -> P g'.
Proof.
  intros Hinit Hpad env pads g g' out HR HP H. unfold Update in H.
  destruct (initMarkov env g) as [g0|] eqn:H0; [|discriminate].
  cbn [mbind option_bind] in H. pose proof (Hinit _ _ _ HP H0) as HP0.
  clear H0 HP g. revert H. generalize (@nil Effect) as out0. revert g0 HP0.
  induction HR as [|inp pads Hi _ IH]; intros g1 HP1 out0 H; cbn in H.
  - now injection H as <- _.
  - destruct (updateGamepad inp g1) as [[g2 e]|] eqn:H1; [|discriminate].
    cbn in H. destruct (Hpad inp Hi _ _ _ HP1 H1) as [HP2 _].
    exact (IH g2 HP2 _ H).
Qed.

(** a gamepad whose stick rests leaves the selection where it was, if it
    is served to the end *)
Lemma updateGamepad_dead_keeps (g0 : Game) (inp : Input) :
  inDeadZone inp ->
  keeps (fun g => selectedIndex g = selectedIndex g0
                  /\ selectedRing g = selectedRing g0)
        (fun _ => True) (updateGamepad inp).
Proof.
  intros Hd.
  assert (Hsame : forall g g' : Game,
            sameSelection g g' ->
            selectedIndex g = selectedIndex g0
            /\ selectedRing g = selectedRing g0 ->
            (selectedIndex g' = selectedIndex g0
             /\ selectedRing g' = selectedRing g0) /\ True).
  { intros g g' (_ & H2 & H3 & _) [A1 A2]. repeat split; congruence. }
  apply updateGamepad_keeps; try exact I; try (intros; exact I).
  - intros g g' HP H.
    rewrite updateSelection_dead in H by exact (float_leb_not_ltb _ _ Hd).
    now injection H as <-.
  - intros g g' e HP H. apply (Hsame g); [|exact HP].
    now apply handleConfirm_sameSelection in H.
  - intros g g' e HP H. apply (Hsame g); [|exact HP].
    now apply handleBackspace_sameSelection in H.
  - intros g g' e HP H. apply (Hsame g); [|exact HP].
    now apply handleSpace_sameSelection in H.
  - intros g g' e HP H. apply (Hsame g); [|exact HP].
    now apply handleEnter_sameSelection in H.
  - intros g g' e HP H. injection H as <- _. auto.
  - intros g g' e HP H. injection H as <- _. split; [|exact I].
    destruct (pressedButton4 inp), (pressedButton5 inp); exact HP.
  - intros g g' e HP H. apply (Hsame g); [|exact HP].
    now apply acceptPrediction_sameSelection in H.
Qed.

Lemma Update_dead_keeps (env : Env) (pads : list Input) (g g' : Game)
    (out : list Effect) :
  Forall inDeadZone pads ->
  Update env pads g = Some (g', out) ->
  selectedIndex g' = selectedIndex g /\ selectedRing g' = selectedRing g.
Proof.
  intros Hd H.
  refine (Update_keeps_where inDeadZone
            (fun g1 => g1 = g)
            (fun g1 => selectedIndex g1 = selectedIndex g
                       /\ selectedRing g1 = selectedRing g)
            _ (updateGamepad_dead_keeps g) env pads g g' out Hd eq_refl H).
  intros env0 g1 g2 -> H0.
  destruct (initMarkov_sameSelection _ _ _ H0) as [(_ & H2 & H3 & _) _].
  now split.
Qed.

(** C3.  While the stick stays within the dead zone (magnitude at most
    0.1), a call of [Update] that returns leaves [selectedIndex] and
    [selectedRing] as they were, whatever the stick's direction, the
    buttons pressed and the files read, and so does any sequence of such
    calls; and the calls do return when R2 (button 7) is not just
    pressed. *)
Theorem C3_dead_zone_holds_selection
    (frames : list (Env * list Input)) (g : Game) :
  Forall (fun frame => Forall inDeadZone (snd frame)) frames ->
  (forall g' out,
     runFrames frames g = Some (g', out) ->
     selectedIndex g' = selectedIndex g /\ selectedRing g' = selectedRing g)
  /\ (Forall (fun frame => Forall restingR2 (snd frame)) frames ->
      exists g' out, runFrames frames g = Some (g', out)).
Proof.
  intros Hd. split.
  - revert g. induction Hd as [|[env pads] frames Hf _ IH]; intros g g' out H.
    + cbn in H. now injection H as <- _.
    + cbn [runFrames] in H. cbn in Hf.
      destruct (Update env pads g) as [[g1 out1]|] eqn:H1; [|discriminate].
      cbn [mbind option_bind] in H.
      destruct (runFrames frames g1) as [[g2 out2]|] eqn:H2; [|discriminate].
      cbn in H. injection H as <- _.
      destruct (Update_dead_keeps _ _ _ _ _ Hf H1) as [A1 A2].
      destruct (IH _ _ _ H2) as [B1 B2]. split; congruence.
  - intros Hj. revert g.
    induction Hd as [|[env pads] frames Hf _ IH]; intros g.
    + exists g, []. reflexivity.
    + apply Forall_cons_iff in Hj as [Hj Hjs]. cbn in Hf, Hj.
      cbn [runFrames].
      destruct (Update_dead env pads g Hf Hj) as (g1 & out1 & -> & _). cbn.
      destruct (IH Hjs g1) as (g2 & out2 & ->). cbn. eauto.
Qed.

(** ** Enter *)

(** X8.  A line of one word is never learned.  When the buffer holds at
    most one word, Enter (the Y button, or the ring's enter token under the
    confirm button) sends the enter key, logs a new line and empties the
    buffer; the chain, the frequency map and the training data stay as they
    are and nothing is saved.  No chain is needed for that. *)
Theorem short_line_not_learned (inp : Input) (g : Game) :
  len (currentSentence g) <= 1 ->
  enterSentence g
  = Some (set_currentSentence [] g, [KeyTap "enter"; WriteRawText newline])
  /\ (justRightTop inp = true ->
      handleEnter inp g
      = Some (set_currentSentence [] g, [KeyTap "enter"; WriteRawText newline]))
  /\ (forall magnitude, confirmReaches inp magnitude g "↵" ->
      handleConfirm inp magnitude g
      = Some (set_lastButtonTime (now inp) (set_currentSentence [] g),
              [KeyTap "enter"; WriteRawText newline])).
Proof.
  intros Hlen.
  assert (He : enterSentence g
               = Some (set_currentSentence [] g,
                       [KeyTap "enter"; WriteRawText newline])).
  { unfold enterSentence.
    replace (1 <? len (currentSentence g)) with false
      by (symmetry; apply Z.ltb_ge; exact Hlen).
    reflexivity. }
  split; [exact He|]. split.
  - intros Hj. unfold handleEnter. now rewrite Hj.
  - intros magnitude (Hj & Hd & Hm & ring & Hr & Hi). unfold handleConfirm.
    rewrite Hj. apply Z.ltb_lt in Hd. rewrite Hd, Hm, Hr.
    cbn [mbind option_bind]. rewrite (index_Some_lt _ _ _ Hi), Hi.
    cbn [mbind option_bind].
    change (streq "↵" "⌫") with false. change (streq "↵" "↵") with true.
    cbv iota. rewrite He. reflexivity.
Qed.

Lemma transitions_Add_adjacent (c : gomarkov.Chain) (ws : list string)
    (a b : string) :
  adjacent a b ([gomarkov.StartToken] ++ ws ++ [gomarkov.EndToken]) ->
  transitions c a b + 1 <= transitions (gomarkov.Add c ws) a b.
Proof. apply transitions_addPairs_adjacent. Qed.

(** X9.  A line of two words or more is learned as it stands in the buffer.
    Enter hands the buffer to the chain unchanged (so every adjacency of the
    line, start and end tokens included, is counted once more, and an empty
    last word left by a space is a token like any other), appends it to the
    training data, calls [saveTrainingData] once the line is appended (so
    the data that call is to write is the new training data; whether it
    reaches the file depends on the file system), counts every non-empty
    word lower-cased in the frequency map (an empty word is not counted),
    and empties the buffer. *)
Theorem long_line_learned (g : Game) (c : gomarkov.Chain) :
  markovChain g = Some c ->
  1 < len (currentSentence g) ->
  let cs := currentSentence g in
  exists g' c',
    enterSentence g
    = Some (g', [KeyTap "enter"; WriteRawText newline;
                 WriteTrainingData (trainingData g')])
    /\ currentSentence g' = []
    /\ trainingData g' = trainingData g ++ [cs]
    /\ markovChain g' = Some c'
    /\ c' = gomarkov.Add c cs
    /\ (forall a b,
          adjacent a b ([gomarkov.StartToken] ++ cs ++ [gomarkov.EndToken]) ->
          transitions c a b + 1 <= transitions c' a b)
    /\ (forall a b, transitions c a b <= transitions c' a b)
    /\ (forall w, w ∈ cs -> w <> "" ->
          frequency (wordFrequency g) (strings.ToLower w) + 1
          <= frequency (wordFrequency g') (strings.ToLower w))
    /\ (forall v, frequency (wordFrequency g) v <= frequency (wordFrequency g') v)
    /\ frequency (wordFrequency g') "" = frequency (wordFrequency g) "".
Proof.
  intros Hc Hlen cs.
  destruct (enterSentence g) as [[g' out]|] eqn:He.
  2:{ exfalso. destruct (enterSentence_total g) as (g1 & s & H1 & _);
        [now exists c | congruence]. }
  apply enterSentence_inv in He as [(Hle & _) | (_ & c0 & Hc0 & -> & ->)];
    [lia|].
  rewrite Hc in Hc0. injection Hc0 as <-.
  exists (set_currentSentence [] (learnSentence c g)), (gomarkov.Add c cs).
  split; [reflexivity|].
  split; [reflexivity|]. split; [reflexivity|]. split; [reflexivity|].
  split; [reflexivity|]. split; [intros a b; apply transitions_Add_adjacent|].
  split; [intros a b; apply transitions_Add_mono|].
  cbn [wordFrequency set_currentSentence learnSentence set_wordFrequency].
  split; [|split].
  - intros w Hw Hne. apply frequency_learn_seen.
    apply list_elem_of_fmap. exists w. split; [reflexivity|].
    apply list_elem_of_In, filter_In. split; [now apply list_elem_of_In|].
    unfold nonEmpty. apply streq_false in Hne. now rewrite Hne.
  - intros v. apply frequency_learn_mono.
  - unfold learnFrequency.
    assert (Hno : forall (ws : list string) (m : gmap string Z),
              "" ∉ ws -> frequency (fold_left bump ws m) "" = frequency m "").
    { induction ws as [|w ws IH]; intros m Hin; [reflexivity|].
      cbn [fold_left]. rewrite IH by (intros H; apply Hin; now right).
      unfold frequency at 1, bump. rewrite lookup_insert_ne; [reflexivity|].
      intros ->. apply Hin. now left. }
    apply Hno. intros Hin. apply list_elem_of_fmap in Hin as (w & Hw & Hin).
    apply list_elem_of_In, filter_In in Hin as [_ Hne].
    unfold nonEmpty in Hne. destruct w; discriminate.
Qed.

(** ** Space *)

Lemma wordBreak_last (cs cs' : list string) :
  wordBreak cs = Some cs' ->
  last cs' = Some "" /\ wordBreak cs' = Some cs'
  /\ (cs' = cs \/ cs' = cs ++ [""]).
Proof.
  destruct (snoc_cases cs) as [-> | (l & w & ->)].
  - intros H. injection H as <-. repeat split. now right.
  - rewrite wordBreak_snoc. destruct (streq w "") eqn:E.
    + apply streq_true in E. subst w. intros H. injection H as <-.
      split; [apply last_snoc|]. split; [|now left].
      rewrite wordBreak_snoc. reflexivity.
    + intros H. injection H as <-.
      replace (l ++ [w; ""]) with ((l ++ [w]) ++ [""]) by (now rewrite <- app_assoc).
      split; [apply last_snoc|]. split; [|now right].
      rewrite wordBreak_snoc. reflexivity.
Qed.

(** X10.  Space opens at most one new word.  The X button always types and
    logs one space; afterwards the buffer ends with an empty word, which is
    the buffer itself when it already ended with one and the buffer with an
    empty word appended otherwise.  Pressing X again types another space
    and leaves the buffer as it is. *)
Theorem space_opens_one_word (inp inp2 : Input) (g : Game) :
  justRightLeft inp = true ->
  justRightLeft inp2 = true ->
  exists g1 g2,
    handleSpace inp g = Some (g1, [TypeStr " "; WriteRawText " "])
    /\ last (currentSentence g1) = Some ""
    /\ (currentSentence g1 = currentSentence g
        \/ currentSentence g1 = currentSentence g ++ [""])
    /\ (last (currentSentence g) = Some "" ->
        currentSentence g1 = currentSentence g)
    /\ handleSpace inp2 g1 = Some (g2, [TypeStr " "; WriteRawText " "])
    /\ currentSentence g2 = currentSentence g1.
Proof.
  intros Hj Hj2.
  destruct (wordBreak_total (currentSentence g)) as (cs1 & H1).
  destruct (wordBreak_last _ _ H1) as (Hlast & Hagain & Hshape).
  destruct (updatePrediction_total (set_currentSentence cs1 g)) as (p1 & Hp1).
  destruct (updatePrediction_total
              (set_currentSentence cs1
                 (set_nextPrediction p1 (set_currentSentence cs1 g))))
    as (p2 & Hp2).
  exists (set_nextPrediction p1 (set_currentSentence cs1 g)),
    (set_nextPrediction p2
       (set_currentSentence cs1
          (set_nextPrediction p1 (set_currentSentence cs1 g)))).
  split.
  { unfold handleSpace. rewrite Hj, H1. cbn [mbind option_bind].
    rewrite Hp1. reflexivity. }
  cbn [currentSentence set_nextPrediction set_currentSentence].
  split; [exact Hlast|]. split; [exact Hshape|]. split.
  { intros Hl. apply last_Some in Hl as (l & Hl). rewrite Hl in H1.
    rewrite wordBreak_snoc in H1. cbn in H1. injection H1 as <-.
    now rewrite Hl. }
  split; [|reflexivity].
  unfold handleSpace. rewrite Hj2.
  cbn [currentSentence set_nextPrediction set_currentSentence].
  rewrite Hagain. cbn [mbind option_bind]. rewrite Hp2. reflexivity.
Qed.

(** ** A glyph and a backspace *)

Lemma string_one_byte (s : string) : strlen s = 1 -> exists c, s = String c "".
Proof.
  destruct s as [|c [|d s]]; unfold strlen; cbn; intros H; try lia.
  now exists c.
Qed.

(** X11.  Backspace undoes a one-byte glyph, and a little more after a
    space.  When a glyph of one byte has been typed and B is pressed next,
    the buffer is the one before the glyph if that buffer was empty or ended
    with a non-empty word; if it ended with the empty word a space had
    opened, that empty word is gone too. *)
Theorem glyph_then_backspace (inp : Input) (tok : string)
    (g g1 g2 : Game) (out1 out2 : list Effect) :
  typeGlyph tok g = Some (g1, out1) ->
  strlen (displayChar g tok) = 1 ->
  justRightRight inp = true ->
  handleBackspace inp g1 = Some (g2, out2) ->
  out2 = [KeyTap "backspace"]
  /\ (currentSentence g = [] -> currentSentence g2 = [])
  /\ (forall l w, currentSentence g = l ++ [w] -> w <> "" ->
        currentSentence g2 = currentSentence g)
  /\ (forall l, currentSentence g = l ++ [""] -> currentSentence g2 = l).
Proof.
  intros Ht Hone Hj Hb.
  apply typeGlyph_inv in Ht as (cs1 & p1 & Ha & -> & _).
  destruct (string_one_byte _ Hone) as (c & Hc). rewrite Hc in Ha.
  match type of Hb with
  | handleBackspace inp ?g1 = _ =>
      destruct (backspaceWord_total (currentSentence g1)) as (cs2 & Hb2);
      destruct (handleBackspace_tracks inp g1 cs2 Hj Hb2) as (p2 & Hh)
  end.
  rewrite Hh in Hb. injection Hb as <- <-. rename Hb2 into Hb.
  cbn [currentSentence set_nextPrediction set_currentSentence] in *.
  split; [reflexivity|]. split; [|split].
  - intros Hcs. rewrite Hcs, appendChar_nil in Ha. injection Ha as <-.
    change [String c ""] with ([] ++ [("" ++ String c "")%string]) in Hb.
    rewrite backspaceWord_char in Hb. cbn in Hb. now injection Hb as <-.
  - intros l w Hcs Hw. rewrite Hcs, appendChar_snoc in Ha. injection Ha as <-.
    rewrite backspaceWord_char in Hb. apply streq_false in Hw.
    rewrite Hw in Hb. injection Hb as <-. now rewrite Hcs.
  - intros l Hcs. rewrite Hcs, appendChar_snoc in Ha. injection Ha as <-.
    rewrite backspaceWord_char in Hb. cbn in Hb. now injection Hb as <-.
Qed.

(** ** The glyph typed is the glyph shown *)

Lemma appendChar_spec (cs : list string) (o : string) :
  appendChar cs o = Some (removelast cs ++ [(inProgress cs ++ o)%string]).
Proof.
  destruct (snoc_cases cs) as [-> | (l & w & ->)]; [reflexivity|].
  rewrite appendChar_snoc, removelast_last. unfold inProgress.
  now rewrite last_snoc.
Qed.

Lemma displayChar_ring (g : Game) (set ring : Z) (l : list string)
    (tok : string) :
  rings set ring = Some l ->
  tok ∈ l ->
  displayChar g tok
  = if (set =? 0) && (ring =? 1) && negb (uppercase g)
    then strings.ToLower tok else tok.
Proof.
  intros Hr Ht. destruct (rings_inv _ _ _ Hr) as [Hs Hg].
  assert (Hall : Forall
            (fun tok =>
               displayChar g tok
               = if (set =? 0) && (ring =? 1) && negb (uppercase g)
                 then strings.ToLower tok else tok) l).
  { unfold displayChar.
    destruct Hs as [-> | ->], Hg as [-> | ->]; cbn in Hr; injection Hr as <-;
      destruct (uppercase g); repeat constructor. }
  rewrite Forall_forall in Hall. now apply Hall.
Qed.

(** X12.  The confirm button types the glyph as the ring shows it.  For a
    token that is neither delete nor enter, what is typed and logged is the
    character [Draw] displays for it: a letter of the outer ring of the main
    set in lower case unless R1 was held at the previous tick, every other
    token as it stands.  The glyph is appended to the word in progress
    and the debounce clock restarts. *)
Theorem typed_glyph_is_displayed (inp : Input) (magnitude : float)
    (g : Game) (tok : string) :
  confirmReaches inp magnitude g tok ->
  tok <> "⌫" ->
  tok <> "↵" ->
  let shown := displayChar g tok in
  exists g',
    handleConfirm inp magnitude g
    = Some (g', [TypeStr shown; WriteRawText shown])
    /\ shown = (if (currentSet g =? 0) && (selectedRing g =? 1)
                   && negb (uppercase g)
                then strings.ToLower tok else tok)
    /\ currentSentence g'
       = removelast (currentSentence g)
         ++ [(inProgress (currentSentence g) ++ shown)%string]
    /\ lastButtonTime g' = now inp.
Proof.
  intros (Hj & Hd & Hm & ring & Hr & Hi) Hb He shown.
  unfold handleConfirm. rewrite Hj. apply Z.ltb_lt in Hd. rewrite Hd, Hm, Hr.
  cbn [mbind option_bind]. rewrite (index_Some_lt _ _ _ Hi), Hi.
  cbn [mbind option_bind].
  apply streq_false in Hb, He. rewrite Hb, He.
  destruct (typeGlyph_total tok g) as (g1 & out & Ht & _). rewrite Ht.
  apply typeGlyph_inv in Ht as (cs' & p & Ha & -> & ->).
  rewrite appendChar_spec in Ha. injection Ha as <-.
  cbn [mbind option_bind]. eexists. split; [reflexivity|].
  split; [|split; reflexivity].
  apply (displayChar_ring g _ _ ring); [exact Hr|].
  unfold index in Hi. destruct (0 <=? selectedIndex g); [|discriminate].
  destruct (selectedIndex g <? len ring); [|discriminate].
  cbn in Hi. now apply list_elem_of_lookup_2 in Hi.
Qed.

(** ** The first [Update], whatever the files hold *)

(** X13.  Initialisation never fails and never leaves the predictor
    untrained.  Whatever the home directory and the two files are (missing,
    unreadable, not JSON, empty), the first [Update] builds a chain; the
    training data afterwards is not empty, every adjacency of every
    training sentence is in the chain and every word of them, lower-cased,
    is counted in the frequency map. *)
Theorem initialisation_always_trains (env : Env) (g : Game) :
  markovChain g = None ->
  exists g' c,
    initMarkov env g = Some g'
    /\ markovChain g' = Some c
    /\ trainingData g' <> []
    /\ (forall s a b,
          s ∈ trainingData g' ->
          adjacent a b ([gomarkov.StartToken] ++ s ++ [gomarkov.EndToken]) ->
          1 <= transitions c a b)
    /\ (forall s w,
          s ∈ trainingData g' -> w ∈ s ->
          1 <= frequency (wordFrequency g') (strings.ToLower w)).
Proof.
  intros Hc. unfold initMarkov. rewrite Hc. cbv zeta.
  set (g0 := set_wordFrequency ∅ (set_markovChain (Some ∅) g)).
  set (g1 := fst (loadTrainingData env g0)).
  assert (H1 : markovChain g1 = Some ∅ /\ wordFrequency g1 = ∅).
  { unfold g1, loadTrainingData. destruct (negb (homeDirOk env)); [now split|].
    destruct (trainingDataFile env) as [| |data]; try (now split).
    destruct (jsonUnmarshal data (trainingData g0)) as [v failed]. now split. }
  set (g2 := if len (trainingData g1) =? 0
             then set_trainingData seedSentences g1 else g1).
  assert (H2 : markovChain g2 = Some ∅ /\ wordFrequency g2 = ∅
               /\ trainingData g2 <> []).
  { unfold g2. destruct (len (trainingData g1) =? 0) eqn:E.
    - destruct H1. repeat split; try assumption. discriminate.
    - destruct H1. repeat split; try assumption.
      intros Hn. rewrite Hn in E. discriminate. }
  destruct H2 as (Hc2 & Hf2 & Hne). clearbody g2. clear g1 H1 g0.
  rewrite (forEach_trainSentence _ g2 ∅ Hc2).
  cbn [mbind option_bind]. rewrite Hf2.
  match goal with
  | |- context [loadRawTextAndTrain env ?g3] =>
      destruct (loadRawTextAndTrain_grows env g3 _ eq_refl)
        as (c' & m' & err & -> & Hgrow & Hfreq)
  end.
  cbn [mbind option_bind].
  match goal with
  | |- context [updatePrediction ?g4] =>
      destruct (updatePrediction_total g4) as (p & ->)
  end.
  eexists. exists c'. split; [reflexivity|].
  cbn [markovChain trainingData wordFrequency set_nextPrediction
         set_wordFrequency set_markovChain] in *.
  split; [reflexivity|]. split; [exact Hne|]. split.
  - intros s a b Hs Hadj. etransitivity; [|apply Hgrow].
    pose proof (transitions_fold_Add_seen (trainingData g2) ∅ s a b Hs Hadj) as H.
    rewrite transitions_empty in H. exact H.
  - intros s w Hs Hw. etransitivity; [|apply Hfreq].
    pose proof (frequency_fold_learn_seen
                  (map (map strings.ToLower) (trainingData g2)) ∅
                  (map strings.ToLower s) (strings.ToLower w)) as H.
    rewrite frequency_empty in H. apply H.
    + apply list_elem_of_fmap. exists s. split; [reflexivity | exact Hs].
    + apply list_elem_of_fmap. exists w. split; [reflexivity | exact Hw].
Qed.

(** ** The raw text file at its edges *)

(** X14.  Reading the raw text never forgets and rarely fails.  A missing
    file and an empty file are no error and leave the state as it is; a
    home directory that cannot be found or a file that cannot be read is an
    error and leaves the state as it is too.  Whatever the file holds, the
    call returns once the chain exists, only the chain and the frequency
    map can differ afterwards, and no count of either is lower than
    before. *)
Theorem raw_text_never_forgets (env : Env) (g : Game) (c : gomarkov.Chain) :
  markovChain g = Some c ->
  (exists c' m' err,
     loadRawTextAndTrain env g
     = Some (set_wordFrequency m' (set_markovChain (Some c') g), err)
     /\ (forall a b, transitions c a b <= transitions c' a b)
     /\ (forall v, frequency (wordFrequency g) v <= frequency m' v))
  /\ (homeDirOk env = false ->
      loadRawTextAndTrain env g = Some (g, Some ErrHomeDir))
  /\ (homeDirOk env = true ->
      (rawTextFile env = NotExist ->
       loadRawTextAndTrain env g = Some (g, None))
      /\ (rawTextFile env = ReadFailed ->
          loadRawTextAndTrain env g = Some (g, Some ErrRead))
      /\ (rawTextFile env = Contents "" ->
          loadRawTextAndTrain env g = Some (g, None))).
Proof.
  intros Hc. split; [now apply loadRawTextAndTrain_grows|].
  unfold loadRawTextAndTrain. split.
  - intros ->. reflexivity.
  - intros ->. cbn [negb]. repeat split; intros ->; reflexivity.
Qed.

(** ** The modifiers *)

(** X15.  L1 and R1 act while held.  After a gamepad has been served, the
    set in force is the secondary one exactly when L1 (button 4) is held
    and upper case is on exactly when R1 (button 5) is held, whatever they
    were before and whatever else was pressed. *)
Theorem modifiers_follow_the_buttons (inp : Input) (g g' : Game)
    (out : list Effect) :
  updateGamepad inp g = Some (g', out) ->
  currentSet g' = (if pressedButton4 inp then 1 else 0)
  /\ uppercase g' = pressedButton5 inp.
Proof.
  intros H. unfold updateGamepad in H.
  destruct (updateSelection _ _ _ g) as [g0|]; [|discriminate].
  cbn [mbind option_bind] in H.
  apply andThen_inv in H as (g6 & e6 & e7 & H6 & H7 & _).
  apply andThen_inv in H6 as (g5 & e5 & e6' & _ & H6 & _).
  injection H6 as <- _.
  apply acceptPrediction_inv in H7 as [[-> _] | (_ & _ & H7)].
  - destruct (pressedButton4 inp), (pressedButton5 inp); split; reflexivity.
  - cbv zeta in H7. destruct H7 as (p & -> & _).
    destruct (pressedButton4 inp), (pressedButton5 inp); split; reflexivity.
Qed.

(** ** The window *)

Lemma rgba_eta (c : RGBA) : mkRGBA (chanR c) (chanG c) (chanB c) (chanA c) = c.
Proof. destruct c; reflexivity. Qed.

Lemma alpha_times (a : Z) :
  0 <= a <= 255 ->
  uint8_of_float64 (float64_of_Z a * 1)%float = Some a
  /\ uint8_of_float64 (float64_of_Z a * 0)%float = Some 0.
Proof.
  intros Ha.
  assert (Hall : forallb
            (fun a =>
               match uint8_of_float64 (float64_of_Z a * 1)%float,
                     uint8_of_float64 (float64_of_Z a * 0)%float with
               | Some b, Some z => (b =? a) && (z =? 0)
               | _, _ => false
               end) (seqZ 0 256) = true) by (vm_compute; reflexivity).
  rewrite forallb_forall in Hall.
  assert (Hin : In a (seqZ 0 256)).
  { apply list_elem_of_In, elem_of_seqZ. lia. }
  specialize (Hall a Hin).
  destruct (uint8_of_float64 (float64_of_Z a * 1)%float) as [b|]; [|discriminate].
  destruct (uint8_of_float64 (float64_of_Z a * 0)%float) as [z|]; [|discriminate].
  apply andb_prop in Hall as [H1 H2].
  apply Z.eqb_eq in H1, H2. now subst.
Qed.

Lemma applyOpacity_shown (w : Window) (c : RGBA) :
  opacity w = 1%float -> 0 <= chanA c <= 255 -> applyOpacity w c = Some c.
Proof.
  intros Hw Hc. unfold applyOpacity. rewrite Hw.
  rewrite (proj1 (alpha_times _ Hc)). cbn. now rewrite rgba_eta.
Qed.

Lemma applyOpacity_hidden (w : Window) (c : RGBA) :
  opacity w = 0%float -> 0 <= chanA c <= 255 ->
  applyOpacity w c = Some (mkRGBA (chanR c) (chanG c) (chanB c) 0).
Proof.
  intros Hw Hc. unfold applyOpacity. rewrite Hw.
  now rewrite (proj2 (alpha_times _ Hc)).
Qed.

Lemma moveWindow_visibility (inp : WindowInput) (w : Window) :
  isVisible (fst (moveWindow inp w)) = isVisible w
  /\ windowInitialized (fst (moveWindow inp w)) = windowInitialized w.
Proof.
  unfold moveWindow. destruct (_ || _); [|now split].
  destruct (monitorSize inp) as [mx my]. now split.
Qed.

Lemma UpdateWindow_fold (pads : list WindowInput) (w : Window)
    (out : list WindowEffect) :
  let r :=
    fold_left
      (fun '(w, out) inp =>
         let '(w, e) := moveWindow inp w in
         (toggleVisibility inp w, out ++ e))
      pads (w, out) in
  isVisible (fst r) = fold_left xorb (map justButton9 pads) (isVisible w)
  /\ windowInitialized (fst r) = windowInitialized w.
Proof.
  cbv zeta. revert w out.
  induction pads as [|inp pads IH]; intros w out; [now split|].
  cbn [fold_left map].
  destruct (moveWindow inp w) as [w1 e] eqn:Hm.
  destruct (moveWindow_visibility inp w) as [Hv Hi]. rewrite Hm in Hv, Hi.
  cbn [fst] in Hv, Hi.
  destruct (IH (toggleVisibility inp w1) (out ++ e)) as [H1 H2].
  rewrite H1, H2. unfold toggleVisibility.
  destruct (justButton9 inp); cbn; rewrite Hv, ?Hi;
    (split; [|reflexivity]); f_equal; now destruct (isVisible w).
Qed.

(** X16.  Button 9 shows and hides the window, and the opacity says so.
    After a call of [Update] the window is visible exactly when it was and
    button 9 was pressed on an even number of gamepads, or it was not and
    the number is odd; the opacity is then 1 or 0 accordingly, so that
    [applyOpacity] returns a colour as it is while the window shows and
    with alpha 0 while it is hidden, red, green and blue untouched. *)
Theorem visibility_and_opacity (pads : list WindowInput) (w : Window)
    (c : RGBA) :
  0 <= chanA c <= 255 ->
  let w' := fst (UpdateWindow pads w) in
  isVisible w' = fold_left xorb (map justButton9 pads) (isVisible w)
  /\ opacity w' = (if isVisible w' then 1%float else 0%float)
  /\ applyOpacity w' c
     = Some (if isVisible w' then c
             else mkRGBA (chanR c) (chanG c) (chanB c) 0).
Proof.
  intros Hc w'. unfold w', UpdateWindow.
  destruct (initWindow w) as [w0 out0] eqn:H0.
  assert (Hv0 : isVisible w0 = isVisible w).
  { unfold initWindow in H0. destruct (negb (windowInitialized w));
      injection H0 as <- _; reflexivity. }
  pose proof (UpdateWindow_fold pads w0 out0) as Hf. cbv zeta in Hf.
  destruct (fold_left _ pads (w0, out0)) as [w1 out1]. cbn [fst] in *.
  destruct Hf as [Hf _]. rewrite Hv0 in Hf.
  cbn [isVisible opacity updateOpacity]. split; [exact Hf|].
  split; [reflexivity|].
  destruct (isVisible w1) eqn:Hvis.
  - apply applyOpacity_shown; [|exact Hc]. cbn. now rewrite Hvis.
  - apply applyOpacity_hidden; [|exact Hc]. cbn. now rewrite Hvis.
Qed.

(** ** Order of [float64] values that are numbers *)

Lemma SFeqb_refl_cases (x : spec_float) :
  SFeqb x x = true -> x <> S754_nan.
Proof. intros H ->. discriminate. Qed.

Lemma SFcompare_number (x y : spec_float) :
  SFeqb x x = true -> SFeqb y y = true -> exists c, SFcompare x y = Some c.
Proof.
  intros Hx Hy. apply SFeqb_refl_cases in Hx, Hy.
  destruct x as [sx|sx| |sx mx ex], y as [sy|sy| |sy my ey];
    try congruence; cbn;
    repeat match goal with
           | |- context [if ?b then _ else _] => destruct b
           | |- context [match ?c with _ => _ end] => destruct c
           end; eauto.
Qed.

Lemma float_not_ltb_leb (x y : float) :
  (x =? x)%float = true -> (y =? y)%float = true ->
  (x <? y)%float = false -> (y <=? x)%float = true.
Proof.
  rewrite !FloatAxioms.eqb_spec, ltb_spec, leb_spec. intros Hx Hy.
  destruct (SFcompare_number _ _ Hx Hy) as (c & Hc).
  unfold SFltb, SFleb. rewrite (SFcompare_swap (Prim2SF x) (Prim2SF y)), Hc.
  destruct c; cbn; congruence.
Qed.

Lemma float_leb_refl (x : float) :
  (x =? x)%float = true -> (x <=? x)%float = true.
Proof.
  rewrite FloatAxioms.eqb_spec, leb_spec. unfold SFeqb, SFleb.
  destruct (SFcompare (Prim2SF x) (Prim2SF x)) as [[]|]; congruence.
Qed.

(** [float64(n)] of a non-negative [int] is a number, and not negative *)
Lemma float64_of_Z_nonneg (n : Z) :
  0 <= n < 2 ^ 63 ->
  (float64_of_Z n =? float64_of_Z n)%float = true
  /\ (0 <=? float64_of_Z n)%float = true.
Proof.
  intros Hn. unfold float64_of_Z.
  replace (n <? 0) with false by (symmetry; apply Z.ltb_ge; lia).
  rewrite FloatAxioms.eqb_spec, leb_spec, Prim2SF_zero, of_uint63_spec.
  rewrite Uint63.of_Z_spec, Z.mod_small by (exact Hn).
  unfold binary_normalize. destruct n as [|p|p]; [now split| |lia].
  assert (Hd : Z.pos (digits2_pos p) + 0 <= 63).
  { pose proof (Zdigits2_le (Z.pos p) 63 ltac:(lia) ltac:(lia) (proj2 Hn)) as H.
    cbn [Zdigits2] in H. lia. }
  destruct (binary_round_bound false p 0 63 Hd) as [-> | (m & e & -> & _)];
    try (unfold SpecFloat.emin, prec, emax; lia); [now split|].
  split; [|reflexivity]. unfold SFeqb, SFcompare. rewrite Z.compare_refl.
  change (PosDef.Pos.compare_cont Eq m m) with (Pos.compare m m).
  now rewrite Pos.compare_refl.
Qed.

(** X17.  The right stick keeps the window on the monitor.  When the right
    stick is outside its dead zone and the monitor is at least as large as
    the window, the new position is clamped: on each axis it lies between 0
    and the monitor's size less the window's, provided the position the
    stick asks for is a number (not NaN); that position is stored and the
    window is moved there. *)
Theorem window_stays_on_monitor (inp : WindowInput) (w : Window)
    (monitorX monitorY : Z) :
  let rightX := RightStickHorizontal inp in
  let rightY := RightStickVertical inp in
  let newX := (windowX w + rightX * 25)%float in
  let newY := (windowY w + rightY * 25)%float in
  (0.1 <? PrimFloat.abs rightX)%float || (0.1 <? PrimFloat.abs rightY)%float
  = true ->
  monitorSize inp = (monitorX, monitorY) ->
  screenWidth <= monitorX < 2 ^ 63 ->
  screenHeight <= monitorY < 2 ^ 63 ->
  (newX =? newX)%float = true ->
  (newY =? newY)%float = true ->
  let w' := fst (moveWindow inp w) in
  (0 <=? windowX w')%float = true
  /\ (windowX w' <=? float64_of_Z (monitorX - screenWidth))%float = true
  /\ (0 <=? windowY w')%float = true
  /\ (windowY w' <=? float64_of_Z (monitorY - screenHeight))%float = true
  /\ snd (moveWindow inp w)
     = [SetWindowPosition (int_of_float64 (windowX w'))
          (int_of_float64 (windowY w'))]
  /\ isVisible w' = isVisible w.
Proof.
  intros rightX rightY newX newY Hmove Hmon HX HY HnX HnY w'.
  assert (Hclamp : forall (v : float) (M : Z),
            0 <= M < 2 ^ 63 ->
            (v =? v)%float = true ->
            let a := if (v <? 0)%float then 0%float else v in
            let b := if (float64_of_Z M <? a)%float then float64_of_Z M else a in
            (0 <=? b)%float = true /\ (b <=? float64_of_Z M)%float = true).
  { intros v M HM Hv a b. destruct (float64_of_Z_nonneg M HM) as [HMn HM0].
    assert (Ha : (a =? a)%float = true /\ (0 <=? a)%float = true).
    { unfold a. destruct (v <? 0)%float eqn:E; [now split|].
      split; [exact Hv|]. now apply float_not_ltb_leb. }
    destruct Ha as [Han Ha0]. unfold b.
    destruct (float64_of_Z M <? a)%float eqn:E.
    - split; [exact HM0 | now apply float_leb_refl].
    - split; [exact Ha0 | now apply float_not_ltb_leb]. }
  unfold w', moveWindow. fold rightX rightY. rewrite Hmove, Hmon.
  cbn [fst snd windowX windowY isVisible].
  destruct (Hclamp newX (monitorX - screenWidth)) as [A1 A2];
    [unfold screenWidth in *; lia | exact HnX |].
  destruct (Hclamp newY (monitorY - screenHeight)) as [B1 B2];
    [unfold screenHeight in *; lia | exact HnY |].
  cbv zeta in A1, A2, B1, B2. fold newX newY.
  repeat split; assumption.
Qed.

(** the right stick rests: neither axis is beyond the dead zone *)
Lemma moveWindow_resting (inp : WindowInput) (w : Window) :
  restingWindow inp -> moveWindow inp w = (w, []).
Proof.
  intros [Hx Hy]. unfold moveWindow. now rewrite Hx, Hy.
Qed.

(** X18.  The window is placed once and then only moved by the stick.  The
    first [Update] places the window where it stands; as long as every
    right stick rests within its dead zone, [Update] never moves the window
    again and never calls [SetWindowPosition], whatever else is pressed. *)
Theorem resting_stick_leaves_window (pads : list WindowInput) (w : Window) :
  Forall restingWindow pads ->
  let w' := fst (UpdateWindow pads w) in
  windowX w' = windowX w
  /\ windowY w' = windowY w
  /\ windowInitialized w' = true
  /\ snd (UpdateWindow pads w)
     = (if windowInitialized w then []
        else [SetWindowPosition (int_of_float64 (windowX w))
                (int_of_float64 (windowY w))]).
Proof.
  intros Hrest w'. unfold w', UpdateWindow.
  destruct (initWindow w) as [w0 out0] eqn:H0.
  assert (Hinit : windowX w0 = windowX w /\ windowY w0 = windowY w
                  /\ windowInitialized w0 = true
                  /\ out0 = (if windowInitialized w then []
                             else [SetWindowPosition (int_of_float64 (windowX w))
                                     (int_of_float64 (windowY w))])).
  { unfold initWindow in H0. destruct (windowInitialized w) eqn:E;
      injection H0 as <- <-; cbn; auto. }
  destruct Hinit as (Hx & Hy & Hi & Hout).
  rewrite <- Hout, <- Hx, <- Hy. clear H0 Hx Hy Hout.
  assert (Hgen : forall w1 out1,
            let r :=
              fold_left
                (fun '(w, out) inp =>
                   let '(w, e) := moveWindow inp w in
                   (toggleVisibility inp w, out ++ e))
                pads (w1, out1) in
            windowX (fst r) = windowX w1 /\ windowY (fst r) = windowY w1
            /\ windowInitialized (fst r) = windowInitialized w1
            /\ snd r = out1).
  { cbv zeta. induction Hrest as [|inp pads Hr _ IH]; intros w1 out1;
      [now repeat split|].
    cbn [fold_left]. rewrite (moveWindow_resting inp w1 Hr).
    destruct (IH (toggleVisibility inp w1) (out1 ++ [])) as (A & B & C & D).
    rewrite A, B, C, D, app_nil_r. unfold toggleVisibility.
    destruct (justButton9 inp); repeat split. }
  specialize (Hgen w0 out0). cbv zeta in Hgen.
  destruct (fold_left _ pads (w0, out0)) as [w1 out1]. cbn [fst snd] in *.
  destruct Hgen as (A & B & C & D). cbn. rewrite A, B, C, D. auto.
Qed.

(** ** The prediction after a word is completed *)

(** X22.  Once a word is completed, the next prediction follows from it.
    When a suggestion is accepted (R2) and the call returns, the new
    suggestion is what the chain generates after the accepted word, "the"
    when it generates nothing; it is never empty, so R2 can be pressed
    again at once; and the call does return when the word in progress has
    no more bytes than the suggestion, whatever [strings.ToLower] does.
    After a space that ends a non-empty word, the suggestion is likewise
    drawn from that word. *)
Theorem prediction_follows_completed_word (toLower : string -> string)
    (inp : Input) (g : Game) (c : gomarkov.Chain) :
  markovChain g = Some c ->
  (justButton7 inp = true -> nextPrediction g <> "" ->
   (forall g' out,
      acceptPredictionWith toLower inp g = Some (g', out) ->
      currentSentence g'
      = removelast (currentSentence g) ++ [nextPrediction g; ""]
      /\ nextPrediction g' = generatedOrThe c (nextPrediction g)
      /\ nextPrediction g' <> "")
   /\ (strlen (inProgress (currentSentence g)) <= strlen (nextPrediction g) ->
       exists g' out, acceptPredictionWith toLower inp g = Some (g', out)))
  /\ (justRightLeft inp = true ->
      forall l w, currentSentence g = l ++ [w] -> w <> "" ->
      exists g',
        handleSpace inp g = Some (g', [TypeStr " "; WriteRawText " "])
        /\ currentSentence g' = l ++ [w; ""]
        /\ nextPrediction g' = generatedOrThe c w).
Proof.
  intros Hc. split.
  - intros Hj Hp.
    pose proof (acceptPredictionWith_accept toLower inp g Hj Hp) as Hacc.
    destruct (updatePrediction_two_words
                (set_currentSentence
                   (removelast (currentSentence g) ++ [nextPrediction g; ""]) g)
                c (removelast (currentSentence g)) (nextPrediction g) ""
                Hc eq_refl (or_introl Hp)) as [Hu _].
    rewrite Hu in Hacc. cbn [mbind option_bind] in Hacc. split.
    + intros g' out H. rewrite Hacc in H.
      destruct (sliceFails toLower g); [discriminate|].
      injection H as <- _. split; [reflexivity|]. split; [reflexivity|].
      cbn [nextPrediction set_nextPrediction].
      unfold generatedOrThe.
      destruct (Generate c [nextPrediction g]) as [next|]; [|discriminate].
      destruct (streq next "") eqn:E; [discriminate | now apply streq_false].
    + intros Hlen. rewrite Hacc. unfold sliceFails.
      replace (strlen (nextPrediction g)
               <? strlen (inProgress (currentSentence g)))
        with false by (symmetry; apply Z.ltb_ge; exact Hlen).
      rewrite andb_false_r. eauto.
  - intros Hj l w Hcs Hw. unfold handleSpace. rewrite Hj, Hcs, wordBreak_snoc.
    pose proof Hw as Hw'. apply streq_false in Hw. rewrite Hw.
    cbn [mbind option_bind].
    destruct (updatePrediction_two_words
                (set_currentSentence (l ++ [w; ""]) g) c l w "" Hc eq_refl
                (or_introl Hw')) as [Hu _].
    rewrite Hu. cbn. eexists. split; [reflexivity|]. split; reflexivity.
Qed.

(** ** Accepting a suggestion *)

(** X26.  When accepting a suggestion panics.  R2 makes [Update] panic
    exactly in one case: a suggestion is on display, a word is in
    progress, the lowered word starts the lowered suggestion, and the word
    has more bytes than the suggestion, so that the slice of line 694 is
    out of range.  That needs a lowering that changes a byte length: when
    [strings.ToLower] keeps the length of both strings, the call
    returns. *)
Theorem accept_panics_exactly (toLower : string -> string) (inp : Input)
    (g : Game) :
  (acceptPredictionWith toLower inp g = None
   <-> justButton7 inp = true
       /\ nextPrediction g <> ""
       /\ inProgress (currentSentence g) <> ""
       /\ strings.HasPrefix (toLower (nextPrediction g))
            (toLower (inProgress (currentSentence g))) = true
       /\ strlen (nextPrediction g) < strlen (inProgress (currentSentence g)))
  /\ (String.length (toLower (nextPrediction g))
      = String.length (nextPrediction g) ->
      String.length (toLower (inProgress (currentSentence g)))
      = String.length (inProgress (currentSentence g)) ->
      is_Some (acceptPredictionWith toLower inp g)).
Proof.
  assert (Hfail : sliceFails toLower g = true
                  <-> inProgress (currentSentence g) <> ""
                      /\ strings.HasPrefix (toLower (nextPrediction g))
                           (toLower (inProgress (currentSentence g))) = true
                      /\ strlen (nextPrediction g)
                         < strlen (inProgress (currentSentence g))).
  { unfold sliceFails, nonEmpty. rewrite !andb_true_iff, negb_true_iff.
    rewrite Z.ltb_lt. split.
    - intros [[H1 H2] H3]. split; [now apply streq_false | now split].
    - intros (H1 & H2 & H3). split; [split|]; [now apply streq_false | | ];
        assumption. }
  assert (Hacc : justButton7 inp = true -> nextPrediction g <> "" ->
                 (acceptPredictionWith toLower inp g = None
                  <-> sliceFails toLower g = true)).
  { intros Hj Hp. rewrite (acceptPredictionWith_accept toLower inp g Hj Hp).
    destruct (sliceFails toLower g); [tauto|].
    match goal with
    | |- context [updatePrediction ?g0] =>
        destruct (updatePrediction_total g0) as (p & ->)
    end.
    cbn. split; discriminate. }
  split.
  - split.
    + intros H. destruct (justButton7 inp) eqn:Hj.
      * destruct (streq (nextPrediction g) "") eqn:Hp.
        -- apply streq_true in Hp.
           rewrite acceptPredictionWith_idle in H by now right. discriminate.
        -- apply streq_false in Hp. split; [reflexivity|].
           split; [exact Hp|]. apply Hfail, (Hacc eq_refl Hp), H.
      * rewrite acceptPredictionWith_idle in H by now left. discriminate.
    + intros (Hj & Hp & H). apply (Hacc Hj Hp), Hfail, H.
  - intros Lp Lc. destruct (justButton7 inp) eqn:Hj.
    + destruct (streq (nextPrediction g) "") eqn:Hp.
      * apply streq_true in Hp.
        rewrite acceptPredictionWith_idle by now right. eauto.
      * apply streq_false in Hp.
        destruct (accept_returns_when_length_kept toLower inp g Lp Lc Hj Hp)
          as (p & ->).
        eauto.
    + rewrite acceptPredictionWith_idle by now left. eauto.
Qed.

(** X27.  Accepting a suggestion of ASCII text.  When the suggestion and
    the word in progress are ASCII, where [strings.ToLower] is the ASCII
    lowering byte for byte, R2 never panics: if the word in progress is a
    case-insensitive prefix of the suggestion, exactly the rest of the
    suggestion and one space are typed (and handed to the log), with no
    backspace; otherwise one backspace per byte of the word in progress is
    sent first and the whole suggestion and one space are typed.  Either
    way the buffer then holds the suggestion in place of the word in
    progress, followed by one new empty word. *)
Theorem accept_types_the_remainder (toLower : string -> string)
    (inp : Input) (g : Game) :
  (forall s, isASCII s = true -> toLower s = strings.ToLower s) ->
  justButton7 inp = true ->
  nextPrediction g <> "" ->
  isASCII (nextPrediction g) = true ->
  isASCII (inProgress (currentSentence g)) = true ->
  let pred := nextPrediction g in
  let cur := inProgress (currentSentence g) in
  let rest := sdrop (String.length cur) pred in
  exists g' out,
    acceptPredictionWith toLower inp g = Some (g', out)
    /\ (strings.HasPrefix (toLower pred) (toLower cur) = true ->
        out = [TypeStr (rest ++ " "); WriteRawText (rest ++ " ")]
        /\ (toLower cur ++ toLower rest)%string = toLower pred)
    /\ (strings.HasPrefix (toLower pred) (toLower cur) = false ->
        out = repeat (KeyTap "backspace") (String.length cur)
              ++ [TypeStr (pred ++ " "); WriteRawText (pred ++ " ")])
    /\ currentSentence g' = removelast (currentSentence g) ++ [pred; ""]
    /\ last (currentSentence g') = Some ""
    /\ last (removelast (currentSentence g')) = Some pred.
Proof.
  intros Hlow Hj Hp Ap Ac pred cur rest.
  assert (Ar : isASCII rest = true) by (now apply isASCII_sdrop).
  rewrite (Hlow pred Ap), (Hlow cur Ac), (Hlow rest Ar).
  destruct (accept_returns_when_length_kept toLower inp g) as (p & Hacc);
    [rewrite (Hlow _ Ap); now apply ToLower_length
    |rewrite (Hlow _ Ac); now apply ToLower_length
    |exact Hj | exact Hp |].
  fold pred cur in Hacc. rewrite (Hlow pred Ap), (Hlow cur Ac) in Hacc.
  eexists. eexists. split; [exact Hacc|].
  assert (Hcs : currentSentence
                  (set_nextPrediction p
                     (set_currentSentence
                        (removelast (currentSentence g) ++ [pred; ""]) g))
                = removelast (currentSentence g) ++ [pred; ""]) by reflexivity.
  split; [|split; [|split; [exact Hcs|]]].
  - intros Hpre. rewrite Hpre. split; [reflexivity|].
    unfold strings.HasPrefix in Hpre. apply prefix_split in Hpre.
    rewrite (ToLower_length cur Ac) in Hpre.
    etransitivity; [|symmetry; exact Hpre].
    f_equal. unfold rest. now apply ToLower_sdrop.
  - intros Hpre. rewrite Hpre. reflexivity.
  - rewrite Hcs.
    replace (removelast (currentSentence g) ++ [pred; ""])
      with ((removelast (currentSentence g) ++ [pred]) ++ [""])
      by (now rewrite <- app_assoc).
    rewrite removelast_last, !last_snoc. split; reflexivity.
Qed.

(** ** Several gamepads in one tick *)

Lemma forEach_pads_out (pads : list Input) (g : Game) (out0 : list Effect) :
  forEach
    (fun '(g, out) inp =>
       '(g, e) ← updateGamepad inp g; Some (g, out ++ e))
    pads (g, out0)
  = '(g', o) ← forEach
                 (fun '(g, out) inp =>
                    '(g, e) ← updateGamepad inp g; Some (g, out ++ e))
                 pads (g, []);
    Some (g', out0 ++ o).
Proof.
  revert g out0. induction pads as [|inp pads IH]; intros g out0.
  - cbn. now rewrite app_nil_r.
  - cbn [forEach]. destruct (updateGamepad inp g) as [[g1 e]|]; [|reflexivity].
    cbn [mbind option_bind]. rewrite (IH g1 (out0 ++ e)), (IH g1 ([] ++ e)).
    destruct (forEach _ pads (g1, [])) as [[g2 o]|]; [|reflexivity].
    cbn. now rewrite app_assoc.
Qed.

Lemma forEach_app {A S} (body : S -> A -> option S) (l1 l2 : list A) (s : S) :
  forEach body (l1 ++ l2) s = s1 ← forEach body l1 s; forEach body l2 s1.
Proof.
  revert s. induction l1 as [|a l1 IH]; intros s; [reflexivity|].
  cbn [app forEach]. destruct (body s a) as [s1|]; [|reflexivity].
  cbn [mbind option_bind]. apply IH.
Qed.

Lemma Update_has_chain (env : Env) (pads : list Input) (g g' : Game)
    (out : list Effect) :
  Update env pads g = Some (g', out) -> is_Some (markovChain g').
Proof.
  intros H.
  refine (proj1 (Update_keeps (fun _ => True)
                   (fun g => is_Some (markovChain g)) (fun _ => True)
                   I (fun _ _ _ _ => I) _ _ env pads g g' out I H)).
  - clear. intros env g g' _ H. now destruct (initMarkov_sameSelection _ _ _ H).
  - clear. intros inp.
    apply updateGamepad_keeps; try exact I; try (intros; exact I).
    + intros g g' HP H. apply updateSelection_inv in H as (r & a & i & ->).
      exact HP.
    + intros g g' e HP H. split; [|exact I].
      apply handleConfirm_sameSelection in H as (_ & _ & _ & H). auto.
    + intros g g' e HP H. split; [|exact I].
      apply handleBackspace_sameSelection in H as (_ & _ & _ & H). auto.
    + intros g g' e HP H. split; [|exact I].
      apply handleSpace_sameSelection in H as (_ & _ & _ & H). auto.
    + intros g g' e HP H. split; [|exact I].
      apply handleEnter_sameSelection in H as (_ & _ & _ & H). auto.
    + intros g g' e HP H. split; [|exact I]. injection H as <- _. exact HP.
    + intros g g' e HP H. split; [|exact I]. injection H as <- _.
      destruct (pressedButton4 inp), (pressedButton5 inp); exact HP.
    + intros g g' e HP H. split; [|exact I].
      apply acceptPrediction_sameSelection in H as (_ & _ & _ & H). auto.
Qed.

(** X23.  Gamepads are served in turn.  One call of [Update] over several
    gamepads does to the keyboard what successive calls do, each over a
    part of them: the states follow one another, the outputs are
    concatenated, and the files play no part after the first call (the
    chain is built once). *)
Theorem gamepads_served_in_turn (env env2 : Env) (pads1 pads2 : list Input)
    (g : Game) :
  Update env (pads1 ++ pads2) g
  = '(g1, out1) ← Update env pads1 g;
    '(g2, out2) ← Update env2 pads2 g1;
    Some (g2, out1 ++ out2).
Proof.
  destruct (Update env pads1 g) as [[g1 out1]|] eqn:H1.
  - pose proof (Update_has_chain _ _ _ _ _ H1) as [c Hc].
    unfold Update in *. destruct (initMarkov env g) as [g0|]; [|discriminate].
    cbn [mbind option_bind] in *. rewrite forEach_app, H1.
    cbn [mbind option_bind]. unfold initMarkov. rewrite Hc.
    cbn [mbind option_bind]. apply forEach_pads_out.
  - unfold Update in *. destruct (initMarkov env g) as [g0|]; [|reflexivity].
    cbn [mbind option_bind] in *. rewrite forEach_app, H1. reflexivity.
Qed.

(** ** Moving the stick alone *)

Lemma sameText_refl (g : Game) : sameText g g.
Proof. repeat split. Qed.

(** X24.  The stick alone never types.  When no button the keyboard
    listens to is just pressed on any gamepad, [Update] emits nothing: no
    keystroke, no text and no file write; and once the chain exists the
    buffer, the prediction, the chain, the frequency map, the training data
    and the debounce clock are as before (only the selection and the two
    modifiers can change). *)
Theorem stick_alone_never_types (env : Env) (pads : list Input)
    (g g' : Game) (out : list Effect) :
  Forall noButton pads ->
  Update env pads g = Some (g', out) ->
  out = []
  /\ (is_Some (markovChain g) -> sameText g g').
Proof.
  intros Hno H.
  assert (Hpad : forall inp g1 g2 e,
            noButton inp -> updateGamepad inp g1 = Some (g2, e) ->
            e = [] /\ sameText g1 g2).
  { clear. intros inp g1 g2 e (B1 & B2 & B3 & B4 & B5 & B6 & B7 & B8 & B9) H.
    unfold updateGamepad in H.
    destruct (updateSelection _ _ _ g1) as [g0|] eqn:H0; [|discriminate].
    apply updateSelection_inv in H0 as (r & a & i & ->).
    cbn [mbind option_bind] in H.
    unfold handleConfirm, handleBackspace, handleSpace, handleEnter,
      handleArrows, handleModifiers, acceptPrediction,
      acceptPredictionWith in H.
    rewrite B1, B2, B3, B4, B5, B6, B7, B8, B9 in H. cbn in H.
    injection H as <- <-. split; [reflexivity|].
    destruct (pressedButton4 inp), (pressedButton5 inp); repeat split. }
  unfold Update in H. destruct (initMarkov env g) as [g0|] eqn:H0; [|discriminate].
  cbn [mbind option_bind] in H.
  assert (Hgen : forall g1 out1 g2 out2,
            forEach
              (fun '(g, out) inp =>
                 '(g, e) ← updateGamepad inp g; Some (g, out ++ e))
              pads (g1, out1) = Some (g2, out2) ->
            out2 = out1 /\ sameText g1 g2).
  { clear H H0. induction Hno as [|inp pads Hn _ IH]; intros g1 out1 g2 out2 H.
    - injection H as <- <-. split; [reflexivity | apply sameText_refl].
    - cbn [forEach] in H.
      destruct (updateGamepad inp g1) as [[g3 e]|] eqn:H3; [|discriminate].
      cbn [mbind option_bind] in H.
      destruct (Hpad _ _ _ _ Hn H3) as [-> (A1 & A2 & A3 & A4 & A5 & A6)].
      destruct (IH _ _ _ _ H) as [-> (C1 & C2 & C3 & C4 & C5 & C6)].
      split; [apply app_nil_r|]. repeat split; congruence. }
  destruct (Hgen _ _ _ _ H) as [-> Hsame]. split; [reflexivity|].
  intros [c Hc]. unfold initMarkov in H0. rewrite Hc in H0.
  injection H0 as <-. exact Hsame.
Qed.

(** ** The predictor never forgets *)

Lemma learnedMore_refl (g : Game) : learnedMore g g.
Proof.
  split; [exists []; now rewrite app_nil_r|]. split; [|intros; lia].
  intros c Hc. exists c. split; [exact Hc | intros; lia].
Qed.

Lemma learnedMore_trans (g1 g2 g3 : Game) :
  learnedMore g1 g2 -> learnedMore g2 g3 -> learnedMore g1 g3.
Proof.
  intros ((m1 & A1) & A2 & A3) ((m2 & B1) & B2 & B3). split; [|split].
  - exists (m1 ++ m2). now rewrite B1, A1, app_assoc.
  - intros c Hc. destruct (A2 c Hc) as (c2 & Hc2 & Hle).
    destruct (B2 c2 Hc2) as (c3 & Hc3 & Hle'). exists c3.
    split; [exact Hc3|]. intros a b. specialize (Hle a b).
    specialize (Hle' a b). lia.
  - intros v. specialize (A3 v). specialize (B3 v). lia.
Qed.

Lemma learnedMore_text (g : Game) (t : Z) (p : string) (cs : list string) :
  learnedMore g (set_lastButtonTime t (set_nextPrediction p (set_currentSentence cs g))).
Proof.
  split; [exists []; cbn; now rewrite app_nil_r|]. split; [|intros; cbn; lia].
  intros c Hc. exists c. split; [exact Hc | intros; lia].
Qed.

Lemma enterSentence_learnedMore (g g' : Game) (out : list Effect) :
  enterSentence g = Some (g', out) -> learnedMore g g'.
Proof.
  intros H. apply enterSentence_inv in H
    as [(_ & -> & _) | (_ & c & Hc & -> & _)].
  - split; [exists []; cbn; now rewrite app_nil_r|]. split; [|intros; cbn; lia].
    intros c Hc. exists c. split; [exact Hc | intros; lia].
  - split; [eexists; reflexivity|]. split.
    + intros c0 Hc0. rewrite Hc in Hc0. injection Hc0 as <-.
      eexists. split; [reflexivity|]. intros a b. apply transitions_Add_mono.
    + intros v. cbn. apply frequency_learn_mono.
Qed.

(** what a handler's result is to its argument *)
Lemma handler_learnedMore (g0 : Game) :
  (forall inp, keeps (learnedMore g0) (fun _ => True) (updateGamepad inp)).
Proof.
  intros inp.
  assert (Hstep : forall g g' : Game,
            learnedMore g g' -> learnedMore g0 g ->
            learnedMore g0 g' /\ True).
  { intros g g' H1 H2. split; [|exact I]. now apply (learnedMore_trans _ g). }
  assert (Hsame : forall g p cs,
            learnedMore g (set_nextPrediction p (set_currentSentence cs g))).
  { intros g p cs.
    split; [exists []; cbn; now rewrite app_nil_r|]. split; [|intros; cbn; lia].
    intros c Hc. exists c. split; [exact Hc | intros; lia]. }
  apply updateGamepad_keeps; try exact I; try (intros; exact I).
  - intros g g' HP H. apply updateSelection_inv in H as (r & a & i & ->).
    apply (learnedMore_trans _ g); [exact HP|].
    split; [exists []; cbn; now rewrite app_nil_r|]. split; [|intros; cbn; lia].
    intros c Hc. exists c. split; [exact Hc | intros; lia].
  - intros g g' e HP H. apply (Hstep g); [|exact HP].
    apply handleConfirm_inv in H as [[-> _] | (tok & g1 & _ & -> & Hb)];
      [apply learnedMore_refl|].
    destruct Hb as [(_ & cs' & p & _ & -> & _) | [(_ & He) | (_ & _ & Ht)]].
    + apply learnedMore_text.
    + apply enterSentence_learnedMore in He.
      apply (learnedMore_trans _ g1); [exact He|].
      split; [exists []; cbn; now rewrite app_nil_r|].
      split; [|intros; cbn; lia].
      intros c Hc. exists c. split; [exact Hc | intros; lia].
    + apply typeGlyph_inv in Ht as (cs' & p & _ & -> & _).
      apply learnedMore_text.
  - intros g g' e HP H. apply (Hstep g); [|exact HP].
    apply handleBackspace_inv in H as [[-> _] | (_ & cs' & p & _ & -> & _)];
      [apply learnedMore_refl | apply Hsame].
  - intros g g' e HP H. apply (Hstep g); [|exact HP].
    apply handleSpace_inv in H as [[-> _] | (_ & cs' & p & _ & -> & _)];
      [apply learnedMore_refl | apply Hsame].
  - intros g g' e HP H. apply (Hstep g); [|exact HP].
    apply handleEnter_inv in H as [[-> _] | (_ & He)];
      [apply learnedMore_refl | now apply enterSentence_learnedMore in He].
  - intros g g' e HP H. injection H as <- _. now split.
  - intros g g' e HP H. injection H as <- _. apply (Hstep g); [|exact HP].
    split; [exists []; destruct (pressedButton4 inp), (pressedButton5 inp);
            cbn; now rewrite app_nil_r|].
    split.
    + intros c Hc. exists c.
      split; [destruct (pressedButton4 inp), (pressedButton5 inp); exact Hc
             |intros; lia].
    + intros v. destruct (pressedButton4 inp), (pressedButton5 inp); cbn; lia.
  - intros g g' e HP H. apply (Hstep g); [|exact HP].
    apply acceptPrediction_inv in H as [[-> _] | (_ & _ & H)];
      [apply learnedMore_refl|].
    cbv zeta in H. destruct H as (p & -> & _). apply Hsame.
Qed.

(** X25.  The predictor never forgets within a session.  Once the chain
    exists, a call of [Update] only adds to what was learned: the training
    data before the call is the beginning of the training data after it,
    and no transition count of the chain and no count of the frequency map
    is lower than before. *)
Theorem learning_only_grows (env : Env) (pads : list Input)
    (g g' : Game) (out : list Effect) :
  is_Some (markovChain g) ->
  Update env pads g = Some (g', out) ->
  learnedMore g g'.
Proof.
  intros [c Hc] H.
  refine (proj1 (Update_keeps (fun g1 => g1 = g) (learnedMore g)
                   (fun _ => True) I (fun _ _ _ _ => I) _
                   (handler_learnedMore g) env pads g g' out eq_refl H)).
  intros env0 g1 g2 -> H0. unfold initMarkov in H0. rewrite Hc in H0.
  injection H0 as <-. apply learnedMore_refl.
Qed.

End Program.

(** * Properties of [Draw] *)

Section DrawingProperties.

Variable Cos : float -> float.
Variable Sin : float -> float.
Variable boundDx : string -> Z.
Variable boundDy : string -> Z.

Lemma textsOf_app (a b : list DrawOp) :
  textsOf (a ++ b) = textsOf a ++ textsOf b.
Proof. unfold textsOf. apply flat_map_app. Qed.

Lemma highlighted_app (a b : list DrawOp) :
  highlighted (a ++ b) = highlighted a ++ highlighted b.
Proof. unfold highlighted. apply flat_map_app. Qed.

Lemma indicators_app (a b : list DrawOp) :
  indicators (a ++ b) = (indicators a + indicators b)%nat.
Proof. unfold indicators. now rewrite List.filter_app, length_app. Qed.

Lemma index_cons {A} (a : A) (l : list A) (k : Z) :
  index (a :: l) k = if k =? 0 then Some a else index l (k - 1).
Proof.
  unfold index, len. cbn [length]. rewrite Nat2Z.inj_succ.
  destruct (k =? 0) eqn:E0.
  - apply Z.eqb_eq in E0. subst k. cbn.
    destruct (0 <? Z.succ (Z.of_nat (length l))) eqn:E; [reflexivity|].
    apply Z.ltb_ge in E. lia.
  - apply Z.eqb_neq in E0.
    destruct (0 <=? k) eqn:E1.
    + apply Z.leb_le in E1.
      replace (0 <=? k - 1) with true by (symmetry; apply Z.leb_le; lia).
      replace (k - 1 <? Z.of_nat (length l)) with (k <? Z.succ (Z.of_nat (length l)))
        by (destruct (k <? Z.succ (Z.of_nat (length l))) eqn:E2;
            [apply Z.ltb_lt in E2; symmetry; apply Z.ltb_lt; lia
            |apply Z.ltb_ge in E2; symmetry; apply Z.ltb_ge; lia]).
      destruct (k <? Z.succ (Z.of_nat (length l))); cbn; [|reflexivity].
      replace (Z.to_nat k) with (S (Z.to_nat (k - 1))) by lia. reflexivity.
    + apply Z.leb_gt in E1.
      replace (0 <=? k - 1) with false by (symmetry; apply Z.leb_gt; lia).
      reflexivity.
Qed.

(** the tokens of a ring, drawn one after the other *)
Lemma forRange_tokens {A} (body : Z -> A -> option (list DrawOp))
    (d : A -> string) (c : bool) (k : Z) :
  (forall i a,
     exists ops,
       body i a = Some ops
       /\ textsOf ops = [d a]
       /\ highlighted ops = (if c && (i =? k) then [d a] else [])
       /\ indicators ops = (if c && (i =? k) then 1%nat else 0%nat)) ->
  forall l i0,
    exists ops,
      forRange body i0 l = Some ops
      /\ textsOf ops = map d l
      /\ highlighted ops
         = (if c then match index l (k - i0) with
                      | Some a => [d a]
                      | None => []
                      end
            else [])
      /\ indicators ops
         = (if c then match index l (k - i0) with
                      | Some a => 1%nat
                      | None => 0%nat
                      end
            else 0%nat).
Proof.
  intros Hbody. induction l as [|a l IH]; intros i0.
  - exists []. split; [reflexivity|]. split; [reflexivity|].
    destruct c; [|now split].
    assert (Hnil : index (@nil A) (k - i0) = None).
    { unfold index. destruct (_ && _); [apply lookup_nil | reflexivity]. }
    rewrite Hnil. now split.
  - cbn [forRange]. destruct (Hbody i0 a) as (ops & -> & Ht & Hh & Hi).
    destruct (IH (i0 + 1)) as (rest & -> & Ht' & Hh' & Hi').
    cbn [mbind option_bind]. eexists. split; [reflexivity|].
    rewrite textsOf_app, highlighted_app, indicators_app, Ht, Hh, Hi, Ht', Hh', Hi'.
    split; [reflexivity|].
    destruct c; [|now split]. cbn [andb].
    rewrite index_cons. replace (k - (i0 + 1)) with (k - i0 - 1) by lia.
    destruct (i0 =? k) eqn:E.
    + apply Z.eqb_eq in E. subst k. rewrite Z.sub_diag. cbn [Z.eqb].
      replace (index l (0 - 1)) with (@None A) by reflexivity.
      now split.
    + apply Z.eqb_neq in E.
      replace (k - i0 =? 0) with false by (symmetry; apply Z.eqb_neq; lia).
      now split.
Qed.

Lemma bgColors_alpha (ringIdx : Z) (c : RGBA) (b : bool) :
  bgColors ringIdx = Some c ->
  chanA (if b
         then mkRGBA (brighten (chanR c)) (brighten (chanG c))
                (brighten (chanB c)) (chanA c)
         else c) = 255.
Proof.
  unfold bgColors. destruct (ringIdx =? 0); [|destruct (ringIdx =? 1)];
    intros H; try discriminate; injection H as <-; destruct b; reflexivity.
Qed.

(** a token of a ring on a window that shows *)
Lemma drawToken_shown (w : Window) (g : Game) (magnitude : float)
    (ringIdx : Z) (ring : list string) (radius : float) (i : Z)
    (char : string) :
  opacity w = 1%float ->
  ringIdx = 0 \/ ringIdx = 1 ->
  let selected :=
    (0.1 <? magnitude)%float && (ringIdx =? selectedRing g) in
  exists ops,
    drawToken Cos Sin boundDx boundDy w g magnitude ringIdx ring radius i char
    = Some ops
    /\ textsOf ops = [displayChar g char]
    /\ highlighted ops
       = (if selected && (i =? selectedIndex g) then [displayChar g char]
          else [])
    /\ indicators ops
       = (if selected && (i =? selectedIndex g) then 1%nat else 0%nat).
Proof.
  intros Hw Hr selected. unfold drawToken. fold selected.
  assert (Hshown : forall r gr b a, 0 <= a <= 255 ->
            applyOpacity w (mkRGBA r gr b a) = Some (mkRGBA r gr b a)).
  { intros r gr b a Ha. now apply applyOpacity_shown. }
  rewrite !Hshown by lia. cbn [mbind option_bind].
  assert (Hbg : exists bg, bgColors ringIdx = Some bg).
  { destruct Hr as [-> | ->]; eexists; reflexivity. }
  destruct Hbg as (bg & Hbg). rewrite Hbg.
  destruct selected.
  - cbn [andb]. destruct (i =? selectedIndex g).
    + cbn [mbind option_bind].
      rewrite applyOpacity_shown
        by (try exact Hw; rewrite (bgColors_alpha _ _ true Hbg); lia).
      cbn [mbind option_bind]. eexists. split; [reflexivity|].
      repeat split.
    + cbn [mbind option_bind].
      rewrite applyOpacity_shown
        by (try exact Hw; rewrite (bgColors_alpha _ _ true Hbg); lia).
      cbn [mbind option_bind]. eexists. split; [reflexivity|].
      repeat split.
  - cbn [andb mbind option_bind].
    rewrite applyOpacity_shown
      by (try exact Hw; rewrite (bgColors_alpha _ _ false Hbg); lia).
    cbn [mbind option_bind]. eexists. split; [reflexivity|].
    repeat split.
Qed.

Lemma drawRing_shown (w : Window) (g : Game) (magnitude : float)
    (ringIdx : Z) (ring : list string) :
  opacity w = 1%float ->
  rings (currentSet g) ringIdx = Some ring ->
  let selected :=
    (0.1 <? magnitude)%float && (ringIdx =? selectedRing g) in
  exists ops,
    drawRing Cos Sin boundDx boundDy w g magnitude ringIdx = Some ops
    /\ textsOf ops = map (displayChar g) ring
    /\ highlighted ops
       = (if selected
          then match index ring (selectedIndex g) with
               | Some tok => [displayChar g tok]
               | None => []
               end
          else [])
    /\ indicators ops
       = (if selected
          then match index ring (selectedIndex g) with
               | Some tok => 1%nat
               | None => 0%nat
               end
          else 0%nat).
Proof.
  intros Hw Hring selected. unfold drawRing. rewrite Hring.
  cbn [mbind option_bind].
  destruct (rings_inv _ _ _ Hring) as [_ Hr].
  assert (Hrad : exists radius, radii ringIdx = Some radius).
  { destruct Hr as [-> | ->]; eexists; reflexivity. }
  destruct Hrad as (radius & ->). cbn [mbind option_bind].
  pose proof (forRange_tokens
                (drawToken Cos Sin boundDx boundDy w g magnitude ringIdx ring
                   radius)
                (displayChar g) selected (selectedIndex g)
                (fun i a => drawToken_shown w g magnitude ringIdx ring radius
                              i a Hw Hr) ring 0) as H.
  rewrite Z.sub_0_r in H. exact H.
Qed.

Lemma box_no_text (ys xs : list Z) (c : RGBA) :
  textsOf (flat_map (fun y => map (fun x => SetPixel x y c) xs) ys) = []
  /\ highlighted (flat_map (fun y => map (fun x => SetPixel x y c) xs) ys) = []
  /\ indicators (flat_map (fun y => map (fun x => SetPixel x y c) xs) ys) = 0%nat.
Proof.
  assert (Hrow : forall y,
            textsOf (map (fun x => SetPixel x y c) xs) = []
            /\ highlighted (map (fun x => SetPixel x y c) xs) = []
            /\ indicators (map (fun x => SetPixel x y c) xs) = 0%nat).
  { intros y. induction xs as [|x xs IH]; [now repeat split|].
    destruct IH as (A & B & C). repeat split; assumption. }
  induction ys as [|y ys IH]; [now repeat split|].
  cbn [flat_map]. rewrite textsOf_app, highlighted_app, indicators_app.
  destruct (Hrow y) as (A & B & C). destruct IH as (A' & B' & C').
  now rewrite A, B, C, A', B', C'.
Qed.

Lemma drawPrediction_shown (w : Window) (g : Game) :
  opacity w = 1%float ->
  exists ops,
    drawPrediction boundDx boundDy w g = Some ops
    /\ textsOf ops
       = (if streq (nextPrediction g) "" then [] else [nextPrediction g])
    /\ highlighted ops = []
    /\ indicators ops = 0%nat.
Proof.
  intros Hw. unfold drawPrediction.
  destruct (streq (nextPrediction g) ""); cbn [negb];
    [exists []; now repeat split|].
  rewrite !applyOpacity_shown by (try exact Hw; cbn; lia).
  cbn [mbind option_bind]. eexists. split; [reflexivity|].
  rewrite textsOf_app, highlighted_app, indicators_app.
  match goal with
  | |- context [flat_map ?f ?ys] =>
      match f with
      | (fun y => map (fun x => SetPixel x y ?c) ?xs) =>
          destruct (box_no_text ys xs c) as (A & B & C)
      end
  end.
  rewrite A, B, C. repeat split.
Qed.

(** X19.  [Draw] writes every token of the two rings of the set in force,
    once each, as it will be typed.  On a window that shows, with a gamepad
    connected, [Draw] returns (no ring, colour or index is out of range),
    and the strings it writes are, in order, the tokens of the outer ring,
    those of the inner ring, each in the case in force, and the predicted
    word when there is one. *)
Theorem Draw_writes_both_rings (w : Window) (g : Game)
    (gamepads : list (option (float * float))) :
  opacity w = 1%float ->
  validSet g ->
  gamepads <> [] ->
  exists ops outer inner,
    Draw Cos Sin boundDx boundDy w g gamepads = Some ops
    /\ rings (currentSet g) 1 = Some outer
    /\ rings (currentSet g) 0 = Some inner
    /\ textsOf ops
       = map (displayChar g) outer ++ map (displayChar g) inner
         ++ (if streq (nextPrediction g) "" then [] else [nextPrediction g]).
Proof.
  intros Hw Hs Hpads.
  destruct (rings_Some (currentSet g) 1 Hs (or_intror eq_refl))
    as (outer & Ho & _).
  destruct (rings_Some (currentSet g) 0 Hs (or_introl eq_refl))
    as (inner & Hi & _).
  destruct (drawRing_shown w g (currentMagnitude gamepads) 1 outer Hw Ho)
    as (ops1 & H1 & T1 & _).
  destruct (drawRing_shown w g (currentMagnitude gamepads) 0 inner Hw Hi)
    as (ops0 & H0 & T0 & _).
  destruct (drawPrediction_shown w g Hw) as (opsP & HP & TP & _).
  unfold Draw. rewrite Hw.
  change (1 <=? 0)%float with false. cbv iota.
  replace (0 <? len gamepads) with true.
  2:{ symmetry. apply Z.ltb_lt. destruct gamepads; [contradiction|].
      unfold len. cbn [length]. lia. }
  cbv zeta. rewrite H1, H0, HP. cbn [mbind option_bind].
  eexists. exists outer, inner. split; [reflexivity|].
  split; [exact Ho|]. split; [exact Hi|].
  rewrite !textsOf_app, T1, T0, TP. reflexivity.
Qed.

(** X20.  [Draw] highlights the token the confirm button would type.  On
    a window that shows, with a gamepad connected, when the selection
    points at a token of a ring of the set in force, [Draw] writes that
    token alone in the colour of the selection and draws one selection
    indicator, provided the stick [Draw] goes by is outside the dead zone;
    inside the dead zone nothing is highlighted. *)
Theorem Draw_highlights_the_selection (w : Window) (g : Game)
    (gamepads : list (option (float * float))) (ring : list string)
    (tok : string) :
  opacity w = 1%float ->
  gamepads <> [] ->
  rings (currentSet g) (selectedRing g) = Some ring ->
  index ring (selectedIndex g) = Some tok ->
  exists ops,
    Draw Cos Sin boundDx boundDy w g gamepads = Some ops
    /\ highlighted ops
       = (if (0.1 <? currentMagnitude gamepads)%float
          then [displayChar g tok] else [])
    /\ indicators ops
       = (if (0.1 <? currentMagnitude gamepads)%float then 1%nat else 0%nat).
Proof.
  intros Hw Hpads Hring Htok.
  destruct (rings_inv _ _ _ Hring) as [Hs Hr].
  destruct (rings_Some (currentSet g) 1 Hs (or_intror eq_refl))
    as (outer & Ho & _).
  destruct (rings_Some (currentSet g) 0 Hs (or_introl eq_refl))
    as (inner & Hi & _).
  destruct (drawRing_shown w g (currentMagnitude gamepads) 1 outer Hw Ho)
    as (ops1 & H1 & _ & L1 & I1).
  destruct (drawRing_shown w g (currentMagnitude gamepads) 0 inner Hw Hi)
    as (ops0 & H0 & _ & L0 & I0).
  destruct (drawPrediction_shown w g Hw) as (opsP & HP & _ & LP & IP).
  unfold Draw. rewrite Hw.
  change (1 <=? 0)%float with false. cbv iota.
  replace (0 <? len gamepads) with true.
  2:{ symmetry. apply Z.ltb_lt. destruct gamepads; [contradiction|].
      unfold len. cbn [length]. lia. }
  cbv zeta. rewrite H1, H0, HP. cbn [mbind option_bind].
  eexists. split; [reflexivity|].
  rewrite !highlighted_app, !indicators_app, L1, L0, LP, I1, I0, IP.
  cbv zeta. destruct (0.1 <? currentMagnitude gamepads)%float; [|now split].
  cbn [andb]. destruct Hr as [Hr | Hr]; rewrite Hr in *; cbn [Z.eqb].
  - rewrite Hi in Hring. injection Hring as ->. rewrite Htok. now split.
  - rewrite Ho in Hring. injection Hring as ->. rewrite Htok. now split.
Qed.

(** X21.  A hidden window is left blank, and so is one without a gamepad
    but for the prompt.  When the opacity is 0 [Draw] only clears the
    screen, whatever the state and the gamepads; when the window shows and
    no gamepad is connected it clears the screen and writes the prompt to
    connect one, centred, and no ring. *)
Theorem Draw_without_rings (w : Window) (g : Game)
    (gamepads : list (option (float * float))) :
  (opacity w = 0%float ->
   Draw Cos Sin boundDx boundDy w g gamepads = Some [Fill (mkRGBA 0 0 0 0)])
  /\ (opacity w = 1%float ->
      Draw Cos Sin boundDx boundDy w g []
      = Some [Fill (mkRGBA 0 0 0 0);
              DrawText "Please connect your gamepad."
                (Z.quot (screenWidth - boundDx "Please connect your gamepad.") 2)
                230 (mkRGBA 255 255 255 255)]).
Proof.
  split; intros Hw; unfold Draw; rewrite Hw.
  - reflexivity.
  - change (1 <=? 0)%float with false. cbv iota.
    change (0 <? len (@nil (option (float * float)))) with false. cbv iota zeta.
    rewrite applyOpacity_shown by (try exact Hw; cbn; lia). reflexivity.
Qed.

End DrawingProperties.


(** * The properties at concrete inputs *)

(** C1, run: backspace on the one-letter, one-word buffer ["a"]. *)
Lemma C1_backspace_sole_word :
  backspaceWord ["a"] = Some []
  /\ exists g',
       handleBackspace generateFirst rangeListed (pressB (idle 0 0 0))
         (typing ["a"] "")
       = Some (g', [KeyTap "backspace"])
       /\ currentSentence g' = [].
Proof.
  destruct (C1_backspace_drops_emptied_word generateFirst rangeListed
              (pressB (idle 0 0 0)) (typing ["a"] "") [] "a" eq_refl)
    as (H1 & H2 & _).
  split; [exact H1 | exact (H2 eq_refl)].
Defined.

(** C1 as the specification words it fails twice: emptying the only word
    leaves no word (not one empty word), and on ["a"; ""] backspace leaves
    the buffer as it is (it does not drop the empty word). *)
Lemma C1_backspace_as_specified_fails :
  backspaceWord ["a"] = Some []
  /\ backspaceWord ["a"] <> Some [""]
  /\ backspaceWord ["a"; ""] = Some ["a"; ""]
  /\ backspaceWord ["a"; ""] <> Some ["a"].
Proof. repeat split; try reflexivity; vm_compute; discriminate. Qed.

(** C2, run: half deflection selects the inner ring. *)
Lemma C2_half_deflection_inner :
  exists g',
    updateSelection atan2OnAxes 0.5 0 (PrimFloat.sqrt (0.5 * 0.5 + 0 * 0)) started
    = Some g'
    /\ selectedRing g' = 0.
Proof.
  destruct (C2_ring_boundary atan2OnAxes 0.5 0 started eq_refl
              (or_introl eq_refl)) as (g' & H & Hin & _).
  exists g'. split; [exact H | exact (Hin eq_refl)].
Defined.

(** C2 as the specification words it fails on the boundary: the stick at
    (0.9, 0) has magnitude exactly 0.9, outside the dead zone, and the
    outer ring (1) is selected, not the inner one. *)
Lemma C2_boundary_selects_outer :
  PrimFloat.sqrt (0.9 * 0.9 + 0 * 0) = 0.9%float
  /\ (0.1 <? 0.9)%float = true
  /\ (0.9 <=? 0.9)%float = true
  /\ selectedRing <$> updateSelection atan2OnAxes 0.9 0 0.9 started = Some 1
  /\ selectedRing <$> updateSelection atan2OnAxes 0.9 0 0.9 started <> Some 0.
Proof. repeat split; try reflexivity; vm_compute; discriminate. Qed.

(** C3, run: two frames with the stick at (0.05, 0.05) and the confirm
    button pressed leave ring 1, index 3 selected. *)
Lemma C3_two_resting_frames :
  exists g' out,
    runFrames atan2OnAxes generateFirst rangeListed unmarshalEmpty
      [(firstRun, [pressConfirm (idle 0.05 0.05 1000000000)]);
       (firstRun, [pressB (idle (- 0.05) 0.05 1016000000)])]
      (set_selectedIndex 3 (set_selectedRing 1 newGame))
    = Some (g', out)
    /\ selectedIndex g' = 3
    /\ selectedRing g' = 1.
Proof.
  destruct (C3_dead_zone_holds_selection atan2OnAxes generateFirst rangeListed
              unmarshalEmpty
              [(firstRun, [pressConfirm (idle 0.05 0.05 1000000000)]);
               (firstRun, [pressB (idle (- 0.05) 0.05 1016000000)])]
              (set_selectedIndex 3 (set_selectedRing 1 newGame)))
    as [Hkeep Hret]; [repeat constructor|].
  destruct Hret as (g' & out & H); [repeat constructor|].
  exists g', out. split; [exact H | exact (Hkeep g' out H)].
Defined.

(** C4, run: the stick pushed fully right is a quarter turn, the seventh
    letter of the outer ring. *)
Lemma C4_stick_right :
  exists g' currentRing,
    updateSelection atan2OnAxes 1 0 (PrimFloat.sqrt (1 * 1 + 0 * 0)) started
    = Some g'
    /\ rings (currentSet g') (selectedRing g') = Some currentRing
    /\ joystickAngle g' = (Pi / 2)%float
    /\ selectedIndex g' = 6
    /\ index currentRing (selectedIndex g') = Some "G".
Proof.
  destruct (C4_angle_and_index atan2OnAxes 1 0 started eq_refl
              (or_introl eq_refl) eq_refl eq_refl)
    as (g' & ring & k & Hu & Hr & _).
  exists g', ring. split; [exact Hu|].
  vm_compute in Hu. apply (inj Some) in Hu. subst g'.
  vm_compute in Hr. apply (inj Some) in Hr. subst ring.
  repeat split.
Defined.

(** C5, run: a confirm accepted at one second types "a"; a second confirm
    150 ms later is dropped. *)
Lemma C5_second_confirm_dropped :
  let g0 := set_selectedRing 1 started in
  let g1 := set_lastButtonTime 1000000000
              (set_nextPrediction "" (set_currentSentence ["a"] g0)) in
  handleConfirm generateFirst rangeListed
    (pressConfirm (idle 1 0 1000000000)) 1 g0
  = Some (g1, [TypeStr "a"; WriteRawText "a"])
  /\ handleConfirm generateFirst rangeListed
       (pressConfirm (idle 1 0 1150000000)) 1 g1
     = Some (g1, [])
  /\ keystrokes ([TypeStr "a"; WriteRawText "a"] ++ []) = 1%nat.
Proof.
  intros g0 g1.
  assert (H1 : handleConfirm generateFirst rangeListed
                 (pressConfirm (idle 1 0 1000000000)) 1 g0
               = Some (g1, [TypeStr "a"; WriteRawText "a"]))
    by (vm_compute; reflexivity).
  split; [exact H1|].
  apply (C5_debounce_discards_second_commit generateFirst rangeListed
           (pressConfirm (idle 1 0 1000000000))
           (pressConfirm (idle 1 0 1150000000)) 1 1 g0 g1 g1
           [TypeStr "a"; WriteRawText "a"] H1).
  - discriminate.
  - reflexivity.
  - unfold Millisecond. cbn. lia.
Defined.



(** C7 at two inputs where lowering changes the byte length.  The
    specification has the rest of the suggestion typed whenever the word in
    progress is a case-insensitive prefix of it.  With the Kelvin sign
    (three bytes, lowered to "k") in progress and "kb" suggested, the
    prefix test succeeds and the slice [nextPrediction[3:]] of a two-byte
    string panics.  With "i" in progress and "İstanbul" suggested, the test
    succeeds as well and the slice [nextPrediction[1:]] cuts the two-byte
    İ in half: what is typed after the "i" is its second byte and
    "stanbul ", not the rest of the suggestion. *)
Lemma C7_accept_when_lowering_changes_length :
  toLowerOfExamples kelvinSign = "k"
  /\ strlen kelvinSign = 3
  /\ acceptPredictionWith generateFirst rangeListed toLowerOfExamples
       (pressR2 (idle 0 0 0)) (typing ["a"; kelvinSign] "kb") = None
  /\ toLowerOfExamples capitalIstanbul = "istanbul"
  /\ snd <$> acceptPredictionWith generateFirst rangeListed toLowerOfExamples
               (pressR2 (idle 0 0 0)) (typing ["in"; "i"] capitalIstanbul)
     = Some [TypeStr (String "176" "stanbul ");
             WriteRawText (String "176" "stanbul ")].
Proof. repeat split; vm_compute; reflexivity. Qed.

(** C8, run: a first run ends with the seed sentences as training data and
    "good" followed by "morning" in the chain. *)
Lemma C8_first_run :
  exists g' c,
    initMarkov generateFirst rangeListed unmarshalEmpty firstRun newGame
    = Some g'
    /\ trainingData g' = seedSentences
    /\ markovChain g' = Some c
    /\ 1 <= transitions c "good" "morning"
    /\ 1 <= frequency (wordFrequency g') "i".
Proof.
  destruct (C8_missing_file_loads_seeds generateFirst rangeListed
              unmarshalEmpty firstRun newGame eq_refl eq_refl eq_refl)
    as (_ & g' & c & Hi & Ht & _ & Hc & Hadj & Hfreq).
  exists g', c. split; [exact Hi|]. split; [exact Ht|]. split; [exact Hc|].
  split.
  - apply (Hadj ["good"; "morning"]).
    + unfold seedSentences. do 9 apply list_elem_of_further.
      apply list_elem_of_here.
    + exists [gomarkov.StartToken], [gomarkov.EndToken]. reflexivity.
  - apply (Hfreq ["I"; "am"; "fine"] "I").
    + unfold seedSentences. do 3 apply list_elem_of_further.
      apply list_elem_of_here.
    + apply list_elem_of_here.
Defined.



(** C10, run: backspace on the empty buffer. *)
Lemma C10_backspace_on_empty_buffer :
  backspaceWord [] = Some []
  /\ exists g',
       handleBackspace generateFirst rangeListed (pressB (idle 0 0 0)) started
       = Some (g', [KeyTap "backspace"])
       /\ currentSentence g' = [].
Proof.
  destruct (C10_backspace_noop_on_empty generateFirst rangeListed
              (pressB (idle 0 0 0)) started (or_introl eq_refl))
    as (H1 & H2 & _).
  split; [exact H1 | exact (H2 eq_refl)].
Defined.

(** ** The further properties at concrete inputs *)

Lemma toLowerOfExamples_ascii (s : string) :
  isASCII s = true -> toLowerOfExamples s = strings.ToLower s.
Proof.
  intros H. unfold toLowerOfExamples.
  destruct (streq s kelvinSign) eqn:E1;
    [apply streq_true in E1; subst s; vm_compute in H; discriminate|].
  destruct (streq s capitalIstanbul) eqn:E2;
    [apply streq_true in E2; subst s; vm_compute in H; discriminate|].
  reflexivity.
Qed.

(** the order of [map_to_list] lists the entries of the map *)
Lemma rangeListed_entries : listsEntries rangeListed.
Proof. intros m k f. unfold rangeListed. apply elem_of_map_to_list. Qed.

(** [atan2OnAxes] answers 0, π, π/2 or -π/2 *)
Lemma atan2OnAxes_in_range : atan2InRange atan2OnAxes.
Proof.
  intros x y _. unfold atan2OnAxes.
  destruct (x =? 0)%float; [destruct (- y <? 0)%float|
    destruct (- y =? 0)%float; [destruct (0 <? x)%float|]];
    split; reflexivity.
Qed.

(** X2, run: with "hello" counted twice, "help" once and "world" five
    times, the typed "He" is completed to "hello". *)
Lemma first_word_completion_hello :
  let g := set_currentSentence ["He"] practised in
  updatePrediction generateFirst rangeListed g
  = Some (set_nextPrediction "hello" g).
Proof.
  intros g.
  destruct (first_word_completion generateFirst rangeListed g
              (gomarkov.Add ∅ ["good"; "morning"]) "He"
              rangeListed_entries eq_refl eq_refl ltac:(discriminate))
    as (best & Hu & _).
  rewrite Hu. vm_compute in Hu. injection Hu as <-. reflexivity.
Defined.

(** X3, run: after "good", with "mo" typed, the chain's "morning" is
    predicted. *)
Lemma later_word_prediction_morning :
  let g := set_currentSentence ["good"; "mo"] practised in
  updatePrediction generateFirst rangeListed g
  = Some (set_nextPrediction "morning" g).
Proof.
  intros g.
  assert (Hc : markovChain g = Some (gomarkov.Add ∅ ["good"; "morning"]))
    by reflexivity.
  assert (Hcs : currentSentence g = [] ++ ["good"; "mo"]) by reflexivity.
  assert (Hne : "good" <> "" \/ "mo" <> "") by (left; discriminate).
  destruct (later_word_prediction generateFirst rangeListed g
              (gomarkov.Add ∅ ["good"; "morning"]) [] "good" "mo"
              Hc Hcs Hne) as [H _].
  rewrite H.
  assert (Hp : generatedOrThe generateFirst
                 (gomarkov.Add ∅ ["good"; "morning"]) "good" = "morning")
    by (vm_compute; reflexivity).
  now rewrite Hp.
Defined.

(** X4, run: B pressed on the buffer ["ab"; "c"]. *)
Lemma buffer_well_formed_after_B :
  exists g' out,
    Update atan2OnAxes generateFirst rangeListed unmarshalEmpty firstRun
      [pressB (idle 0 0 0)] (typing ["ab"; "c"] "") = Some (g', out)
    /\ currentSentence g' = ["ab"]
    /\ wellFormed (currentSentence g').
Proof.
  destruct (Update atan2OnAxes generateFirst rangeListed unmarshalEmpty firstRun
              [pressB (idle 0 0 0)] (typing ["ab"; "c"] ""))
    as [[g' out]|] eqn:E; [|vm_compute in E; discriminate].
  exists g', out. split; [reflexivity|]. split.
  - vm_compute in E. now injection E as <- _.
  - apply (buffer_stays_well_formed atan2OnAxes generateFirst rangeListed
             unmarshalEmpty firstRun [pressB (idle 0 0 0)]
             (typing ["ab"; "c"] "") g' out); [|exact E].
    repeat constructor. discriminate.
Defined.

(** X5, run: "A" confirmed and Y pressed in one tick type "a" and a new
    line, and log the same. *)
Lemma typed_and_logged_a_newline :
  exists g' out,
    Update atan2OnAxes generateFirst rangeListed unmarshalEmpty firstRun
      [pressY (pressConfirm (idle 0 (-1) 1000000000))] started = Some (g', out)
    /\ typedText out = ("a" ++ newline)%string
    /\ loggedText out = typedText out.
Proof.
  destruct (Update atan2OnAxes generateFirst rangeListed unmarshalEmpty firstRun
              [pressY (pressConfirm (idle 0 (-1) 1000000000))] started)
    as [[g' out]|] eqn:E; [|vm_compute in E; discriminate].
  exists g', out. split; [reflexivity|]. split.
  - vm_compute in E. now injection E as _ <-.
  - exact (typed_text_is_logged atan2OnAxes generateFirst rangeListed
             unmarshalEmpty firstRun _ started g' out E).
Defined.

(** X6, run: the frequency map after a first run. *)
Lemma frequency_after_first_run :
  exists g' out,
    Update atan2OnAxes generateFirst rangeListed unmarshalEmpty firstRun []
      newGame = Some (g', out)
    /\ goodFrequency (wordFrequency g').
Proof.
  destruct (Update atan2OnAxes generateFirst rangeListed unmarshalEmpty firstRun
              [] newGame) as [[g' out]|] eqn:E; [|vm_compute in E; discriminate].
  exists g', out. split; [reflexivity|].
  exact (frequency_keys_lower_case atan2OnAxes generateFirst rangeListed
           unmarshalEmpty firstRun [] newGame g' out (or_introl eq_refl) E).
Defined.

(** X7, run: a first tick with the stick up and every button but R2
    pressed. *)
Lemma first_tick_returns :
  exists g' out,
    Update atan2OnAxes generateFirst rangeListed unmarshalEmpty
      (mkEnv false ReadFailed ReadFailed)
      [pressX (pressB (pressConfirm (idle 0 (-1) 1000000000)));
       holdL1R1 (pressY (idle 1 0 1000000000))]
      newGame = Some (g', out)
    /\ validSet g'
    /\ validSelection g'.
Proof.
  destruct (Update_returns_without_R2 atan2OnAxes generateFirst rangeListed
              unmarshalEmpty (mkEnv false ReadFailed ReadFailed)
              [pressX (pressB (pressConfirm (idle 0 (-1) 1000000000)));
               holdL1R1 (pressY (idle 1 0 1000000000))]
              newGame atan2OnAxes_in_range (or_introl eq_refl))
    as (g' & out & HU & Hs & _ & Hv); [repeat constructor|].
  exists g', out. split; [exact HU|]. split; [exact Hs|].
  apply Hv. exists ["0"; "1"; "2"; "3"; "4"; "5"; "6"; "7"; "8"; "9";
                    "."; ","; "-"; "_"; "⌫"; "↵"], "0".
  split; reflexivity.
Defined.

(** X8, run: Y on the buffer ["hello"]. *)
Lemma single_word_line_dropped :
  handleEnter (pressY (idle 0 0 0)) (typing ["hello"] "")
  = Some (typing [] "", [KeyTap "enter"; WriteRawText newline]).
Proof.
  destruct (short_line_not_learned generateFirst rangeListed
              (pressY (idle 0 0 0)) (typing ["hello"] ""))
    as (_ & H & _); [unfold len; cbn; lia|].
  exact (H eq_refl).
Defined.

(** X9, run: Enter on the buffer ["hello"; "there"; ""]. *)
Lemma line_hello_there_learned :
  exists g',
    enterSentence (typing ["hello"; "there"; ""] "")
    = Some (g', [KeyTap "enter"; WriteRawText newline;
                 WriteTrainingData [["hello"; "there"; ""]]])
    /\ markovChain g' = Some (gomarkov.Add ∅ ["hello"; "there"; ""])
    /\ 1 <= frequency (wordFrequency g') "there"
    /\ frequency (wordFrequency g') "" = 0.
Proof.
  destruct (long_line_learned (typing ["hello"; "there"; ""] "") ∅ eq_refl)
    as (g' & c' & He & _ & Ht & Hc & -> & _ & _ & Hf & _ & H0);
    [unfold len; cbn; lia|].
  exists g'. rewrite Ht in He. split; [exact He|]. split; [exact Hc|]. split.
  - specialize (Hf "there"). cbn in Hf. apply Hf; [|discriminate].
    apply list_elem_of_further, list_elem_of_here.
  - rewrite H0. reflexivity.
Defined.

(** X10, run: X pressed twice after "hi". *)
Lemma two_spaces_one_word :
  exists g1 g2,
    handleSpace generateFirst rangeListed (pressX (idle 0 0 0))
      (typing ["hi"] "") = Some (g1, [TypeStr " "; WriteRawText " "])
    /\ currentSentence g1 = ["hi"; ""]
    /\ handleSpace generateFirst rangeListed (pressX (idle 0 0 0)) g1
       = Some (g2, [TypeStr " "; WriteRawText " "])
    /\ currentSentence g2 = ["hi"; ""].
Proof.
  destruct (space_opens_one_word generateFirst rangeListed
              (pressX (idle 0 0 0)) (pressX (idle 0 0 0)) (typing ["hi"] "")
              eq_refl eq_refl)
    as (g1 & g2 & H1 & _ & _ & _ & H2 & Heq).
  assert (Hcs : currentSentence g1 = ["hi"; ""]).
  { vm_compute in H1. now injection H1 as <-. }
  exists g1, g2. split; [exact H1|]. split; [exact Hcs|]. split; [exact H2|].
  now rewrite Heq.
Defined.

(** X11, run: after "a" and a space, "B" typed and deleted leaves ["a"]. *)
Lemma glyph_undone_after_space :
  exists g1 g2 out1 out2,
    typeGlyph generateFirst rangeListed "B" (typing ["a"; ""] "")
    = Some (g1, out1)
    /\ handleBackspace generateFirst rangeListed (pressB (idle 0 0 0)) g1
       = Some (g2, out2)
    /\ currentSentence g1 = ["a"; "b"]
    /\ currentSentence g2 = ["a"].
Proof.
  destruct (typeGlyph generateFirst rangeListed "B" (typing ["a"; ""] ""))
    as [[g1 out1]|] eqn:E1; [|vm_compute in E1; discriminate].
  destruct (handleBackspace generateFirst rangeListed (pressB (idle 0 0 0)) g1)
    as [[g2 out2]|] eqn:E2.
  2:{ vm_compute in E1. injection E1 as <- _. vm_compute in E2. discriminate. }
  exists g1, g2, out1, out2. split; [reflexivity|]. split; [exact E2|].
  destruct (glyph_then_backspace generateFirst rangeListed (pressB (idle 0 0 0))
              "B" (typing ["a"; ""] "") g1 g2 out1 out2 E1 eq_refl eq_refl E2)
    as (_ & _ & _ & H).
  split; [|exact (H ["a"] eq_refl)].
  vm_compute in E1. now injection E1 as <- _.
Defined.

(** X12, run: "A" under the stick, R1 not held: "a" is typed. *)
Lemma confirm_types_lower_a :
  exists g',
    handleConfirm generateFirst rangeListed
      (pressConfirm (idle 0 (-1) 1000000000)) 1 (set_selectedRing 1 started)
    = Some (g', [TypeStr "a"; WriteRawText "a"])
    /\ currentSentence g' = ["a"].
Proof.
  destruct (typed_glyph_is_displayed generateFirst rangeListed
              (pressConfirm (idle 0 (-1) 1000000000)) 1
              (set_selectedRing 1 started) "A")
    as (g' & H & _ & Hcs & _).
  - split; [reflexivity|]. split; [vm_compute; reflexivity|].
    split; [reflexivity|]. eexists. split; reflexivity.
  - discriminate.
  - discriminate.
  - exists g'. split; [exact H | exact Hcs].
Defined.

(** X13, run: no home directory. *)
Lemma initialisation_without_home :
  exists g' c,
    initMarkov generateFirst rangeListed unmarshalEmpty
      (mkEnv false ReadFailed ReadFailed) newGame = Some g'
    /\ markovChain g' = Some c
    /\ trainingData g' <> [].
Proof.
  destruct (initialisation_always_trains generateFirst rangeListed
              unmarshalEmpty (mkEnv false ReadFailed ReadFailed) newGame eq_refl)
    as (g' & c & H & Hc & Hne & _).
  exists g', c. auto.
Defined.

(** X14, run: an empty raw text file. *)
Lemma empty_raw_text_changes_nothing :
  loadRawTextAndTrain (withRawText "") started = Some (started, None).
Proof.
  destruct (raw_text_never_forgets (withRawText "") started ∅ eq_refl)
    as (_ & _ & H).
  destruct (H eq_refl) as (_ & _ & H3). exact (H3 eq_refl).
Defined.

(** X15, run: L1 and R1 held. *)
Lemma set_and_case_while_held :
  exists g' out,
    updateGamepad atan2OnAxes generateFirst rangeListed
      (holdL1R1 (idle 0 0 0)) started = Some (g', out)
    /\ currentSet g' = 1
    /\ uppercase g' = true.
Proof.
  destruct (updateGamepad atan2OnAxes generateFirst rangeListed
              (holdL1R1 (idle 0 0 0)) started)
    as [[g' out]|] eqn:E; [|vm_compute in E; discriminate].
  exists g', out. split; [reflexivity|].
  exact (modifiers_follow_the_buttons atan2OnAxes generateFirst rangeListed
           (holdL1R1 (idle 0 0 0)) started g' out E).
Defined.

(** X16, run: button 9 pressed once hides the window and takes the alpha
    of the indicator's colour to 0. *)
Lemma button9_hides_the_window :
  let w' := fst (UpdateWindow [windowReport 0 0 true] newWindow) in
  isVisible w' = false
  /\ opacity w' = 0%float
  /\ applyOpacity w' (mkRGBA 0 255 255 64) = Some (mkRGBA 0 255 255 0).
Proof.
  intros w'.
  destruct (visibility_and_opacity [windowReport 0 0 true] newWindow
              (mkRGBA 0 255 255 64) ltac:(cbn; lia)) as (H1 & H2 & H3).
  split; [exact H1|]. split; [vm_compute; reflexivity|].
  etransitivity; [exact H3|]. vm_compute. reflexivity.
Defined.

(** X17, run: from x = 1450 the stick pushed right would reach 1475; the
    monitor of 1920 stops the window at 1460. *)
Lemma window_stops_at_the_edge :
  let w := mkWindow 1450 100 true 1 true in
  moveWindow (windowReport 1 0 false) w
  = (mkWindow 1460 100 true 1 true, [SetWindowPosition 1460 100])
  /\ (windowX (fst (moveWindow (windowReport 1 0 false) w))
      <=? float64_of_Z (1920 - screenWidth))%float = true.
Proof.
  intros w. split; [vm_compute; reflexivity|].
  assert (HX : screenWidth <= 1920 < 2 ^ 63) by (unfold screenWidth; lia).
  assert (HY : screenHeight <= 1080 < 2 ^ 63) by (unfold screenHeight; lia).
  exact (proj1 (proj2 (window_stays_on_monitor (windowReport 1 0 false) w
                         1920 1080 eq_refl eq_refl HX HY eq_refl eq_refl))).
Defined.

(** X18, run: the first frame with a resting stick places the window at
    (100, 100) and leaves it there. *)
Lemma first_frame_places_the_window :
  let w' := fst (UpdateWindow [windowReport 0.05 0 true] newWindow) in
  windowX w' = 100%float
  /\ windowY w' = 100%float
  /\ snd (UpdateWindow [windowReport 0.05 0 true] newWindow)
     = [SetWindowPosition 100 100].
Proof.
  intros w'.
  destruct (resting_stick_leaves_window [windowReport 0.05 0 true] newWindow)
    as (H1 & H2 & _ & H4).
  - repeat constructor.
  - fold w' in H1, H2. split; [exact H1|]. split; [exact H2 | exact H4].
Defined.

(** X19, run: the rings of the main set, lower case in force. *)
Lemma Draw_main_set :
  exists ops,
    Draw cosOfZero sinOfZero boundDx7 boundDy13
      (fst (UpdateWindow [] newWindow)) started [Some (0, 0)%float]
    = Some ops
    /\ textsOf ops
       = ["a"; "b"; "c"; "d"; "e"; "f"; "g"; "h"; "i"; "j"; "k"; "l"; "m";
          "n"; "o"; "p"; "q"; "r"; "s"; "t"; "u"; "v"; "w"; "x"; "y"; "z";
          "0"; "1"; "2"; "3"; "4"; "5"; "6"; "7"; "8"; "9";
          "."; ","; "-"; "_"; "⌫"; "↵"].
Proof.
  destruct (Draw_writes_both_rings cosOfZero sinOfZero boundDx7 boundDy13
              (fst (UpdateWindow [] newWindow)) started [Some (0, 0)%float]
              eq_refl (or_introl eq_refl) ltac:(discriminate))
    as (ops & outer & inner & H & Ho & Hi & Ht).
  exists ops. split; [exact H|]. rewrite Ht.
  cbn in Ho, Hi. injection Ho as <-. injection Hi as <-. reflexivity.
Defined.

(** X20, run: with the stick up and the outer ring selected at index 0,
    "a" is the one token highlighted. *)
Lemma Draw_highlights_a :
  exists ops,
    Draw cosOfZero sinOfZero boundDx7 boundDy13
      (fst (UpdateWindow [] newWindow)) (set_selectedRing 1 started)
      [None; Some (0, -1)%float]
    = Some ops
    /\ highlighted ops = ["a"]
    /\ indicators ops = 1%nat.
Proof.
  destruct (Draw_highlights_the_selection cosOfZero sinOfZero boundDx7
              boundDy13 (fst (UpdateWindow [] newWindow))
              (set_selectedRing 1 started) [None; Some (0, -1)%float]
              ["A"; "B"; "C"; "D"; "E"; "F"; "G"; "H"; "I"; "J";
               "K"; "L"; "M"; "N"; "O"; "P"; "Q"; "R"; "S"; "T";
               "U"; "V"; "W"; "X"; "Y"; "Z"] "A"
              eq_refl ltac:(discriminate) eq_refl eq_refl)
    as (ops & H & Hh & Hi).
  exists ops. split; [exact H|]. split; [exact Hh | exact Hi].
Defined.

(** X22, run: "good" accepted over "go"; the chain has seen "morning"
    follow it. *)
Lemma morning_follows_good :
  exists g' out,
    acceptPredictionWith generateFirst rangeListed toLowerOfExamples
      (pressR2 (idle 0 0 0))
      (set_nextPrediction "good" (set_currentSentence ["go"] practised))
    = Some (g', out)
    /\ currentSentence g' = ["good"; ""]
    /\ nextPrediction g' = "morning".
Proof.
  destruct (prediction_follows_completed_word generateFirst rangeListed
              toLowerOfExamples (pressR2 (idle 0 0 0))
              (set_nextPrediction "good" (set_currentSentence ["go"] practised))
              (gomarkov.Add ∅ ["good"; "morning"]) eq_refl) as [H _].
  destruct (H eq_refl ltac:(discriminate)) as [Hnext Hret].
  destruct Hret as (g' & out & Ha); [vm_compute; discriminate|].
  destruct (Hnext g' out Ha) as (Hcs & Hn & _).
  exists g', out. split; [exact Ha|]. split; [exact Hcs|]. rewrite Hn.
  vm_compute. reflexivity.
Defined.

(** X27, run: "morning" accepted over the typed "mo". *)
Lemma morning_over_mo :
  exists g',
    acceptPredictionWith generateFirst rangeListed toLowerOfExamples
      (pressR2 (idle 0 0 0)) (typing ["mo"] "morning")
    = Some (g', [TypeStr "rning "; WriteRawText "rning "])
    /\ currentSentence g' = ["morning"; ""].
Proof.
  destruct (accept_types_the_remainder generateFirst rangeListed
              toLowerOfExamples (pressR2 (idle 0 0 0))
              (typing ["mo"] "morning") toLowerOfExamples_ascii eq_refl
              ltac:(discriminate) eq_refl eq_refl)
    as (g' & out & Hacc & Hpre & _ & Hcs & _).
  destruct (Hpre eq_refl) as [Hout _]. rewrite Hout in Hacc.
  exists g'. split; [exact Hacc | exact Hcs].
Defined.

(** X24, run: the stick pushed up with L1 and R1 held, no button just
    pressed. *)
Lemma stick_moved_nothing_typed :
  exists g',
    Update atan2OnAxes generateFirst rangeListed unmarshalEmpty firstRun
      [holdL1R1 (idle 0 (-1) 0)] practised = Some (g', [])
    /\ sameText practised g'.
Proof.
  destruct (Update atan2OnAxes generateFirst rangeListed unmarshalEmpty firstRun
              [holdL1R1 (idle 0 (-1) 0)] practised)
    as [[g' out]|] eqn:E; [|vm_compute in E; discriminate].
  assert (Hno : Forall noButton [holdL1R1 (idle 0 (-1) 0)])
    by (repeat constructor).
  assert (Hc : is_Some (markovChain practised)) by (eexists; reflexivity).
  destruct (stick_alone_never_types atan2OnAxes generateFirst rangeListed
              unmarshalEmpty firstRun _ practised g' out Hno E) as [-> H].
  exists g'. split; [reflexivity | exact (H Hc)].
Defined.

(** X25, run: Y pressed on the buffer ["hello"; "there"] by a game that has
    learned a line. *)
Lemma learning_after_a_line :
  exists g' out,
    Update atan2OnAxes generateFirst rangeListed unmarshalEmpty firstRun
      [pressY (idle 0 0 0)]
      (set_currentSentence ["hello"; "there"] practised) = Some (g', out)
    /\ trainingData g' = [["hello"; "there"]]
    /\ learnedMore (set_currentSentence ["hello"; "there"] practised) g'.
Proof.
  destruct (Update atan2OnAxes generateFirst rangeListed unmarshalEmpty firstRun
              [pressY (idle 0 0 0)]
              (set_currentSentence ["hello"; "there"] practised))
    as [[g' out]|] eqn:E; [|vm_compute in E; discriminate].
  exists g', out. split; [reflexivity|]. split.
  - vm_compute in E. now injection E as <- _.
  - assert (Hc : is_Some (markovChain
                            (set_currentSentence ["hello"; "there"] practised)))
      by (eexists; reflexivity).
    exact (learning_only_grows atan2OnAxes generateFirst rangeListed
             unmarshalEmpty firstRun _ _ g' out Hc E).
Defined.

(** ** The string functions on samples *)

Example ToLower_sample : strings.ToLower "Ok, I WILL" = "ok, i will".
Proof. reflexivity. Qed.

Example Fields_sample :
  strings.Fields "  the  dogs' bones " = ["the"; "dogs'"; "bones"].
Proof. reflexivity. Qed.

Example cleanWord_sample :
  map cleanWord ["dogs',"; "'tis"; "don't"; "(hello)"]
  = ["dogs"; "tis"; "don't"; "(hello)"].
Proof. reflexivity. Qed.
